(** * Media Bridge Viewer: the enumerator, the thumbnail cache, the remote
    bridge and the selection state of the viewers

    A shallow embedding of [media_bridge_viewer/media_handler.py],
    [remote.py], [cli_viewer.py] and [viewer.py].  Python objects become
    records, [dict] and [set] become [gmap] and [gset], the file system
    and the external decoders (PIL, OpenCV) and programs (scp, xdg-open)
    are explicit: the local files are a finite map from paths to contents
    inside a [World], the decoders are the fields of a [Codec] class, and
    what a file transfer does is an argument of the operation that starts
    it.  Exceptions are values of [result]; a [try]/[except] is a [match].

    Paths are POSIX paths ([posixpath]).  Characters are 8-bit: the
    model covers ASCII text, on which [str.lower], [str.strip], the
    order of [sorted] and the like are what the definitions below say;
    the theorems that depend on it say so in a hypothesis. *)

From stdpp Require Import gmap strings list sorting pretty.
From Stdlib Require Import ZArith Ascii Floats.SpecFloat.

Open Scope Z_scope.
Local Set Warnings "-register-all,-clear-no-such-hyp".

(** ** Python values, exceptions *)

Inductive exn : Type :=
  | FileNotFoundError (path : string)
  | PermissionError (path : string)
  | ValueError (msg : string)
  | OverflowError (msg : string)
  | DecodeError (msg : string)
  | MemoryError.

Inductive result (A : Type) : Type :=
  | Returned (a : A)
  | Raised (e : exn).
Arguments Returned {A} a.
Arguments Raised {A} e.

Definition str_of_exn (e : exn) : string :=
  match e with
  | FileNotFoundError p => "No such file or directory: " +:+ p
  | PermissionError p => "Permission denied: " +:+ p
  | ValueError m => m
  | OverflowError m => m
  | DecodeError m => m
  | MemoryError => EmptyString
  end.

(** ** [str] methods and [os.path] (posixpath, genericpath) *)

Module Py.

Definition ascii_lower (c : ascii) : ascii :=
  let n := N_of_ascii c in
  if ((65 <=? n) && (n <=? 90))%N then ascii_of_N (n + 32) else c.

(** [s.lower()] for an ASCII string: only the letters A to Z change.
    ([str.lower] also maps letters outside ASCII, which these strings do
    not hold.) *)
Fixpoint lower (s : string) : string :=
  match s with
  | EmptyString => EmptyString
  | String c s' => String (ascii_lower c) (lower s')
  end.

(** [s.rfind(c)]: the index of the last occurrence of [c], or [-1]. *)
Fixpoint rfind (c : ascii) (s : string) : Z :=
  match s with
  | EmptyString => -1
  | String a s' =>
      let r := rfind c s' in
      if 0 <=? r then r + 1
      else if decide (a = c) then 0 else -1
  end.

(** [s[i:]] and [s[:i]] for [0 <= i]. *)
Fixpoint drop (i : nat) (s : string) : string :=
  match i, s with
  | O, _ => s
  | S i', String _ s' => drop i' s'
  | S _, EmptyString => EmptyString
  end.

Fixpoint take (i : nat) (s : string) : string :=
  match i, s with
  | O, _ => EmptyString
  | S i', String a s' => String a (take i' s')
  | S _, EmptyString => EmptyString
  end.

(** [s.startswith(c)], [s.endswith(c)] for a one-character [c]. *)
Definition startswith (c : ascii) (s : string) : bool :=
  match s with
  | String a _ => bool_decide (a = c)
  | EmptyString => false
  end.

Fixpoint endswith (c : ascii) (s : string) : bool :=
  match s with
  | EmptyString => false
  | String a EmptyString => bool_decide (a = c)
  | String _ s' => endswith c s'
  end.

(** The loop of [genericpath._splitext] that skips the leading dots of
    the file name: [true] when one of the [n] characters from
    [filenameIndex] on is not a dot, so that the extension is split off. *)
Fixpoint splitext_scan (p : string) (filenameIndex n : nat) : bool :=
  match n with
  | O => false
  | S n' =>
      match String.get filenameIndex p with
      | Some "."%char => splitext_scan p (S filenameIndex) n'
      | _ => true
      end
  end.

(** [os.path.splitext(p)] *)
Definition splitext (p : string) : string * string :=
  let sepIndex := rfind "/" p in
  let dotIndex := rfind "." p in
  if (sepIndex <? dotIndex) &&
     splitext_scan p (Z.to_nat (sepIndex + 1)) (Z.to_nat (dotIndex - (sepIndex + 1)))
  then (take (Z.to_nat dotIndex) p, drop (Z.to_nat dotIndex) p)
  else (p, EmptyString).

(** [os.path.basename(p)] *)
Definition basename (p : string) : string :=
  drop (Z.to_nat (rfind "/" p + 1)) p.

(** [os.path.join(a, b)] *)
Definition join (a b : string) : string :=
  if startswith "/" b then b
  else if bool_decide (a = "") || endswith "/" a then a +:+ b
  else a +:+ "/" +:+ b.

(** [sorted(l)] on ASCII strings: a stable sort by code points, which
    for ASCII are the character codes [String.le] compares. *)
Definition sorted (l : list string) : list string := merge_sort String.le l.

(** *** More [str] methods, on ASCII strings *)

(** [c.isspace()] *)
Definition isspace (c : ascii) : bool :=
  let n := N_of_ascii c in
  (((9 <=? n) && (n <=? 13)) || ((28 <=? n) && (n <=? 32)))%N.

(** [s.isascii()] *)
Fixpoint isascii (s : string) : bool :=
  match s with
  | EmptyString => true
  | String c s' => (N_of_ascii c <? 128)%N && isascii s'
  end.

Fixpoint lstrip (s : string) : string :=
  match s with
  | EmptyString => EmptyString
  | String c s' => if isspace c then lstrip s' else s
  end.

Fixpoint rstrip (s : string) : string :=
  match s with
  | EmptyString => EmptyString
  | String c s' =>
      match rstrip s' with
      | EmptyString => if isspace c then EmptyString else String c EmptyString
      | r => String c r
      end
  end.

(** [s.strip()] *)
Definition strip (s : string) : string := rstrip (lstrip s).

Definition is_digit (c : ascii) : bool :=
  let n := N_of_ascii c in ((48 <=? n) && (n <=? 57))%N.

Definition digit_value (c : ascii) : Z := Z.of_N (N_of_ascii c) - 48.

Fixpoint all_digits (s : string) : bool :=
  match s with
  | EmptyString => true
  | String c s' => is_digit c && all_digits s'
  end.

(** [s.isdigit()] *)
Definition isdigit (s : string) : bool :=
  match s with
  | EmptyString => false
  | _ => all_digits s
  end.

(** [c in s] for a one-character [c] *)
Fixpoint contains (c : ascii) (s : string) : bool :=
  match s with
  | EmptyString => false
  | String a s' => bool_decide (a = c) || contains c s'
  end.

(** [s.replace(c, '')] for a one-character [c] *)
Fixpoint remove_char (c : ascii) (s : string) : string :=
  match s with
  | EmptyString => EmptyString
  | String a s' => if decide (a = c) then remove_char c s' else String a (remove_char c s')
  end.

(** [s.split(c)] for a one-character separator [c] *)
Fixpoint split (c : ascii) (s : string) : list string :=
  match s with
  | EmptyString => [EmptyString]
  | String a s' =>
      if decide (a = c) then EmptyString :: split c s'
      else match split c s' with
           | p :: ps => String a p :: ps
           | [] => [String a EmptyString]
           end
  end.

(** [s.split()]: the words between runs of whitespace *)
Fixpoint split_whitespace (s : string) : list string :=
  match s with
  | EmptyString => []
  | String a s' =>
      if isspace a then split_whitespace s'
      else
        match s' with
        | EmptyString => [String a EmptyString]
        | String b _ =>
            if isspace b then String a EmptyString :: split_whitespace s'
            else match split_whitespace s' with
                 | w :: ws => String a w :: ws
                 | [] => [String a EmptyString]
                 end
        end
  end.

(** The digits of a decimal literal, with single underscores between
    digits: the value and the number of digits, [None] when the literal
    is malformed. *)
Fixpoint int_digits (s : string) (after_digit : bool) (acc : Z) (ndigits : nat)
  : option (Z * nat) :=
  match s with
  | EmptyString => if after_digit then Some (acc, ndigits) else None
  | String c s' =>
      if is_digit c then int_digits s' true (10 * acc + digit_value c) (S ndigits)
      else if bool_decide (c = "_"%char) && after_digit
           then int_digits s' false acc ndigits
      else None
  end.

(** The whitespace [int] skips around a literal ([Py_ISSPACE]): tab to
    carriage return and the space, without the separators 0x1c to 0x1f
    that [str.isspace] and [str.strip] take for whitespace. *)
Definition isspace_c (c : ascii) : bool :=
  let n := N_of_ascii c in
  (((9 <=? n) && (n <=? 13)) || (n =? 32))%N.

Fixpoint lstrip_c (s : string) : string :=
  match s with
  | EmptyString => EmptyString
  | String c s' => if isspace_c c then lstrip_c s' else s
  end.

Fixpoint rstrip_c (s : string) : string :=
  match s with
  | EmptyString => EmptyString
  | String c s' =>
      match rstrip_c s' with
      | EmptyString => if isspace_c c then EmptyString else String c EmptyString
      | r => String c r
      end
  end.

(** [int(s)] for an ASCII string: surrounding whitespace, an optional
    sign, decimal digits.  [max_str_digits] is
    [sys.get_int_max_str_digits()]: 0 for no limit, 4300 by default,
    never between 1 and 639. *)
Definition int (max_str_digits : nat) (s : string) : result Z :=
  let s1 := rstrip_c (lstrip_c s) in
  let '(negative, body) :=
    match s1 with
    | String "+" r => (false, r)
    | String "-" r => (true, r)
    | _ => (false, s1)
    end in
  match int_digits body false 0 O with
  | None => Raised (ValueError ("invalid literal for int() with base 10: " +:+ s))
  | Some (v, ndigits) =>
      if (0 <? max_str_digits)%nat && (max_str_digits <? ndigits)%nat
      then Raised (ValueError "Exceeds the limit for integer string conversion")
      else Returned (if negative then - v else v)
  end.

(** What a text stream opened with universal newlines makes of the
    characters read: [\r\n] and [\r] become [\n]. *)
Fixpoint universal_newlines (s : string) : string :=
  match s with
  | EmptyString => EmptyString
  | String "013" s' =>
      match s' with
      | String "010" s'' => String "010" (universal_newlines s'')
      | _ => String "010" (universal_newlines s')
      end
  | String c s' => String c (universal_newlines s')
  end.

End Py.

(** ** The local file tree, as [os.listdir] and [os.walk] see it *)

(** An entry of a directory: something that is not a directory
    ([isfile] is what [os.path.isfile] answers for it), or a
    sub-directory with its own entries (none when it cannot be read or
    is a symbolic link, which [os.walk] does not follow). *)
Inductive entry : Type :=
  | EFile (name : string) (isfile : bool)
  | EDir (name : string) (children : list entry).

Definition entry_name (e : entry) : string :=
  match e with EFile n _ => n | EDir n _ => n end.

Definition entry_isfile (e : entry) : bool :=
  match e with EFile _ b => b | EDir _ _ => false end.

(** [os.listdir(d)] *)
Definition listdir (es : list entry) : list string := entry_name <$> es.

Definition filenames (es : list entry) : list string :=
  omap (λ e, match e with EFile n _ => Some n | EDir _ _ => None end) es.

Definition dirnames (es : list entry) : list string :=
  omap (λ e, match e with EDir n _ => Some n | EFile _ _ => None end) es.

(** [os.walk(top)], top-down: the triples [(root, dirs, files)]. *)
Fixpoint walk_entry (parent : string) (e : entry)
  : list (string * list string * list string) :=
  match e with
  | EFile _ _ => []
  | EDir n es =>
      let root := Py.join parent n in
      (root, dirnames es, filenames es) :: flat_map (walk_entry root) es
  end.

Definition os_walk (top : string) (es : list entry)
  : list (string * list string * list string) :=
  (top, dirnames es, filenames es) :: flat_map (walk_entry top) es.

(** Names inside one directory are pairwise distinct, non-empty and
    contain no separator; this is what a POSIX file system guarantees. *)
Fixpoint no_slash (s : string) : bool :=
  match s with
  | EmptyString => true
  | String a s' => negb (bool_decide (a = "/"%char)) && no_slash s'
  end.

Definition wf_name (n : string) : bool :=
  negb (bool_decide (n = "")) && no_slash n.

Fixpoint wf_entry (e : entry) : bool :=
  wf_name (entry_name e) &&
  match e with
  | EFile _ _ => true
  | EDir _ es => bool_decide (NoDup (listdir es)) && forallb wf_entry es
  end.

Definition wf_tree (es : list entry) : bool :=
  bool_decide (NoDup (listdir es)) && forallb wf_entry es.



(** ** Floating point: CPython's [float] is IEEE binary64 *)

Module Float.

Definition prec : Z := 53.
Definition emax : Z := 1024.

Definition zero : spec_float := S754_zero false.

(** The literal [0.1], that is [0x1.999999999999ap-4]. *)
Definition tenth : spec_float := S754_finite false 7205759403792794 (-56).

(** [float(n)] for an [int]: round to nearest even, [OverflowError] when
    [n] is too large. *)
Definition of_int (n : Z) : result spec_float :=
  match binary_normalize prec emax n 0 false with
  | S754_infinity _ => Raised (OverflowError "int too large to convert to float")
  | x => Returned x
  end.

(** [int(x)]: truncation toward zero. *)
Definition to_int (x : spec_float) : result Z :=
  match x with
  | S754_nan => Raised (ValueError "cannot convert float NaN to integer")
  | S754_infinity _ => Raised (OverflowError "cannot convert float infinity to integer")
  | S754_zero _ => Returned 0
  | S754_finite s m e => Returned (cond_Zopp s (Z.shiftl (Z.pos m) e))
  end.

Definition mul : spec_float → spec_float → spec_float := SFmul prec emax.
Definition div : spec_float → spec_float → spec_float := SFdiv prec emax.
Definition ltb : spec_float → spec_float → bool := SFltb.

End Float.

(** ** The external decoders and the world *)

(** An opened [cv2.VideoCapture]: the properties [cap.get] answers and
    the frame [cap.read()] delivers after [cap.set(CAP_PROP_POS_FRAMES, n)]
    ([None] when [ret] is false). *)
Record capture (frame : Type) : Type := {
  cap_width : spec_float;
  cap_height : spec_float;
  cap_fps : spec_float;
  cap_frame_count : spec_float;
  cap_read_at : Z → option frame
}.
Arguments cap_width {frame} _.
Arguments cap_height {frame} _.
Arguments cap_fps {frame} _.
Arguments cap_frame_count {frame} _.
Arguments cap_read_at {frame} _ _.

(** PIL and OpenCV.  [image_thumbnail] stands for [convert('RGB')],
    [thumbnail(size, LANCZOS)] and [ImageTk.PhotoImage]; [frame_thumbnail]
    for [cvtColor], [Image.fromarray], [thumbnail], [_add_video_indicator]
    and [ImageTk.PhotoImage].  [VideoCapture] answers [None] when
    [isOpened()] is false. *)
Class Codec : Type := {
  content : Type;
  image : Type;
  frame : Type;
  pixels : Type;
  content_size : content → Z;
  Image_open : content → result image;
  image_size : image → Z * Z;
  image_format : image → option string;
  image_thumbnail : image → Z * Z → result pixels;
  VideoCapture : content → option (capture frame);
  frame_thumbnail : frame → Z * Z → result pixels
}.

(** What the program does to its environment besides files. *)
Inductive event : Type :=
  | Seek (filepath : string) (target_frame : Z)
  | OpenedExternally (local_path : string).

Section World.
Context `{Codec}.

(** An [ImageTk.PhotoImage] object: its identity and what it shows. *)
Record PhotoImage : Type := {
  obj_id : nat;
  photo : pixels
}.

(** The local files (path to contents), the paths that may not be
    removed, the number of decoder invocations so far ([Image.open],
    [cv2.VideoCapture]), the next free object identity and the events. *)
Record World : Type := {
  fs : gmap string content;
  readonly : gset string;
  decoder_calls : nat;
  next_obj : nat;
  log : list event
}.

Definition set_fs (f : gmap string content → gmap string content) (w : World) : World :=
  {| fs := f (fs w); readonly := readonly w; decoder_calls := decoder_calls w;
     next_obj := next_obj w; log := log w |}.

Definition count_decoder_call (w : World) : World :=
  {| fs := fs w; readonly := readonly w; decoder_calls := S (decoder_calls w);
     next_obj := next_obj w; log := log w |}.

Definition add_event (e : event) (w : World) : World :=
  {| fs := fs w; readonly := readonly w; decoder_calls := decoder_calls w;
     next_obj := next_obj w; log := log w ++ [e] |}.

(** Allocation of a new [PhotoImage]. *)
Definition new_PhotoImage (px : pixels) (w : World) : PhotoImage * World :=
  ({| obj_id := next_obj w; photo := px |},
   {| fs := fs w; readonly := readonly w; decoder_calls := decoder_calls w;
      next_obj := S (next_obj w); log := log w |}).

(** [os.path.exists(path)], for the paths of files. *)
Definition os_path_exists (w : World) (path : string) : bool :=
  bool_decide (is_Some (fs w !! path)).

(** [os.path.getsize(path)] *)
Definition os_path_getsize (w : World) (path : string) : result Z :=
  match fs w !! path with
  | Some c => Returned (content_size c)
  | None => Raised (FileNotFoundError path)
  end.

(** [os.remove(path)] *)
Definition os_remove (w : World) (path : string) : result unit * World :=
  match fs w !! path with
  | None => (Raised (FileNotFoundError path), w)
  | Some _ =>
      if bool_decide (path ∈ readonly w) then (Raised (PermissionError path), w)
      else (Returned (), set_fs (delete path) w)
  end.

End World.

(** Values stored in the [info] dictionary. *)
Inductive pyval : Type :=
  | VStr (s : string)
  | VInt (n : Z)
  | VFloat (x : spec_float)
  | VBool (b : bool)
  | VNone.

(** [l.remove(x)]: the list without the first occurrence of [x];
    [None] stands for the [ValueError] when there is none. *)
Fixpoint list_remove (x : string) (l : list string) : option (list string) :=
  match l with
  | [] => None
  | y :: l' => if decide (x = y) then Some l' else (y ::.) <$> list_remove x l'
  end.

(** ** [media_handler.py]: formats and the enumerator *)

Module MediaHandler.

Definition SUPPORTED_IMAGE_FORMATS : gset string :=
  {[ ".jpg"; ".jpeg"; ".png"; ".gif"; ".bmp"; ".tiff"; ".webp" ]}.

Definition SUPPORTED_VIDEO_FORMATS : gset string :=
  {[ ".mp4"; ".avi"; ".mov"; ".mkv"; ".wmv"; ".flv"; ".webm" ]}.

Definition is_supported_file (filepath : string) : bool :=
  let ext := Py.lower (Py.splitext filepath).2 in
  bool_decide (ext ∈ SUPPORTED_IMAGE_FORMATS) ||
  bool_decide (ext ∈ SUPPORTED_VIDEO_FORMATS).

Definition is_video_file (filepath : string) : bool :=
  let ext := Py.lower (Py.splitext filepath).2 in
  bool_decide (ext ∈ SUPPORTED_VIDEO_FORMATS).

Definition is_image_file (filepath : string) : bool :=
  let ext := Py.lower (Py.splitext filepath).2 in
  bool_decide (ext ∈ SUPPORTED_IMAGE_FORMATS).

(** The paths collected before sorting.  [tree] is what the file system
    holds at [directory]: [None] when it does not exist or cannot be
    listed ([os.walk] then yields nothing, [os.listdir] raises an
    [OSError], which is caught). *)
Definition collect_files (directory : string) (tree : option (list entry))
    (recursive : bool) : list string :=
  if recursive then
    flat_map (λ '(root, _, fnames),
                filter (λ fp, is_supported_file fp = true) (Py.join root <$> fnames))
             (from_option (os_walk directory) [] tree)
  else
    match tree with
    | Some es =>
        flat_map (λ e, let filepath := Py.join directory (entry_name e) in
                       if entry_isfile e && is_supported_file filepath
                       then [filepath] else [])
                 es
    | None => []
    end.

Definition get_files_in_directory (directory : string)
    (tree : option (list entry)) (recursive : bool) : list string :=
  Py.sorted (collect_files directory tree recursive).


(** *** The handler object *)

Section Handler.
Context `{Codec}.

Record t : Type := {
  thumbnail_size : Z * Z;
  cache : gmap string PhotoImage
}.

(** [MediaHandler()] *)
Definition init : t := {| thumbnail_size := (300, 200); cache := ∅ |}.

Definition set_cache (c : gmap string PhotoImage) (self : t) : t :=
  {| thumbnail_size := thumbnail_size self; cache := c |}.

(** The fields the video branch of [get_media_info] adds, in order; the
    second component is the exception that interrupted it, if any. *)
Definition video_info (cap : capture frame) (info : gmap string pyval)
  : gmap string pyval * option exn :=
  match Float.to_int (cap_width cap) with
  | Raised e => (info, Some e)
  | Returned width =>
  let info := <["width" := VInt width]> info in
  match Float.to_int (cap_height cap) with
  | Raised e => (info, Some e)
  | Returned height =>
  let info := <["height" := VInt height]> info in
  let info := <["fps" := VFloat (cap_fps cap)]> info in
  match Float.to_int (cap_frame_count cap) with
  | Raised e => (info, Some e)
  | Returned frame_count =>
  let info := <["frame_count" := VInt frame_count]> info in
  if Float.ltb Float.zero (cap_fps cap) then
    match Float.of_int frame_count with
    | Raised e => (info, Some e)
    | Returned x =>
        (<["duration" := VFloat (Float.div x (cap_fps cap))]> info, None)
    end
  else (<["duration" := VInt 0]> info, None)
  end end end.

(** The body of the [try] of [get_media_info]. *)
Definition get_media_info_try (filepath : string) (info : gmap string pyval)
    (w : World) : gmap string pyval * option exn :=
  if is_video_file filepath then
    match fs w !! filepath ≫= VideoCapture with
    | Some cap => video_info cap info
    | None => (info, None)
    end
  else
    match fs w !! filepath with
    | None => (info, Some (FileNotFoundError filepath))
    | Some c =>
        match Image_open c with
        | Raised e => (info, Some e)
        | Returned img =>
            let info := <["width" := VInt (image_size img).1]> info in
            let info := <["height" := VInt (image_size img).2]> info in
            (<["format" := from_option VStr VNone (image_format img)]> info, None)
        end
    end.

Definition get_media_info (self : t) (filepath : string) (w : World)
  : result (gmap string pyval) * World :=
  if negb (os_path_exists w filepath) then
    (Returned {[ "error" := VStr "File not found" ]}, w)
  else
    match os_path_getsize w filepath with
    | Raised e => (Raised e, w)
    | Returned size =>
        let info : gmap string pyval :=
          <["supported" := VBool (is_supported_file filepath)]>
          (<["type" := VStr (if is_video_file filepath then "video" else "image")]>
          (<["size" := VInt size]>
          (<["filename" := VStr (Py.basename filepath)]>
          {[ "filepath" := VStr filepath ]}))) in
        match get_media_info_try filepath info w with
        | (info, None) => (Returned info, count_decoder_call w)
        | (info, Some e) =>
            (Returned (<["error" := VStr (str_of_exn e)]> info), count_decoder_call w)
        end
    end.

(** [max(1, int(frame_count * 0.1))] *)
Definition target_frame (frame_count : Z) : result Z :=
  match Float.of_int frame_count with
  | Raised e => Raised e
  | Returned x =>
      match Float.to_int (Float.mul x Float.tenth) with
      | Raised e => Raised e
      | Returned n => Returned (Z.max 1 n)
      end
  end.

Definition _create_video_thumbnail (self : t) (filepath : string) (w : World)
  : result (option PhotoImage) * World :=
  let w := count_decoder_call w in
  match fs w !! filepath ≫= VideoCapture with
  | None => (Returned None, w)
  | Some cap =>
      match Float.to_int (cap_frame_count cap) with
      | Raised e => (Raised e, w)
      | Returned frame_count =>
          match target_frame frame_count with
          | Raised e => (Raised e, w)
          | Returned target =>
              let w := add_event (Seek filepath target) w in
              match cap_read_at cap target with
              | None => (Returned None, w)
              | Some frame =>
                  match frame_thumbnail frame (thumbnail_size self) with
                  | Raised e => (Raised e, w)
                  | Returned px =>
                      let '(img, w) := new_PhotoImage px w in
                      (Returned (Some img), w)
                  end
              end
          end
      end
  end.

Definition _create_image_thumbnail (self : t) (filepath : string) (w : World)
  : result (option PhotoImage) * World :=
  let w := count_decoder_call w in
  match fs w !! filepath with
  | None => (Raised (FileNotFoundError filepath), w)
  | Some c =>
      match Image_open c with
      | Raised e => (Raised e, w)
      | Returned img =>
          match image_thumbnail img (thumbnail_size self) with
          | Raised e => (Raised e, w)
          | Returned px =>
              let '(img, w) := new_PhotoImage px w in
              (Returned (Some img), w)
          end
      end
  end.

(** [create_thumbnail].  A [PhotoImage] is always true in [if thumbnail:],
    so only [None] skips the store; the [except] clause prints and falls
    through to [return None]. *)
Definition create_thumbnail (self : t) (filepath : string) (w : World)
  : option PhotoImage * t * World :=
  match cache self !! filepath with
  | Some thumbnail => (Some thumbnail, self, w)
  | None =>
      let '(r, w) :=
        if is_video_file filepath then _create_video_thumbnail self filepath w
        else _create_image_thumbnail self filepath w in
      match r with
      | Returned (Some thumbnail) =>
          (Some thumbnail, set_cache (<[filepath := thumbnail]> (cache self)) self, w)
      | Returned None => (None, self, w)
      | Raised e => (None, self, w)
      end
  end.


(** The coordinates [_add_video_indicator] draws on an image of size
    [(w, h)]: the bounding box of the circle, then the corners of the
    triangle. *)
Definition _add_video_indicator (size : Z * Z) : (Z * Z * Z * Z) * list (Z * Z) :=
  let '(w, h) := size in
  let button_size := Z.min w h / 4 in
  let x := (w - button_size) / 2 in
  let y := (h - button_size) / 2 in
  let circle_coords := (x - 5, y - 5, x + button_size + 5, y + button_size + 5) in
  let triangle_coords :=
    [ (x + button_size / 4, y + button_size / 4);
      (x + 3 * button_size / 4, y + button_size / 2);
      (x + button_size / 4, y + 3 * button_size / 4) ] in
  (circle_coords, triangle_coords).

(** What the [worker] of [preload_thumbnails] does with one entry of
    the list before it reports. *)
Definition worker_entry (self : t) (filepath : string) (w : World) : t * World :=
  match cache self !! filepath with
  | None => let '(_, self, w) := create_thumbnail self filepath w in (self, w)
  | Some _ => (self, w)
  end.

(** The [worker] of [preload_thumbnails] from entry [i] of the list on,
    run without another thread using the handler meanwhile.  [stop i]
    is what [self.stop_loading.is_set()] answers at entry [i]; the third
    component lists the calls of [callback], a callback that returns. *)
Fixpoint worker (self : t) (i total : nat) (filepaths : list string)
    (stop : nat → bool) (w : World) : t * World * list (nat * nat * string) :=
  match filepaths with
  | [] => (self, w, [])
  | filepath :: filepaths =>
      if stop i then (self, w, [])
      else
        let '(self, w) := worker_entry self filepath w in
        let '(self, w, calls) := worker self (S i) total filepaths stop w in
        (self, w, (S i, total, filepath) :: calls)
  end.

(** [preload_thumbnails], once the thread has ended. *)
Definition preload_thumbnails (self : t) (filepaths : list string)
    (stop : nat → bool) (w : World) : t * World * list (nat * nat * string) :=
  worker self 0 (length filepaths) filepaths stop w.

End Handler.

End MediaHandler.

(** ** [remote.py]: the remote bridge *)

Module RemoteMediaHandler.

Section Remote.
Context `{Codec}.

Record t : Type := {
  base : MediaHandler.t;
  ssh_host : string;
  ssh_user : string;
  ssh_port : Z;
  ssh_key : option string;
  temp_dir : string
}.

Definition set_base (b : MediaHandler.t) (self : t) : t :=
  {| base := b; ssh_host := ssh_host self; ssh_user := ssh_user self;
     ssh_port := ssh_port self; ssh_key := ssh_key self; temp_dir := temp_dir self |}.

(** What one run of [scp] does: exit status 0 with the file written, or
    a failure (non-zero exit status, timeout, any exception) that may
    leave a partial file behind at the local path. *)
Inductive scp_outcome : Type :=
  | ScpOk (c : content)
  | ScpFailed (left_behind : option content).

Definition _download_file (self : t) (remote_path local_path : string)
    (outcome : scp_outcome) (w : World) : bool * World :=
  match outcome with
  | ScpOk c => (true, set_fs (<[local_path := c]>) w)
  | ScpFailed None => (false, w)
  | ScpFailed (Some c) => (false, set_fs (<[local_path := c]>) w)
  end.

(** Where a remote file is materialised. *)
Definition local_path_of (self : t) (filepath : string) : string :=
  Py.join (temp_dir self) (Py.basename filepath).

(** The [finally] clause of both wrapped operations. *)
Definition remove_temp_file (local_path : string) (w : World) : result unit * World :=
  if os_path_exists w local_path then os_remove w local_path
  else (Returned (), w).

Definition create_thumbnail (self : t) (filepath : string)
    (outcome : scp_outcome) (w : World)
  : result (option PhotoImage) * t * World :=
  let local_path := local_path_of self filepath in
  let '(ok, w) := _download_file self filepath local_path outcome w in
  if negb ok then (Returned None, self, w)
  else
    let '(thumbnail, base', w) :=
      MediaHandler.create_thumbnail (base self) local_path w in
    match remove_temp_file local_path w with
    | (Raised e, w) => (Raised e, set_base base' self, w)
    | (Returned _, w) => (Returned thumbnail, set_base base' self, w)
    end.

Definition get_media_info (self : t) (filepath : string)
    (outcome : scp_outcome) (w : World)
  : result (gmap string pyval) * World :=
  let local_path := local_path_of self filepath in
  let '(ok, w) := _download_file self filepath local_path outcome w in
  if negb ok then (Returned {[ "error" := VStr "Could not download file" ]}, w)
  else
    let '(info, w) := MediaHandler.get_media_info (base self) local_path w in
    match remove_temp_file local_path w with
    | (Raised e, w) => (Raised e, w)
    | (Returned _, w) => (info, w)
    end.

(** The files of the scratch area: those below [temp_dir]. *)
Definition in_scratch (self : t) (path : string) : bool :=
  String.prefix (Py.join (temp_dir self) "") path.

Definition scratch (self : t) (w : World) : gmap string content :=
  filter (λ kv, in_scratch self kv.1 = true) (fs w).

(** [cleanup()]: [shutil.rmtree(temp_dir)] *)
Definition cleanup (self : t) (w : World) : World :=
  set_fs (filter (λ kv, in_scratch self kv.1 = false)) w.

(** How [subprocess.run] ends: the process exits with a return code,
    having written [stdout] and [stderr] (ASCII text), or the timeout
    expires, or another exception is raised: the program cannot be
    started, or the stack is too short and a [RecursionError] is raised
    before or after the process is started. *)
Inductive run_outcome : Type :=
  | Completed (returncode : Z) (stdout stderr : string)
  | TimeoutExpired
  | RunError.

(** The argument list [_run_ssh_command] builds. *)
Definition ssh_cmd (self : t) (command : string) : list string :=
  ["ssh"; "-o"; "StrictHostKeyChecking=no"; "-o"; "UserKnownHostsFile=/dev/null";
   "-p"; pretty (ssh_port self)] ++
  match ssh_key self with
  | Some key => if bool_decide (key = EmptyString) then [] else ["-i"; key]
  | None => []
  end ++
  [ssh_user self +:+ "@" +:+ ssh_host self; command].

(** [_run_ssh_command].  [run] is [subprocess.run] with [text=True]:
    [result.stdout] is what the process wrote, read with universal
    newlines.  Every exception is caught. *)
Definition _run_ssh_command (self : t) (command : string)
    (run : list string → run_outcome) : option string :=
  match run (ssh_cmd self command) with
  | Completed returncode stdout _ =>
      if bool_decide (returncode = 0) then Some (Py.universal_newlines stdout)
      else None
  | TimeoutExpired | RunError => None
  end.

(** The command line [get_files_in_directory] builds. *)
Definition find_cmd (directory : string) (recursive : bool) : string :=
  let find_cmd := "find '" +:+ directory +:+ "' -type f \( " in
  let find_cmd := find_cmd +:+
    " -iname '*.jpg' -o -iname '*.jpeg' -o -iname '*.png' -o -iname '*.gif' " in
  let find_cmd := find_cmd +:+
    " -o -iname '*.bmp' -o -iname '*.tiff' -o -iname '*.webp' " in
  let find_cmd := find_cmd +:+
    " -o -iname '*.mp4' -o -iname '*.avi' -o -iname '*.mov' " in
  let find_cmd := find_cmd +:+
    " -o -iname '*.mkv' -o -iname '*.wmv' -o -iname '*.flv' -o -iname '*.webm' " in
  let find_cmd := find_cmd +:+ " \)" in
  let find_cmd := if negb recursive then find_cmd +:+ " -maxdepth 1" else find_cmd in
  find_cmd +:+ " | sort".

(** [get_files_in_directory].  [_run_ssh_command] answers the standard
    output of the command, [None] when it failed, timed out or raised. *)
Definition get_files_in_directory (self : t) (directory : string) (recursive : bool)
    (_run_ssh_command : string → option string) : list string :=
  match _run_ssh_command (find_cmd directory recursive) with
  | None | Some EmptyString => []
  | Some result =>
      Py.strip <$> filter (λ line, Py.strip line ≠ EmptyString)
                          (Py.split "010" result)
  end.

End Remote.

End RemoteMediaHandler.

Module RemoteMediaViewer.

Section RemoteViewer.
Context `{Codec}.

Record t : Type := {
  remote_handler : RemoteMediaHandler.t;
  status_var : string
}.

Definition set_status (s : string) (self : t) : t :=
  {| remote_handler := remote_handler self; status_var := s |}.

(** [_open_file_externally]: download, then hand the local copy to the
    system's opener ([open], [os.startfile] or [xdg-open]). *)
Definition _open_file_externally (self : t) (filepath : string)
    (outcome : RemoteMediaHandler.scp_outcome) (w : World) : t * World :=
  let filename := Py.basename filepath in
  let local_path := RemoteMediaHandler.local_path_of (remote_handler self) filepath in
  let self := set_status ("Downloading " +:+ filename +:+ "...") self in
  let '(ok, w) :=
    RemoteMediaHandler._download_file (remote_handler self) filepath local_path outcome w in
  if ok then
    (set_status ("Opened " +:+ filename) self, add_event (OpenedExternally local_path) w)
  else (set_status "Download failed" self, w).

(** [close()], as far as the scratch area goes. *)
Definition close (self : t) (w : World) : World :=
  RemoteMediaHandler.cleanup (remote_handler self) w.

End RemoteViewer.

End RemoteMediaViewer.

(** ** [cli_viewer.py]: the headless viewer *)

Module CLIMediaViewer.

Section CLI.
Context `{Codec}.

Record t : Type := {
  media_handler : MediaHandler.t;
  media_files : list string;
  selected_files : gset string;
  current_directory : string
}.

(** [CLIMediaViewer()] *)
Definition init : t :=
  {| media_handler := MediaHandler.init; media_files := [];
     selected_files := ∅; current_directory := "" |}.

Definition set_media_files (l : list string) (self : t) : t :=
  {| media_handler := media_handler self; media_files := l;
     selected_files := selected_files self;
     current_directory := current_directory self |}.

Definition set_selected_files (s : gset string) (self : t) : t :=
  {| media_handler := media_handler self; media_files := media_files self;
     selected_files := s; current_directory := current_directory self |}.

Definition set_current_directory (d : string) (self : t) : t :=
  {| media_handler := media_handler self; media_files := media_files self;
     selected_files := selected_files self; current_directory := d |}.

(** [load_directory].  [listing] is what the file system holds at
    [directory] when the call is made, [None] when
    [os.path.exists(directory)] is false. *)
Definition load_directory (self : t) (directory : string) (recursive : bool)
    (listing : option (list entry)) : bool * t * list string :=
  match listing with
  | None => (false, self, ["Error: Directory not found: " +:+ directory])
  | Some _ =>
      let self := set_current_directory directory self in
      let out := ["Loading files from: " +:+ directory] in
      let self :=
        set_media_files
          (MediaHandler.get_files_in_directory directory listing recursive) self in
      match media_files self with
      | [] => (false, self, out ++ ["No supported media files found."])
      | _ =>
          (true, self,
           out ++ ["Found " +:+ pretty (length (media_files self)) +:+ " media files."])
      end
  end.

(** [1 <= num <= len(self.media_files)], then [self.media_files[num - 1]] *)
Definition file_number (self : t) (num : Z) : option string :=
  if (1 <=? num) && (num <=? Z.of_nat (length (media_files self)))
  then media_files self !! Z.to_nat (num - 1)
  else None.

Definition select_files (self : t) (numbers : list Z) : t * list string :=
  let '(self, selected_count, out) :=
    foldl (λ '(self, selected_count, out) num,
             match file_number self num with
             | Some filepath =>
                 (set_selected_files ({[filepath]} ∪ selected_files self) self,
                  S selected_count, out)
             | None => (self, selected_count, out ++ ["Invalid file number: " +:+ pretty num])
             end)
          (self, O, []) numbers in
  (self,
   if (0 <? selected_count)%nat
   then out ++ ["Selected " +:+ pretty selected_count +:+ " files."] else out).

Definition deselect_files (self : t) (numbers : list Z) : t * list string :=
  let '(self, deselected_count, out) :=
    foldl (λ '(self, deselected_count, out) num,
             match file_number self num with
             | Some filepath =>
                 if bool_decide (filepath ∈ selected_files self)
                 then (set_selected_files (selected_files self ∖ {[filepath]}) self,
                       S deselected_count, out)
                 else (self, deselected_count, out)
             | None => (self, deselected_count, out ++ ["Invalid file number: " +:+ pretty num])
             end)
          (self, O, []) numbers in
  (self,
   if (0 <? deselected_count)%nat
   then out ++ ["Deselected " +:+ pretty deselected_count +:+ " files."] else out).

Definition keep_selected (self : t) : t * list string :=
  if bool_decide (selected_files self = ∅) then (self, ["No files selected."])
  else
    let original_count := length (media_files self) in
    let self :=
      set_media_files
        (filter (λ f, f ∈ selected_files self) (media_files self)) self in
    let self := set_selected_files ∅ self in
    let kept_count := length (media_files self) in
    let hidden_count := (original_count - kept_count)%nat in
    (self, ["Kept " +:+ pretty kept_count +:+ " files, hidden " +:+
            pretty hidden_count +:+ " files."]).

(** One turn of the loop of [delete_selected]; [deleted_count] is
    incremented as soon as [os.remove] has returned, and whatever is
    raised after that leaves the earlier updates in place. *)
Definition delete_one (filepath : string) (st : t * World * nat * list string)
  : t * World * nat * list string :=
  let '(self, w, deleted_count, out) := st in
  match os_remove w filepath with
  | (Raised e, w) =>
      (self, w, deleted_count,
       out ++ ["Error deleting " +:+ Py.basename filepath +:+ ": " +:+ str_of_exn e])
  | (Returned _, w) =>
      let deleted_count := S deleted_count in
      match list_remove filepath (media_files self) with
      | None =>
          (self, w, deleted_count,
           out ++ ["Error deleting " +:+ Py.basename filepath +:+ ": " +:+
                   "list.remove(x): x not in list"])
      | Some l =>
          let self := set_media_files l self in
          if bool_decide (filepath ∈ selected_files self) then
            (set_selected_files (selected_files self ∖ {[filepath]}) self, w,
             deleted_count, out ++ ["Deleted: " +:+ Py.basename filepath])
          else
            (self, w, deleted_count,
             out ++ ["Error deleting " +:+ Py.basename filepath +:+ ": " +:+ filepath])
      end
  end.

(** [delete_selected].  [response] is [input(...).strip().lower()];
    [order] is the order in which [list(self.selected_files)] enumerates
    the set. *)
Definition delete_selected (self : t) (response : string) (order : list string)
    (w : World) : t * World * list string :=
  if bool_decide (selected_files self = ∅) then (self, w, ["No files selected."])
  else
    let count := size (selected_files self) in
    let out :=
      ("You are about to DELETE " +:+ pretty count +:+ " files:") ::
      ((λ filepath, "  - " +:+ Py.basename filepath) <$> order) in
    if negb (bool_decide (response ∈ ["yes"; "y"])) then
      (self, w, out ++ ["Delete cancelled."])
    else
      let '(self, w, deleted_count, out) :=
        foldl (λ st filepath, delete_one filepath st) (self, w, O, out) order in
      (self, w,
       out ++ ["Successfully deleted " +:+ pretty deleted_count +:+ " of " +:+
               pretty count +:+ " files."]).

(** The commands of [run_interactive], after [parse_numbers]. *)
Inductive command : Type :=
  | CmdHelp
  | CmdList
  | CmdSelect (numbers : list Z)
  | CmdDeselect (numbers : list Z)
  | CmdAll
  | CmdClear
  | CmdKeep
  | CmdRemove (response : string) (order : list string)
  | CmdInfo (number : Z)
  | CmdOpen (number : Z)
  | CmdUnknown.

(** [display_files] and [show_file_info] only read the viewer; they call
    [get_media_info] on the files they show. *)
Definition display_files (self : t) (w : World) : World :=
  foldl (λ w filepath, (MediaHandler.get_media_info (media_handler self) filepath w).2)
        w (media_files self).

Definition show_file_info (self : t) (number : Z) (w : World) : World :=
  match file_number self number with
  | Some filepath => (MediaHandler.get_media_info (media_handler self) filepath w).2
  | None => w
  end.

Definition open_file (self : t) (number : Z) (w : World) : World :=
  match file_number self number with
  | Some filepath => add_event (OpenedExternally filepath) w
  | None => w
  end.

(** One turn of the command loop. *)
Definition run_command (c : command) (self : t) (w : World) : t * World :=
  match c with
  | CmdHelp | CmdUnknown => (self, w)
  | CmdList => (self, display_files self w)
  | CmdSelect numbers => ((select_files self numbers).1, w)
  | CmdDeselect numbers => ((deselect_files self numbers).1, w)
  | CmdAll => (set_selected_files (list_to_set (media_files self)) self, w)
  | CmdClear => (set_selected_files ∅ self, w)
  | CmdKeep => ((keep_selected self).1, w)
  | CmdRemove response order =>
      let '(self, w, _) := delete_selected self response order w in (self, w)
  | CmdInfo number => (self, show_file_info self number w)
  | CmdOpen number => (self, open_file self number w)
  end.

(** *** Parsing the arguments and the command loop *)

(** What the interpreter can hold: [sys.maxsize], and whether the
    memory is there when the list of numbers is extended by the range
    of the argument at a given position.  The few words a single number
    or a printed line takes are always there. *)
Record memory : Type := {
  maxsize : positive;
  fits : nat → bool
}.

(** [start, end = map(int, arg.split('-'))].  Every failure is a
    [ValueError]: from [int], or from the unpacking when the argument
    has not exactly two parts; the [except] clause does not look at
    which one it is. *)
Definition parse_range (max_str_digits : nat) (arg : string) : result (Z * Z) :=
  match Py.split "-" arg with
  | [a; b] =>
      match Py.int max_str_digits a with
      | Raised e => Raised e
      | Returned start =>
          match Py.int max_str_digits b with
          | Raised e => Raised e
          | Returned end_ => Returned (start, end_)
          end
      end
  | _ => Raised (ValueError "wrong number of values to unpack")
  end.

(** [numbers.extend(range(start, end + 1))] for the argument at position
    [i]: the length of the range must be at most [sys.maxsize]
    ([OverflowError] otherwise) and the list must find the room it
    needs ([MemoryError] otherwise); an empty range needs none. *)
Definition extend_range (mem : memory) (i : nat) (numbers : list Z)
    (start end_ : Z) : result (list Z) :=
  let n := Z.max 0 (end_ + 1 - start) in
  if Z.pos (maxsize mem) <? n
  then Raised (OverflowError "Python int too large to convert to C ssize_t")
  else if (0 <? n) && negb (fits mem i) then Raised MemoryError
  else Returned (numbers ++ seqZ start (end_ + 1 - start)).

(** One turn of the loop of [parse_numbers], for the argument at
    position [i], on the numbers and the lines printed so far.  The
    [except ValueError] of the first branch does not catch what
    [extend] raises, and the [int] of the second branch is outside any
    [try]. *)
Definition parse_step (max_str_digits : nat) (mem : memory)
    (acc : result (list Z * list string)) (iarg : nat * string)
  : result (list Z * list string) :=
  let '(i, arg) := iarg in
  match acc with
  | Raised e => Raised e
  | Returned (numbers, out) =>
      if Py.contains "-" arg && Py.isdigit (Py.remove_char "-" arg) then
        match parse_range max_str_digits arg with
        | Returned (start, end_) =>
            match extend_range mem i numbers start end_ with
            | Returned numbers => Returned (numbers, out)
            | Raised e => Raised e
            end
        | Raised _ => Returned (numbers, out ++ ["Invalid range: " +:+ arg])
        end
      else if Py.isdigit arg then
        match Py.int max_str_digits arg with
        | Returned n => Returned (numbers ++ [n], out)
        | Raised e => Raised e
        end
      else Returned (numbers, out ++ ["Invalid number: " +:+ arg])
  end.

(** [parse_numbers]: the numbers and the lines printed. *)
Definition parse_numbers (max_str_digits : nat) (mem : memory) (args : list string)
  : result (list Z * list string) :=
  foldl (parse_step max_str_digits mem) (Returned ([], []))
        (imap (λ i arg, (i, arg)) args).

(** What one line typed at the prompt asks for. *)
Inductive request : Type :=
  | ReqNothing
  | ReqQuit
  | ReqHelp
  | ReqList
  | ReqSelect (args : list string)
  | ReqDeselect (args : list string)
  | ReqAll
  | ReqClear
  | ReqKeep
  | ReqRemove
  | ReqInfo (arg : string)
  | ReqOpen (arg : string)
  | ReqUsage
  | ReqUnknown (cmd : string).

(** The dispatch of [run_interactive], from [command = input("> ").strip()]
    to the branch taken. *)
Definition decode (line : string) : request :=
  let command := Py.strip line in
  match Py.split_whitespace command with
  | [] => ReqNothing
  | part :: args =>
      let cmd := Py.lower part in
      if bool_decide (cmd ∈ ["q"; "quit"; "exit"]) then ReqQuit
      else if bool_decide (cmd ∈ ["h"; "help"]) then ReqHelp
      else if bool_decide (cmd ∈ ["l"; "list"]) then ReqList
      else if bool_decide (cmd = "s") then
        match args with [] => ReqUsage | _ => ReqSelect args end
      else if bool_decide (cmd = "d") then
        match args with [] => ReqUsage | _ => ReqDeselect args end
      else if bool_decide (cmd ∈ ["a"; "all"]) then ReqAll
      else if bool_decide (cmd ∈ ["c"; "clear"]) then ReqClear
      else if bool_decide (cmd ∈ ["k"; "keep"]) then ReqKeep
      else if bool_decide (cmd ∈ ["r"; "remove"]) then ReqRemove
      else if bool_decide (cmd = "i") then
        match args with
        | arg :: _ => if Py.isdigit arg then ReqInfo arg else ReqUsage
        | [] => ReqUsage
        end
      else if bool_decide (cmd = "o") then
        match args with
        | arg :: _ => if Py.isdigit arg then ReqOpen arg else ReqUsage
        | [] => ReqUsage
        end
      else ReqUnknown cmd
  end.

(** Whether printing the entry of one file in [display_files] raises:
    [info.get('size', 0) / (1024 * 1024)] overflows, or [int(duration)]
    is applied to an infinity or a NaN. *)
Definition display_raises (info : gmap string pyval) : bool :=
  match info !! "size" with
  | Some (VInt size) =>
      match binary_normalize Float.prec Float.emax size (-20) false with
      | S754_infinity _ => true
      | _ => false
      end
  | _ => false
  end ||
  match info !! "type", info !! "duration" with
  | Some (VStr "video"), Some (VFloat duration) =>
      match Float.to_int duration with Raised _ => true | Returned _ => false end
  | _, _ => false
  end.

(** [display_files], as far as the world goes: the files are inspected
    one after the other until the printing of one of them raises. *)
Fixpoint display_files_from (self : t) (files : list string) (w : World)
  : result unit * World :=
  match files with
  | [] => (Returned (), w)
  | filepath :: files =>
      match MediaHandler.get_media_info (media_handler self) filepath w with
      | (Raised e, w) => (Raised e, w)
      | (Returned info, w) =>
          if display_raises info
          then (Raised (OverflowError "cannot convert float to integer"), w)
          else display_files_from self files w
      end
  end.

(** One turn of the loop of [run_interactive] on the line read: [None]
    for [break], otherwise the viewer and the world when the turn ends,
    normally or in the [except Exception] clause, and the lines not yet
    read.  [enumerate] is the order in which a set is iterated. *)
Definition turn (max_str_digits : nat) (mem : memory)
    (enumerate : gset string → list string)
    (line : string) (stdin : list string) (self : t) (w : World)
  : option (t * World * list string) :=
  match decode line with
  | ReqQuit => None
  | ReqNothing | ReqHelp | ReqUsage | ReqUnknown _ => Some (self, w, stdin)
  | ReqList => Some (self, (display_files_from self (media_files self) w).2, stdin)
  | ReqSelect args =>
      match parse_numbers max_str_digits mem args with
      | Returned (numbers, _) => Some ((select_files self numbers).1, w, stdin)
      | Raised _ => Some (self, w, stdin)
      end
  | ReqDeselect args =>
      match parse_numbers max_str_digits mem args with
      | Returned (numbers, _) => Some ((deselect_files self numbers).1, w, stdin)
      | Raised _ => Some (self, w, stdin)
      end
  | ReqAll => Some (set_selected_files (list_to_set (media_files self)) self, w, stdin)
  | ReqClear => Some (set_selected_files ∅ self, w, stdin)
  | ReqKeep => Some ((keep_selected self).1, w, stdin)
  | ReqRemove =>
      if bool_decide (selected_files self = ∅) then Some (self, w, stdin)
      else
        match stdin with
        | [] => Some (self, w, [])
        | answer :: stdin =>
            let response := Py.lower (Py.strip answer) in
            let '(self, w, _) :=
              delete_selected self response (enumerate (selected_files self)) w in
            Some (self, w, stdin)
        end
  | ReqInfo arg =>
      match Py.int max_str_digits arg with
      | Returned number => Some (self, show_file_info self number w, stdin)
      | Raised _ => Some (self, w, stdin)
      end
  | ReqOpen arg =>
      match Py.int max_str_digits arg with
      | Returned number => Some (self, open_file self number w, stdin)
      | Raised _ => Some (self, w, stdin)
      end
  end.

(** [run_interactive].  [input] raises [EOFError] when no line is left,
    which the [except Exception] clause catches like any other
    exception, and the loop goes on.  A [KeyboardInterrupt] is not a
    line of the input and is left out, and [print] is taken to succeed.
    [fuel] bounds the number of turns: [None] when it does not suffice. *)
Fixpoint run_interactive (fuel : nat) (max_str_digits : nat) (mem : memory)
    (enumerate : gset string → list string)
    (stdin : list string) (self : t) (w : World) : option (t * World * list string) :=
  match fuel with
  | O => None
  | S fuel =>
      match stdin with
      | [] => run_interactive fuel max_str_digits mem enumerate [] self w
      | line :: stdin =>
          match turn max_str_digits mem enumerate line stdin self w with
          | None => Some (self, w, stdin)
          | Some (self, w, stdin) =>
              run_interactive fuel max_str_digits mem enumerate stdin self w
          end
      end
  end.

End CLI.

End CLIMediaViewer.

(** ** [viewer.py]: the window *)

Module MediaBridgeViewer.

Section GUI.
Context `{Codec}.

(** [grid] lists the file of each item of the thumbnail grid (the
    children of [grid_frame]); a check box exists for each of them. *)
Record t : Type := {
  media_handler : MediaHandler.t;
  current_directory : string;
  media_files : list string;
  selected_files : gset string;
  grid_columns : Z;
  recursive_var : bool;
  status_var : string;
  grid : list string
}.

Definition init : t :=
  {| media_handler := MediaHandler.init; current_directory := "";
     media_files := []; selected_files := ∅; grid_columns := 4;
     recursive_var := false; status_var := "Ready"; grid := [] |}.

Definition set_media_files (l : list string) (self : t) : t :=
  {| media_handler := media_handler self; current_directory := current_directory self;
     media_files := l; selected_files := selected_files self;
     grid_columns := grid_columns self; recursive_var := recursive_var self;
     status_var := status_var self; grid := grid self |}.

Definition set_selected_files (s : gset string) (self : t) : t :=
  {| media_handler := media_handler self; current_directory := current_directory self;
     media_files := media_files self; selected_files := s;
     grid_columns := grid_columns self; recursive_var := recursive_var self;
     status_var := status_var self; grid := grid self |}.

Definition set_current_directory (d : string) (self : t) : t :=
  {| media_handler := media_handler self; current_directory := d;
     media_files := media_files self; selected_files := selected_files self;
     grid_columns := grid_columns self; recursive_var := recursive_var self;
     status_var := status_var self; grid := grid self |}.

Definition set_status (s : string) (self : t) : t :=
  {| media_handler := media_handler self; current_directory := current_directory self;
     media_files := media_files self; selected_files := selected_files self;
     grid_columns := grid_columns self; recursive_var := recursive_var self;
     status_var := s; grid := grid self |}.

Definition set_grid (g : list string) (self : t) : t :=
  {| media_handler := media_handler self; current_directory := current_directory self;
     media_files := media_files self; selected_files := selected_files self;
     grid_columns := grid_columns self; recursive_var := recursive_var self;
     status_var := status_var self; grid := g |}.

Definition _clear_grid (self : t) : t := set_grid [] self.

(** [_populate_grid], without the loading of the thumbnails. *)
Definition _populate_grid (self : t) : t :=
  match media_files self with
  | [] => set_status "No supported media files found" self
  | _ =>
      let self :=
        set_status ("Loading thumbnails for " +:+ pretty (length (media_files self))
                    +:+ " files...") self in
      set_grid (grid self ++ media_files self) self
  end.

(** [load_directory] up to [thread.start()]: the part that runs in the
    control thread. *)
Definition load_directory (self : t) (directory : string) (exists_ : bool) : t :=
  if negb exists_ then self
  else
    let self := set_current_directory directory self in
    let self := set_status ("Loading files from " +:+ directory +:+ "...") self in
    let self := set_selected_files ∅ self in
    _clear_grid self.

(** The worker [load_files] of [load_directory] and the [_populate_grid]
    it schedules. *)
Definition load_files (self : t) (directory : string)
    (listing : option (list entry)) : t :=
  let recursive := recursive_var self in
  let self :=
    set_media_files
      (MediaHandler.get_files_in_directory directory listing recursive) self in
  _populate_grid self.

(** A load whose worker finishes before the next event is handled. *)
Definition load_directory_and_wait (self : t) (directory : string)
    (listing : option (list entry)) : t :=
  match listing with
  | None => load_directory self directory false
  | Some _ => load_files (load_directory self directory true) directory listing
  end.

Definition _toggle_selection (self : t) (filepath : string) (selected : bool) : t :=
  if selected then set_selected_files ({[filepath]} ∪ selected_files self) self
  else set_selected_files (selected_files self ∖ {[filepath]}) self.

Definition _select_all (self : t) : t :=
  set_selected_files (list_to_set (media_files self)) self.

Definition _clear_selection (self : t) : t := set_selected_files ∅ self.

Definition _keep_selected (self : t) : t :=
  if bool_decide (selected_files self = ∅) then self
  else
    let self :=
      set_media_files
        (filter (λ f, f ∈ selected_files self) (media_files self)) self in
    let self := set_selected_files ∅ self in
    _populate_grid (_clear_grid self).

(** [_refresh_view], up to the start of the worker. *)
Definition _refresh_view (self : t) (exists_ : bool) : t :=
  if bool_decide (current_directory self = "") then self
  else load_directory self (current_directory self) exists_.

(** [_delete_selected].  [result] is the answer to the confirmation
    dialog, [order] the order in which [list(self.selected_files)]
    enumerates the set, [exists_] whether the current directory still
    exists when the view is refreshed. *)
Definition _delete_selected (self : t) (result : bool) (order : list string)
    (exists_ : bool) (w : World) : t * World * nat :=
  if bool_decide (selected_files self = ∅) then (self, w, O)
  else if negb result then (self, w, O)
  else
    let '(w, deleted_count) :=
      foldl (λ '(w, deleted_count) filepath,
               match os_remove w filepath with
               | (Returned _, w) => (w, S deleted_count)
               | (Raised _, w) => (w, deleted_count)
               end)
            (w, O) order in
    (_refresh_view self exists_, w, deleted_count).

Definition set_grid_columns (n : Z) (self : t) : t :=
  {| media_handler := media_handler self; current_directory := current_directory self;
     media_files := media_files self; selected_files := selected_files self;
     grid_columns := n; recursive_var := recursive_var self;
     status_var := status_var self; grid := grid self |}.

(** [_update_grid_columns].  [columns_var] is the text of the spin box;
    it is returned with the viewer, since the [except] clause resets it. *)
Definition _update_grid_columns (max_str_digits : nat) (self : t)
    (columns_var : string) (exists_ : bool) : t * string :=
  match Py.int max_str_digits columns_var with
  | Raised _ => (self, pretty (grid_columns self))
  | Returned new_columns =>
      if (1 <=? new_columns) && (new_columns <=? 8)
      then (_refresh_view (set_grid_columns new_columns self) exists_, columns_var)
      else (self, columns_var)
  end.

(** The cell [_populate_grid] gives to entry [i] of the list:
    [(i // self.grid_columns, i % self.grid_columns)]; [None] stands for
    the [ZeroDivisionError]. *)
Definition grid_position (self : t) (i : nat) : option (Z * Z) :=
  if bool_decide (grid_columns self = 0) then None
  else Some (Z.of_nat i / grid_columns self, Z.of_nat i `mod` grid_columns self).

End GUI.

End MediaBridgeViewer.

(** ** Auxiliary definitions used in the proofs *)

(** The directory prefix [os.path.join] puts before a relative name. *)
Definition dir_prefix (top : string) : string :=
  if bool_decide (top = "") || Py.endswith "/" top then top else top +:+ "/".

(** The paths [os.walk] lets the enumerator build, before filtering. *)
Definition triple_files (tr : string * list string * list string) : list string :=
  Py.join tr.1.1 <$> tr.2.

Definition files_below (parent : string) (e : entry) : list string :=
  flat_map triple_files (walk_entry parent e).





(** What one computation of a thumbnail does to the world: one decoder
    invocation, and one new object when there is a result. *)
Definition computes `{Codec} (w : World) (r : result (option PhotoImage))
    (w' : World) : Prop :=
  fs w' = fs w ∧ readonly w' = readonly w ∧
  decoder_calls w' = S (decoder_calls w) ∧
  match r with
  | Returned (Some t) => obj_id t = next_obj w ∧ next_obj w' = S (next_obj w)
  | _ => next_obj w' = next_obj w
  end.

(** The record after [k] one-bit shifts of an exact mantissa in
    [SpecFloat.shr]: the quotient, the last bit shifted out, and whether
    a bit before that one was set. *)
Definition shifted (m : Z) (k : nat) : shr_record :=
  {| shr_m := m / 2 ^ Z.of_nat k;
     shr_r := Z.odd (m / 2 ^ (Z.of_nat k - 1));
     shr_s := negb (m mod 2 ^ (Z.of_nat k - 1) =? 0) |}.

(** ** A small codec for the examples

    Contents, images, frames and pixels are strings.  A file decodes as
    an image when it starts with [IMG] and opens as a video of three
    frames when it starts with [VID]; a thumbnail shows the contents it
    was made from. *)
Module Demo.

(** [3.0] and [25.0] *)
Definition three : spec_float := S754_finite false 6755399441055744 (-51).
Definition twenty_five : spec_float := S754_finite false 7036874417766400 (-48).

Definition capture_of (c : string) : capture string :=
  {| cap_width := three; cap_height := three; cap_fps := twenty_five;
     cap_frame_count := three;
     cap_read_at := λ n, if (0 <=? n) && (n <? 3) then Some c else None |}.

Definition codec : Codec := {|
  content := string;
  image := string;
  frame := string;
  pixels := string;
  content_size := λ c, Z.of_nat (String.length c);
  Image_open := λ c,
    if String.prefix "IMG" c then Returned c
    else Raised (DecodeError "cannot identify image file");
  image_size := λ _, (640, 480);
  image_format := λ _, Some "JPEG";
  image_thumbnail := λ img _, Returned img;
  VideoCapture := λ c,
    if String.prefix "VID" c then Some (capture_of c) else None;
  frame_thumbnail := λ fr _, Returned fr
|}.

Definition world (files : list (string * string)) : World (H := codec) :=
  {| fs := list_to_map files; readonly := ∅; decoder_calls := 0;
     next_obj := 0; log := [] |}.

Definition photo_image (id : nat) (px : string) : @PhotoImage codec :=
  @Build_PhotoImage codec id px.


(** A 64-bit interpreter with all the memory asked for. *)
Definition memory : CLIMediaViewer.memory :=
  {| CLIMediaViewer.maxsize := 9223372036854775807;
     CLIMediaViewer.fits := λ _, true |}.

End Demo.

(** A remote session for the examples. *)
Definition demo_remote : RemoteMediaHandler.t (H := Demo.codec) :=
  {| RemoteMediaHandler.base := MediaHandler.init;
     RemoteMediaHandler.ssh_host := "media.example.org";
     RemoteMediaHandler.ssh_user := "sam";
     RemoteMediaHandler.ssh_port := 22;
     RemoteMediaHandler.ssh_key := None;
     RemoteMediaHandler.temp_dir := "/tmp/media_bridge_k3" |}.

Definition scp_ok (c : string) : RemoteMediaHandler.scp_outcome (H := Demo.codec) :=
  @RemoteMediaHandler.ScpOk Demo.codec c.

Definition scp_failed (left_behind : option string)
  : RemoteMediaHandler.scp_outcome (H := Demo.codec) :=
  @RemoteMediaHandler.ScpFailed Demo.codec left_behind.

Definition demo_files (l : list (string * string)) : gmap string (@content Demo.codec) :=
  list_to_map l.

Definition demo_remote_viewer : RemoteMediaViewer.t (H := Demo.codec) :=
  {| RemoteMediaViewer.remote_handler := demo_remote;
     RemoteMediaViewer.status_var := "Ready" |}.

(** [os.remove(path)] succeeds in [w]. *)
Definition removable `{Codec} (w : World) (path : string) : bool :=
  bool_decide (is_Some (fs w !! path)) && negb (bool_decide (path ∈ readonly w)).

(** The state invariant of the viewers: the file list has no duplicate
    and every selected file is in it. *)
Definition selection_invariant (media_files : list string)
    (selected_files : gset string) : Prop :=
  NoDup media_files ∧ ∀ f, f ∈ selected_files → f ∈ media_files.

Definition demo_cli (files : list string) (selected : list string)
  : CLIMediaViewer.t (H := Demo.codec) :=
  {| CLIMediaViewer.media_handler := MediaHandler.init;
     CLIMediaViewer.media_files := files;
     CLIMediaViewer.selected_files := list_to_set selected;
     CLIMediaViewer.current_directory := "/d" |}.

Definition demo_gui (files : list string) (selected : list string)
  : MediaBridgeViewer.t (H := Demo.codec) :=
  {| MediaBridgeViewer.media_handler := MediaHandler.init;
     MediaBridgeViewer.current_directory := "/d";
     MediaBridgeViewer.media_files := files;
     MediaBridgeViewer.selected_files := list_to_set selected;
     MediaBridgeViewer.grid_columns := 4;
     MediaBridgeViewer.recursive_var := false;
     MediaBridgeViewer.status_var := "Ready";
     MediaBridgeViewer.grid := files |}.

(** A world in which [locked] may not be removed. *)
Definition demo_world_locked (files : list (string * string)) (locked : list string)
  : World (H := Demo.codec) :=
  {| fs := list_to_map files; readonly := list_to_set locked; decoder_calls := 0;
     next_obj := 0; log := [] |}.

(** The states of the headless viewer that [main] and the command loop
    reach: the directory is loaded once, into a new viewer, and the loop
    runs when that succeeded. *)
Inductive cli_reachable `{Codec} : CLIMediaViewer.t → Prop :=
  | cli_loaded directory recursive es :
      wf_tree es = true →
      (CLIMediaViewer.load_directory CLIMediaViewer.init directory recursive
         (Some es)).1.1 = true →
      cli_reachable
        (CLIMediaViewer.load_directory CLIMediaViewer.init directory recursive
           (Some es)).1.2
  | cli_command c self w :
      cli_reachable self →
      match c with
      | CLIMediaViewer.CmdRemove _ order =>
          order ≡ₚ elements (CLIMediaViewer.selected_files self)
      | _ => True
      end →
      cli_reachable (CLIMediaViewer.run_command c self w).1.

(** What [find ... | sort] prints for the paths it found: one line for
    each of them. *)
Definition unlines (paths : list string) : string :=
  foldr (λ p out, p +:+ String "010" out) EmptyString paths.

(** ** [remote.py]: loading a directory in the remote window *)

Module RemoteLoad.

(** How a call ends that may exhaust the interpreter's stack. *)
Inductive outcome (A : Type) : Type :=
  | Done (a : A)
  | RecursionError.
Arguments Done {A} a.
Arguments RecursionError {A}.

Section RemoteLoad.
Context `{Codec}.

(** [RemoteMediaViewer.load_directory] on the fields the object inherits
    from [MediaBridgeViewer], with the call of [self._refresh_view()]
    that ends it: the inherited [_refresh_view] calls
    [self.load_directory], which is this method again.  [depth] is the
    number of nested calls of [load_directory] that find on the stack
    the room for the calls they make before [_refresh_view]; the next
    one raises [RecursionError].  [run level] is what [subprocess.run]
    does in the call nested at [level]: [RunError] where the stack is
    too short for it, the [RecursionError] being caught by
    [_run_ssh_command] like any exception. *)
Fixpoint load_directory (depth : nat)
    (run : nat → list string → RemoteMediaHandler.run_outcome) (level : nat)
    (handler : RemoteMediaHandler.t) (self : MediaBridgeViewer.t)
    (directory : string) : outcome MediaBridgeViewer.t :=
  match depth with
  | O => RecursionError
  | S depth =>
      let self := MediaBridgeViewer.set_current_directory directory self in
      let self :=
        MediaBridgeViewer.set_media_files
          (RemoteMediaHandler.get_files_in_directory handler directory
             (MediaBridgeViewer.recursive_var self)
             (λ command,
                RemoteMediaHandler._run_ssh_command handler command (run level)))
          self in
      if bool_decide (MediaBridgeViewer.current_directory self = EmptyString)
      then Done self
      else load_directory depth run (S level) handler self
             (MediaBridgeViewer.current_directory self)
  end.

End RemoteLoad.

End RemoteLoad.

(** ** The events of the window

    What the user does in the window, with what the environment answers:
    the listing of a directory that is loaded, the answer to the
    confirmation dialog and the order in which the selection is
    enumerated.  Every load is over, the worker having replaced the list
    and filled the grid, before the next event is handled. *)
Inductive gui_event : Type :=
  | GuiLoad (directory : string) (listing : option (list entry))
  | GuiToggle (filepath : string) (selected : bool)
  | GuiSelectAll
  | GuiClearSelection
  | GuiKeepSelected
  | GuiDeleteSelected (result : bool) (order : list string)
      (listing : option (list entry))
  | GuiColumns (columns_var : string) (listing : option (list entry)).

(** [_refresh_view] with the load it starts, if any, carried out. *)
Definition refresh_and_wait `{Codec} (self : MediaBridgeViewer.t)
    (listing : option (list entry)) : MediaBridgeViewer.t :=
  if bool_decide (MediaBridgeViewer.current_directory self = EmptyString) then self
  else
    MediaBridgeViewer.load_directory_and_wait self
      (MediaBridgeViewer.current_directory self) listing.

(** The handler of an event; [None] for an event that cannot happen: a
    check box exists only for the files of the grid. *)
Definition gui_handle `{Codec} (max_str_digits : nat) (ev : gui_event)
    (st : MediaBridgeViewer.t * World) : option (MediaBridgeViewer.t * World) :=
  let '(self, w) := st in
  match ev with
  | GuiLoad directory listing =>
      Some (MediaBridgeViewer.load_directory_and_wait self directory listing, w)
  | GuiToggle filepath selected =>
      if bool_decide (filepath ∈ MediaBridgeViewer.grid self)
      then Some (MediaBridgeViewer._toggle_selection self filepath selected, w)
      else None
  | GuiSelectAll => Some (MediaBridgeViewer._select_all self, w)
  | GuiClearSelection => Some (MediaBridgeViewer._clear_selection self, w)
  | GuiKeepSelected => Some (MediaBridgeViewer._keep_selected self, w)
  | GuiDeleteSelected result order listing =>
      let '(self', w, _) :=
        MediaBridgeViewer._delete_selected self result order
          (bool_decide (is_Some listing)) w in
      if negb (bool_decide (MediaBridgeViewer.selected_files self = ∅)) && result
      then Some (refresh_and_wait self listing, w)
      else Some (self', w)
  | GuiColumns columns_var listing =>
      let '(self', _) :=
        MediaBridgeViewer._update_grid_columns max_str_digits self columns_var
          (bool_decide (is_Some listing)) in
      match Py.int max_str_digits columns_var with
      | Returned new_columns =>
          if (1 <=? new_columns) && (new_columns <=? 8)
          then Some (refresh_and_wait
                       (MediaBridgeViewer.set_grid_columns new_columns self) listing, w)
          else Some (self', w)
      | Raised _ => Some (self', w)
      end
  end.

(** A session in the window: the events handled one after the other. *)
Fixpoint gui_run `{Codec} (max_str_digits : nat) (events : list gui_event)
    (st : MediaBridgeViewer.t * World) : option (MediaBridgeViewer.t * World) :=
  match events with
  | [] => Some st
  | ev :: events =>
      match gui_handle max_str_digits ev st with
      | Some st => gui_run max_str_digits events st
      | None => None
      end
  end.

(** * Properties *)

(** ** [os.path] on examples *)

Example splitext_examples :
  Py.splitext "/d/a.JPG" = ("/d/a", ".JPG") ∧
  Py.splitext "/d.x/a" = ("/d.x/a", "") ∧
  Py.splitext "/d/.bashrc" = ("/d/.bashrc", "") ∧
  Py.splitext "/d/..a.b" = ("/d/..a", ".b") ∧
  Py.splitext "a.tar.gz" = ("a.tar", ".gz") ∧
  Py.basename "/r/x/a.jpg" = "a.jpg" ∧
  Py.join "/tmp/t" "a.jpg" = "/tmp/t/a.jpg" ∧
  Py.join "/tmp/t/" "a.jpg" = "/tmp/t/a.jpg" ∧
  MediaHandler.is_supported_file "/d/a.JPG" = true ∧
  MediaHandler.is_supported_file "/d/.mp4" = false.
Proof. repeat split; vm_compute; reflexivity. Qed.

Example enumerate_example :
  MediaHandler.get_files_in_directory "/d"
    (Some [EFile "b.PNG" true; EFile "notes.txt" true;
           EDir "sub" [EFile "a.mp4" true]; EFile "a.jpg" true]) true
  = ["/d/a.jpg"; "/d/b.PNG"; "/d/sub/a.mp4"].
Proof. vm_compute. reflexivity. Qed.

(** ** Strings and paths *)

Section Paths.

Lemma app_cons a s t : String a s +:+ t = String a (s +:+ t).
Proof. reflexivity. Qed.

Lemma app_nil_l t : "" +:+ t = t.
Proof. reflexivity. Qed.

Lemma app_assoc_s s t u : (s +:+ t) +:+ u = s +:+ t +:+ u.
Proof. induction s as [|a s IH]; [done|]. by rewrite !app_cons, IH. Qed.

Lemma wf_name_spec n : wf_name n = true ↔ n ≠ "" ∧ no_slash n = true.
Proof.
  unfold wf_name. rewrite andb_true_iff, negb_true_iff, bool_decide_eq_false.
  done.
Qed.

Lemma no_slash_startswith n : no_slash n = true → Py.startswith "/" n = false.
Proof.
  destruct n as [|a n]; [done|]; simpl.
  rewrite andb_true_iff, negb_true_iff. by intros [-> _].
Qed.

Lemma no_slash_endswith n : no_slash n = true → Py.endswith "/" n = false.
Proof.
  induction n as [|a n IH]; [done|]. simpl.
  rewrite andb_true_iff, negb_true_iff. intros [Ha Hn].
  destruct n; [done|]. by apply IH.
Qed.

Lemma endswith_app c s n : n ≠ "" → Py.endswith c (s +:+ n) = Py.endswith c n.
Proof.
  intros Hn. induction s as [|a s IH]; [done|].
  rewrite app_cons. simpl. rewrite IH.
  destruct (s +:+ n) eqn:E; [|done].
  destruct s; [|done]. by rewrite app_nil_l in E.
Qed.

Lemma app_not_empty s n : n ≠ "" → s +:+ n ≠ "".
Proof. intros Hn. destruct s; [by rewrite app_nil_l|done]. Qed.

Lemma join_name top n : wf_name n = true → Py.join top n = dir_prefix top +:+ n.
Proof.
  intros [Hne Hns]%wf_name_spec. unfold Py.join, dir_prefix.
  rewrite (no_slash_startswith n Hns).
  destruct (bool_decide (top = "") || Py.endswith "/" top); [done|].
  by rewrite app_assoc_s.
Qed.

Lemma dir_prefix_join top n :
  wf_name n = true → dir_prefix (Py.join top n) = dir_prefix top +:+ n +:+ "/".
Proof.
  intros Hwf. rewrite (join_name _ _ Hwf).
  apply wf_name_spec in Hwf as [Hne Hns].
  unfold dir_prefix at 1.
  rewrite (endswith_app _ _ _ Hne), (no_slash_endswith _ Hns).
  rewrite bool_decide_eq_false_2 by by apply app_not_empty.
  simpl. by rewrite app_assoc_s.
Qed.

(** Two relative paths that start with different directory names differ. *)
Lemma first_component n n' q q' :
  no_slash n = true → no_slash n' = true →
  n +:+ "/" +:+ q = n' +:+ "/" +:+ q' → n = n'.
Proof.
  revert n'. induction n as [|a n IH]; intros [|a' n']; simpl.
  - done.
  - rewrite app_nil_l, app_cons. intros _ [Ha _]%andb_true_iff [= <- _].
    by rewrite bool_decide_eq_true_2 in Ha.
  - rewrite app_nil_l, app_cons. intros [Ha _]%andb_true_iff _ [= -> _].
    by rewrite bool_decide_eq_true_2 in Ha.
  - rewrite !app_cons. intros [_ Hn]%andb_true_iff [_ Hn']%andb_true_iff [= -> E].
    f_equal. by apply IH.
Qed.

Lemma no_slash_with_slash n q : no_slash (n +:+ "/" +:+ q) = false.
Proof.
  induction n as [|a n IH]; [done|]. rewrite app_cons. simpl.
  rewrite IH. apply andb_false_r.
Qed.

End Paths.

Section Basename.

Lemma app_nil_r_s s : s +:+ "" = s.
Proof. induction s as [|a s IH]; [done|]. by rewrite app_cons, IH. Qed.

Lemma rfind_lower_bound c s : -1 ≤ Py.rfind c s.
Proof.
  induction s as [|a s IH]; simpl; [done|].
  destruct (Z.leb_spec 0 (Py.rfind c s)); [lia|]. destruct (decide (a = c)); lia.
Qed.

Lemma rfind_no_slash s : Py.rfind "/" s = -1 → no_slash s = true.
Proof.
  induction s as [|a s IH]; simpl; [done|].
  destruct (Z.leb_spec 0 (Py.rfind "/" s)); [lia|].
  destruct (decide (a = "/"%char)); [lia|]. intros _.
  rewrite bool_decide_eq_false_2 by done. simpl.
  apply IH. pose proof (rfind_lower_bound "/" s). lia.
Qed.

Lemma basename_no_slash p : no_slash (Py.basename p) = true.
Proof.
  unfold Py.basename. induction p as [|a p IH]; [done|]. simpl.
  pose proof (rfind_lower_bound "/" p) as Hlb.
  destruct (Z.leb_spec 0 (Py.rfind "/" p)).
  - replace (Z.to_nat (Py.rfind "/" p + 1 + 1)) with (S (Z.to_nat (Py.rfind "/" p + 1)))
      by lia.
    apply IH.
  - assert (no_slash p = true) as Hp by (apply rfind_no_slash; lia).
    destruct (decide (a = "/"%char)); simpl; [done|].
    by rewrite bool_decide_eq_false_2, Hp.
Qed.

Lemma join_relative top n :
  Py.startswith "/" n = false → Py.join top n = dir_prefix top +:+ n.
Proof.
  intros Hn. unfold Py.join, dir_prefix. rewrite Hn.
  destruct (bool_decide (top = "") || Py.endswith "/" top); [done|].
  by rewrite app_assoc_s.
Qed.

Lemma prefix_app s t : String.prefix s (s +:+ t) = true.
Proof.
  induction s as [|a s IH]; [by destruct t|].
  rewrite app_cons. simpl. by destruct (ascii_dec a a).
Qed.

(** The local path of a remote file lies in the scratch area. *)
Lemma join_basename_prefix temp p :
  String.prefix (Py.join temp "") (Py.join temp (Py.basename p)) = true.
Proof.
  rewrite !join_relative by (done || apply no_slash_startswith, basename_no_slash).
  rewrite app_nil_r_s. apply prefix_app.
Qed.

End Basename.

(** ** The enumerator *)

Section Enumerator.

(** Induction on entries, with the hypothesis for all children. *)
Lemma entry_ind_children (P : entry → Prop) :
  (∀ n b, P (EFile n b)) →
  (∀ n es, Forall P es → P (EDir n es)) →
  ∀ e, P e.
Proof.
  intros Hfile Hdir. fix IH 1. intros [n b|n es].
  - apply Hfile.
  - apply Hdir. induction es as [|e es IHes]; constructor; [apply IH|apply IHes].
Qed.

Lemma forallb_Forall_wf es : forallb wf_entry es = true ↔ Forall (λ e, wf_entry e = true) es.
Proof.
  induction es as [|e es IH]; simpl; [by split; [constructor|]|].
  rewrite andb_true_iff, Forall_cons, IH. done.
Qed.

Lemma wf_entry_name e : wf_entry e = true → wf_name (entry_name e) = true.
Proof. destruct e; simpl; rewrite andb_true_iff; tauto. Qed.

Lemma wf_entry_children n es :
  wf_entry (EDir n es) = true →
  NoDup (listdir es) ∧ Forall (λ e, wf_entry e = true) es.
Proof.
  simpl. rewrite !andb_true_iff, bool_decide_eq_true, forallb_Forall_wf. tauto.
Qed.

Lemma wf_tree_spec es :
  wf_tree es = true ↔ NoDup (listdir es) ∧ Forall (λ e, wf_entry e = true) es.
Proof.
  unfold wf_tree. by rewrite andb_true_iff, bool_decide_eq_true, forallb_Forall_wf.
Qed.

Lemma elem_of_filenames f es : f ∈ filenames es ↔ ∃ b, EFile f b ∈ es.
Proof.
  unfold filenames. rewrite list_elem_of_omap. split.
  - intros ([n b|n ch] & Hin & Heq); simplify_eq. eauto.
  - intros [b Hin]. by exists (EFile f b).
Qed.

Lemma filenames_listdir f es : f ∈ filenames es → f ∈ listdir es.
Proof.
  intros [b Hin]%elem_of_filenames. unfold listdir.
  apply list_elem_of_fmap. by exists (EFile f b).
Qed.

Lemma NoDup_filenames es : NoDup (listdir es) → NoDup (filenames es).
Proof.
  induction es as [|e es IH]; [constructor|].
  unfold listdir; simpl. rewrite NoDup_cons. intros [Hnotin Hnd].
  destruct e as [n b|n ch]; simpl; [|by apply IH].
  apply NoDup_cons. split; [|by apply IH].
  intros Hin. by apply Hnotin, filenames_listdir.
Qed.

Lemma wf_filenames f es :
  Forall (λ e, wf_entry e = true) es → f ∈ filenames es → wf_name f = true.
Proof.
  intros Hwf [b Hin]%elem_of_filenames.
  rewrite Forall_forall in Hwf. apply (wf_entry_name (EFile f b)). by apply Hwf.
Qed.

Lemma flat_map_flat_map {A B C} (f : B → list C) (g : A → list B) l :
  flat_map f (flat_map g l) = flat_map (λ x, flat_map f (g x)) l.
Proof. induction l as [|x l IH]; simpl; [done|]. by rewrite flat_map_app, IH. Qed.

Lemma elem_of_flat_map {A B} (f : A → list B) l y :
  y ∈ flat_map f l ↔ ∃ x, x ∈ l ∧ y ∈ f x.
Proof.
  rewrite list_elem_of_In, in_flat_map. setoid_rewrite list_elem_of_In. done.
Qed.

Lemma filter_flat_map {A B} (P : B → Prop) `{∀ x, Decision (P x)}
    (f : A → list B) l :
  flat_map (λ x, filter P (f x)) l = filter P (flat_map f l).
Proof. induction l as [|x l IH]; simpl; [done|]. by rewrite filter_app, IH. Qed.

Lemma files_below_dir parent n es :
  files_below parent (EDir n es) =
  (Py.join (Py.join parent n) <$> filenames es) ++
  flat_map (files_below (Py.join parent n)) es.
Proof. unfold files_below. simpl. by rewrite flat_map_flat_map. Qed.

(** Every path found below a well-formed entry starts with the parent's
    prefix, the name of the entry and a separator. *)
Lemma files_below_shape e :
  wf_entry e = true → ∀ parent p,
  p ∈ files_below parent e →
  ∃ q, p = dir_prefix parent +:+ entry_name e +:+ "/" +:+ q.
Proof.
  induction e as [n b|n es IH] using entry_ind_children; intros Hwf parent p Hp.
  { by apply elem_of_nil in Hp. }
  pose proof (wf_entry_name _ Hwf) as Hn. simpl in Hn.
  apply wf_entry_children in Hwf as [_ Hch].
  rewrite files_below_dir, elem_of_app in Hp. simpl. destruct Hp as [Hp|Hp].
  - apply list_elem_of_fmap in Hp as (f & -> & Hf).
    exists f. rewrite (join_name _ f) by eauto using wf_filenames.
    by rewrite (dir_prefix_join _ _ Hn), !app_assoc_s.
  - apply elem_of_flat_map in Hp as (e & He & Hp).
    rewrite Forall_forall in IH, Hch.
    destruct (IH e He (Hch e He) _ _ Hp) as [q ->].
    exists (entry_name e +:+ "/" +:+ q).
    by rewrite (dir_prefix_join _ _ Hn), !app_assoc_s.
Qed.

(** The paths built from the entries of one directory are distinct, when
    those found below each entry are. *)
Lemma NoDup_directory root es :
  NoDup (listdir es) →
  Forall (λ e, wf_entry e = true) es →
  Forall (λ e, ∀ parent, NoDup (files_below parent e)) es →
  NoDup ((Py.join root <$> filenames es) ++ flat_map (files_below root) es).
Proof.
  intros Hnd Hwf Hbelow. apply NoDup_app. split; [|split].
  - apply NoDup_fmap_2_strong; [|by apply NoDup_filenames].
    intros f g Hf Hg. rewrite !join_name by eauto using wf_filenames.
    apply (inj _).
  - intros p (f & -> & Hf)%list_elem_of_fmap (e & He & Hp)%elem_of_flat_map.
    rewrite Forall_forall in Hwf.
    destruct (files_below_shape e (Hwf e He) _ _ Hp) as [q Hq].
    pose proof (wf_filenames _ _ (proj2 (Forall_forall _ _) Hwf) Hf) as Hwff.
    rewrite (join_name _ _ Hwff) in Hq. apply (inj _) in Hq.
    apply wf_name_spec in Hwff as [_ Hns].
    by rewrite Hq, no_slash_with_slash in Hns.
  - induction es as [|e es IHes]; [constructor|]. simpl.
    unfold listdir in Hnd. simpl in Hnd. apply NoDup_cons in Hnd as [Hnotin Hnd].
    apply Forall_cons in Hwf as [Hwfe Hwf].
    apply Forall_cons in Hbelow as [Hbe Hbelow].
    apply NoDup_app. split; [apply Hbe|split; [|by apply IHes]].
    intros p Hp (e' & He' & Hp')%elem_of_flat_map.
    destruct (files_below_shape e Hwfe _ _ Hp) as [q Hq].
    rewrite Forall_forall in Hwf.
    destruct (files_below_shape e' (Hwf e' He') _ _ Hp') as [q' Hq'].
    rewrite Hq in Hq'. apply (inj _) in Hq'.
    apply first_component in Hq'.
    + apply Hnotin. rewrite Hq'. apply list_elem_of_fmap. by exists e'.
    + by apply wf_name_spec, wf_entry_name.
    + by apply wf_name_spec, wf_entry_name, Hwf.
Qed.

Lemma NoDup_files_below e :
  wf_entry e = true → ∀ parent, NoDup (files_below parent e).
Proof.
  induction e as [n b|n es IH] using entry_ind_children; intros Hwf parent.
  { constructor. }
  rewrite files_below_dir.
  apply wf_entry_children in Hwf as [Hnd Hch].
  apply NoDup_directory; [done..|].
  rewrite Forall_forall in IH, Hch |- *. intros e He. by apply IH, Hch.
Qed.

Lemma os_walk_files top es :
  flat_map triple_files (os_walk top es) =
  (Py.join top <$> filenames es) ++ flat_map (files_below top) es.
Proof. unfold os_walk. simpl. by rewrite flat_map_flat_map. Qed.

Lemma NoDup_os_walk top es :
  wf_tree es = true → NoDup (flat_map triple_files (os_walk top es)).
Proof.
  intros [Hnd Hwf]%wf_tree_spec. rewrite os_walk_files.
  apply NoDup_directory; [done..|].
  rewrite Forall_forall in Hwf |- *. intros e He. by apply NoDup_files_below, Hwf.
Qed.

Lemma NoDup_listdir_files directory es :
  wf_tree es = true →
  NoDup (flat_map (λ e, let filepath := Py.join directory (entry_name e) in
                        if entry_isfile e && MediaHandler.is_supported_file filepath
                        then [filepath] else []) es).
Proof.
  intros [Hnd Hwf]%wf_tree_spec.
  induction es as [|e es IH]; [constructor|]. simpl.
  unfold listdir in Hnd. simpl in Hnd. apply NoDup_cons in Hnd as [Hnotin Hnd].
  apply Forall_cons in Hwf as [Hwfe Hwf].
  apply NoDup_app. split; [|split; [|by apply IH]].
  - destruct (_ && _); [apply NoDup_singleton|constructor].
  - intros p Hp (e' & He' & Hp')%elem_of_flat_map.
    destruct (_ && _) in Hp; [|by apply elem_of_nil in Hp].
    destruct (_ && _) in Hp'; [|by apply elem_of_nil in Hp'].
    apply list_elem_of_singleton in Hp, Hp'. subst p.
    rewrite Forall_forall in Hwf.
    rewrite !join_name in Hp' by auto using wf_entry_name.
    apply (inj _) in Hp'. apply Hnotin. rewrite Hp'.
    apply list_elem_of_fmap. by exists e'.
Qed.

Lemma collect_files_NoDup directory tree recursive :
  from_option wf_tree true tree = true →
  NoDup (MediaHandler.collect_files directory tree recursive).
Proof.
  intros Hwf. unfold MediaHandler.collect_files.
  destruct recursive, tree as [es|]; cbn [from_option] in *; try constructor.
  - rewrite (flat_map_ext _ (λ tr, filter (λ fp, MediaHandler.is_supported_file fp = true)
                                     (triple_files tr))) by by intros [[??]?].
    rewrite filter_flat_map. by apply NoDup_filter, NoDup_os_walk.
  - by apply NoDup_listdir_files.
Qed.










End Enumerator.



(** ** The thumbnail cache *)

Section Cache.
Context `{Codec}.

Import MediaHandler.


Lemma _create_image_thumbnail_computes self filepath w :
  computes w (_create_image_thumbnail self filepath w).1
             (_create_image_thumbnail self filepath w).2.
Proof.
  unfold _create_image_thumbnail, computes. simpl.
  repeat case_match; simplify_eq/=; done.
Qed.

Lemma _create_video_thumbnail_computes self filepath w :
  computes w (_create_video_thumbnail self filepath w).1
             (_create_video_thumbnail self filepath w).2.
Proof.
  unfold _create_video_thumbnail, computes. simpl.
  repeat case_match; simplify_eq/=; done.
Qed.

(** A hit: the stored object is returned, nothing else happens. *)
Lemma create_thumbnail_hit self filepath w t :
  cache self !! filepath = Some t →
  create_thumbnail self filepath w = (Some t, self, w).
Proof. intros Hc. unfold create_thumbnail. by rewrite Hc. Qed.

(** A miss: one computation; its result is stored when there is one. *)
Lemma create_thumbnail_miss self filepath w :
  cache self !! filepath = None →
  ∃ r w', computes w r w' ∧
    create_thumbnail self filepath w =
      match r with
      | Returned (Some t) =>
          (Some t, set_cache (<[filepath := t]> (cache self)) self, w')
      | _ => (None, self, w')
      end.
Proof.
  intros Hc. unfold create_thumbnail. rewrite Hc.
  destruct (is_video_file filepath).
  - pose proof (_create_video_thumbnail_computes self filepath w) as Hcomp.
    destruct (_create_video_thumbnail self filepath w) as [r w'].
    exists r, w'. split; [done|]. by destruct r as [[t|]|e].
  - pose proof (_create_image_thumbnail_computes self filepath w) as Hcomp.
    destruct (_create_image_thumbnail self filepath w) as [r w'].
    exists r, w'. split; [done|]. by destruct r as [[t|]|e].
Qed.

(** What a fetch returns is in the cache afterwards. *)
Lemma create_thumbnail_stored self filepath w t self' w' :
  create_thumbnail self filepath w = (Some t, self', w') →
  cache self' !! filepath = Some t.
Proof.
  destruct (cache self !! filepath) as [t0|] eqn:Hc.
  - rewrite (create_thumbnail_hit _ _ _ _ Hc). by intros [= <- <- <-].
  - destruct (create_thumbnail_miss self filepath w Hc) as (r & w1 & _ & ->).
    destruct r as [[t1|]|e]; intros [= <- <- <-]; simpl.
    apply lookup_insert_eq.
Qed.

(** No fetch removes or replaces an entry. *)
Lemma create_thumbnail_keeps self g w f t :
  cache self !! f = Some t →
  cache (create_thumbnail self g w).1.2 !! f = Some t.
Proof.
  intros Hf. destruct (cache self !! g) as [t0|] eqn:Hc.
  - by rewrite (create_thumbnail_hit _ _ _ _ Hc).
  - destruct (create_thumbnail_miss self g w Hc) as (r & w1 & _ & ->).
    destruct r as [[t1|]|e]; simpl; [|done..].
    rewrite lookup_insert_ne; [done|]. intros ->. congruence.
Qed.

(** No fetch creates an entry for another identifier. *)
Lemma create_thumbnail_other self g w f :
  f ≠ g →
  cache (create_thumbnail self g w).1.2 !! f = cache self !! f.
Proof.
  intros Hne. destruct (cache self !! g) as [t0|] eqn:Hc.
  - by rewrite (create_thumbnail_hit _ _ _ _ Hc).
  - destruct (create_thumbnail_miss self g w Hc) as (r & w1 & _ & ->).
    destruct r as [[t1|]|e]; simpl; [|done..].
    by rewrite lookup_insert_ne.
Qed.



End Cache.



(** ** The remote bridge *)

Section Remote.
Context `{Codec}.

Lemma create_thumbnail_fs self filepath w :
  fs (MediaHandler.create_thumbnail self filepath w).2 = fs w ∧
  readonly (MediaHandler.create_thumbnail self filepath w).2 = readonly w.
Proof.
  destruct (MediaHandler.cache self !! filepath) as [t|] eqn:Hc.
  - by rewrite (create_thumbnail_hit _ _ _ _ Hc).
  - destruct (create_thumbnail_miss self filepath w Hc)
      as (r & w' & (Hfs & Hro & _) & ->).
    by destruct r as [[t|]|e].
Qed.

(** The local inspection always returns a record. *)
Lemma get_media_info_returns self filepath w :
  ∃ info, (MediaHandler.get_media_info self filepath w).1 = Returned info.
Proof.
  unfold MediaHandler.get_media_info, os_path_exists, os_path_getsize.
  destruct (bool_decide (is_Some (fs w !! filepath))) eqn:E; simpl; [|eauto].
  apply bool_decide_eq_true in E as [c Hc]. rewrite Hc.
  destruct (MediaHandler.get_media_info_try _ _ _) as [info [e|]]; eauto.
Qed.

Lemma get_media_info_fs self filepath w :
  fs (MediaHandler.get_media_info self filepath w).2 = fs w ∧
  readonly (MediaHandler.get_media_info self filepath w).2 = readonly w.
Proof.
  unfold MediaHandler.get_media_info.
  repeat case_match; simplify_eq/=; done.
Qed.

(** The [finally] clause removes the copy that a successful transfer
    has put at the local path. *)
Lemma remove_temp_file_removes local_path w c :
  fs w !! local_path = Some c →
  local_path ∉ readonly w →
  ∃ w', RemoteMediaHandler.remove_temp_file local_path w = (Returned (), w') ∧
        fs w' = delete local_path (fs w).
Proof.
  intros Hf Hro. unfold RemoteMediaHandler.remove_temp_file, os_path_exists, os_remove.
  rewrite Hf, bool_decide_eq_true_2 by eauto.
  rewrite bool_decide_eq_false_2 by done. eauto.
Qed.

Lemma remote_create_thumbnail_ok self filepath c w :
  let local_path := RemoteMediaHandler.local_path_of self filepath in
  local_path ∉ readonly w →
  ∃ t self' w',
    RemoteMediaHandler.create_thumbnail self filepath (RemoteMediaHandler.ScpOk c) w
      = (Returned t, self', w') ∧
    fs w' = delete local_path (fs w).
Proof.
  intros local_path Hro. unfold RemoteMediaHandler.create_thumbnail.
  fold local_path. simpl.
  pose proof (create_thumbnail_fs (RemoteMediaHandler.base self) local_path
                (set_fs <[local_path:=c]> w)) as [Hfs Hro'].
  destruct (MediaHandler.create_thumbnail _ _ _) as [[t base'] w1]. simpl in *.
  destruct (remove_temp_file_removes local_path w1 c) as (w2 & -> & Hfs2).
  - rewrite Hfs. apply lookup_insert_eq.
  - by rewrite Hro'.
  - eexists _, _, _. split; [done|]. by rewrite Hfs2, Hfs, delete_insert_eq.
Qed.

Lemma remote_get_media_info_ok self filepath c w :
  let local_path := RemoteMediaHandler.local_path_of self filepath in
  local_path ∉ readonly w →
  ∃ info w',
    RemoteMediaHandler.get_media_info self filepath (RemoteMediaHandler.ScpOk c) w
      = (Returned info, w') ∧
    fs w' = delete local_path (fs w).
Proof.
  intros local_path Hro. unfold RemoteMediaHandler.get_media_info.
  fold local_path. simpl.
  pose proof (get_media_info_fs (RemoteMediaHandler.base self) local_path
                (set_fs <[local_path:=c]> w)) as [Hfs Hro'].
  destruct (get_media_info_returns (RemoteMediaHandler.base self) local_path
              (set_fs <[local_path:=c]> w)) as [info Hinfo].
  destruct (MediaHandler.get_media_info _ _ _) as [r w1]. simpl in *. subst r.
  destruct (remove_temp_file_removes local_path w1 c) as (w2 & -> & Hfs2).
  - rewrite Hfs. apply lookup_insert_eq.
  - by rewrite Hro'.
  - eexists _, _. split; [done|]. by rewrite Hfs2, Hfs, delete_insert_eq.
Qed.

(** The scratch area of a world whose files are those of [w] without
    one path. *)
Lemma scratch_delete self w w' local_path :
  fs w' = delete local_path (fs w) →
  RemoteMediaHandler.scratch self w' = delete local_path (RemoteMediaHandler.scratch self w).
Proof.
  intros Hfs. unfold RemoteMediaHandler.scratch. rewrite Hfs.
  by rewrite map_filter_delete.
Qed.

Lemma scratch_cleanup self w :
  RemoteMediaHandler.scratch self (RemoteMediaHandler.cleanup self w) = ∅.
Proof.
  unfold RemoteMediaHandler.scratch, RemoteMediaHandler.cleanup. simpl.
  apply map_empty_filter_2. intros p c [Hc Hp]%map_lookup_filter_Some.
  simpl in *. congruence.
Qed.

End Remote.

Section RemoteFailure.
Context `{Codec}.

(** What the two wrapped operations do when the transfer fails: the
    result says so, the local operation is not run, and the files are
    left as the transfer left them. *)
Lemma remote_create_thumbnail_failed self filepath left_behind w :
  ∃ w',
    RemoteMediaHandler.create_thumbnail self filepath
      (RemoteMediaHandler.ScpFailed left_behind) w = (Returned None, self, w') ∧
    decoder_calls w' = decoder_calls w ∧ next_obj w' = next_obj w ∧
    fs w' = match left_behind with
            | Some c => <[RemoteMediaHandler.local_path_of self filepath := c]> (fs w)
            | None => fs w
            end.
Proof.
  unfold RemoteMediaHandler.create_thumbnail.
  destruct left_behind as [c|]; simpl; eauto.
Qed.

Lemma remote_get_media_info_failed self filepath left_behind w :
  ∃ w',
    RemoteMediaHandler.get_media_info self filepath
      (RemoteMediaHandler.ScpFailed left_behind) w
      = (Returned {[ "error" := VStr "Could not download file" ]}, w') ∧
    decoder_calls w' = decoder_calls w ∧
    fs w' = match left_behind with
            | Some c => <[RemoteMediaHandler.local_path_of self filepath := c]> (fs w)
            | None => fs w
            end.
Proof.
  unfold RemoteMediaHandler.get_media_info.
  destruct left_behind as [c|]; simpl; eauto.
Qed.

(** What a miss computes depends on the file system only through the
    contents of the requested file. *)
Lemma create_thumbnail_own_contents self filepath w1 w2 :
  MediaHandler.cache self !! filepath = None →
  fs w1 !! filepath = fs w2 !! filepath →
  photo <$> (MediaHandler.create_thumbnail self filepath w1).1.1 =
  photo <$> (MediaHandler.create_thumbnail self filepath w2).1.1.
Proof.
  intros Hc Hfs. unfold MediaHandler.create_thumbnail. rewrite Hc.
  unfold MediaHandler._create_video_thumbnail, MediaHandler._create_image_thumbnail.
  simpl. rewrite Hfs.
  repeat case_match; simplify_eq/=; done.
Qed.

End RemoteFailure.

(** C3, as stated, fails for open-externally: the copy that
    [_open_file_externally] downloads is handed to the system's opener
    and stays in the scratch area. *)
Lemma open_externally_copy_stays_in_scratch :
  let w0 := Demo.world [] in
  let st :=
    RemoteMediaViewer._open_file_externally demo_remote_viewer "/srv/clips/a.mp4"
      (scp_ok "VID-a") w0 in
  RemoteMediaHandler.scratch demo_remote w0 = ∅ ∧
  RemoteMediaViewer.status_var st.1 = "Opened a.mp4" ∧
  log st.2 = [OpenedExternally "/tmp/media_bridge_k3/a.mp4"] ∧
  RemoteMediaHandler.scratch demo_remote st.2
    = demo_files [("/tmp/media_bridge_k3/a.mp4", "VID-a")] ∧
  RemoteMediaHandler.scratch demo_remote st.2 ≠ ∅.
Proof.
  intros w0 st. repeat split; try (vm_compute; reflexivity).
  intros Hempty.
  assert (RemoteMediaHandler.scratch demo_remote st.2 !! "/tmp/media_bridge_k3/a.mp4"
          = Some "VID-a") as Hcopy by (vm_compute; reflexivity).
  by rewrite Hempty in Hcopy.
Qed.

(** C3, amended.  For every remote metadata or thumbnail access whose
    transfer succeeds (and whose scratch copy the process may remove),
    the operation returns and the scratch copy is gone when it does,
    whether the wrapped local operation succeeded or failed: the local
    files are those from before the access, without the local path, so a
    scratch area that was empty stays empty.  Open-externally leaves the
    copy it downloaded in the scratch area; it is removed when the
    session is closed, which empties the scratch area. *)
Theorem scratch_copy_removed_after_info_and_thumbnail `{Codec}
    (self : RemoteMediaHandler.t) (filepath : string) (c : content)
    (w : World) (status : string) :
  let local_path := RemoteMediaHandler.local_path_of self filepath in
  local_path ∉ readonly w →
  (∃ t self' w',
     RemoteMediaHandler.create_thumbnail self filepath (RemoteMediaHandler.ScpOk c) w
       = (Returned t, self', w') ∧
     fs w' = delete local_path (fs w) ∧
     (RemoteMediaHandler.scratch self w = ∅ → RemoteMediaHandler.scratch self w' = ∅)) ∧
  (∃ info w',
     RemoteMediaHandler.get_media_info self filepath (RemoteMediaHandler.ScpOk c) w
       = (Returned info, w') ∧
     fs w' = delete local_path (fs w) ∧
     (RemoteMediaHandler.scratch self w = ∅ → RemoteMediaHandler.scratch self w' = ∅)) ∧
  (let viewer :=
     {| RemoteMediaViewer.remote_handler := self;
        RemoteMediaViewer.status_var := status |} in
   let '(viewer', w') :=
     RemoteMediaViewer._open_file_externally viewer filepath
       (RemoteMediaHandler.ScpOk c) w in
   RemoteMediaHandler.scratch self w' !! local_path = Some c ∧
   RemoteMediaHandler.scratch self (RemoteMediaViewer.close viewer' w') = ∅).
Proof.
  intros local_path Hro. split; [|split].
  - destruct (remote_create_thumbnail_ok self filepath c w Hro)
      as (t & self' & w' & Heq & Hfs).
    exists t, self', w'. split; [done|]. split; [done|].
    intros Hempty. rewrite (scratch_delete self w w' local_path Hfs), Hempty.
    apply delete_empty.
  - destruct (remote_get_media_info_ok self filepath c w Hro)
      as (info & w' & Heq & Hfs).
    exists info, w'. split; [done|]. split; [done|].
    intros Hempty. rewrite (scratch_delete self w w' local_path Hfs), Hempty.
    apply delete_empty.
  - simpl. split; [|apply scratch_cleanup].
    unfold RemoteMediaHandler.scratch. apply map_lookup_filter_Some. simpl.
    split; [apply lookup_insert_eq|]. apply join_basename_prefix.
Qed.

Lemma scratch_copy_removed_witness :
  let w := Demo.world [("/home/sam/notes.txt", "hello")] in
  ("/tmp/media_bridge_k3/a.jpg" ∉ readonly w) ∧
  (∃ t self' w',
    RemoteMediaHandler.create_thumbnail demo_remote "/srv/x/a.jpg" (scp_ok "IMG-x") w
      = (Returned t, self', w') ∧
    fs w' = delete "/tmp/media_bridge_k3/a.jpg" (fs w) ∧
    (RemoteMediaHandler.scratch demo_remote w = ∅ →
     RemoteMediaHandler.scratch demo_remote w' = ∅)).
Proof.
  intros w.
  assert ("/tmp/media_bridge_k3/a.jpg" ∉ readonly w) as Hro by (vm_compute; set_solver).
  split; [exact Hro|].
  exact (proj1 (scratch_copy_removed_after_info_and_thumbnail (H := Demo.codec)
                  demo_remote "/srv/x/a.jpg" "IMG-x" w "Ready" Hro)).
Defined.

(** C4, at a transfer that times out after part of the file has been
    written: both operations report the failure and run no decoder, and
    the partial files stay in the scratch area. *)
Theorem failed_transfer_leaves_partial_file :
  let w0 := Demo.world [] in
  let st1 :=
    RemoteMediaHandler.create_thumbnail demo_remote "/srv/clips/a.mp4"
      (scp_failed (Some "VI")) w0 in
  let st2 :=
    RemoteMediaHandler.get_media_info st1.1.2 "/srv/clips/b.jpg"
      (scp_failed (Some "IM")) st1.2 in
  st1.1.1 = Returned None ∧
  st2.1 = Returned {[ "error" := VStr "Could not download file" ]} ∧
  decoder_calls st2.2 = 0%nat ∧
  RemoteMediaHandler.scratch demo_remote w0 = ∅ ∧
  RemoteMediaHandler.scratch demo_remote st2.2
    = demo_files [("/tmp/media_bridge_k3/a.mp4", "VI");
                  ("/tmp/media_bridge_k3/b.jpg", "IM")].
Proof. intros w0 st1 st2. repeat split; vm_compute; reflexivity. Qed.

(** C5, at two remote files with the same base name: the thumbnail
    returned for the second one is the object made from the contents of
    the first, because the cache entry is keyed by the local path. *)
Theorem remote_thumbnails_share_entry_by_basename :
  let w0 := Demo.world [] in
  let st1 :=
    RemoteMediaHandler.create_thumbnail demo_remote "/srv/x/a.jpg" (scp_ok "IMG-x") w0 in
  let st2 :=
    RemoteMediaHandler.create_thumbnail st1.1.2 "/srv/y/a.jpg" (scp_ok "IMG-y") st1.2 in
  let alone :=
    RemoteMediaHandler.create_thumbnail demo_remote "/srv/y/a.jpg" (scp_ok "IMG-y") w0 in
  st1.1.1 = Returned (Some (Demo.photo_image 0 "IMG-x")) ∧
  st2.1.1 = Returned (Some (Demo.photo_image 0 "IMG-x")) ∧
  alone.1.1 = Returned (Some (Demo.photo_image 0 "IMG-y")) ∧
  dom (MediaHandler.cache (RemoteMediaHandler.base st2.1.2))
    = {[ "/tmp/media_bridge_k3/a.jpg" ]}.
Proof. intros w0 st1 st2 alone. repeat split; vm_compute; reflexivity. Qed.

(** ** The media inspector *)

Section Inspector.
Context `{Codec}.

(** A missing file is reported in the error field. *)
Lemma get_media_info_missing self filepath w :
  fs w !! filepath = None →
  MediaHandler.get_media_info self filepath w
    = (Returned {[ "error" := VStr "File not found" ]}, w).
Proof.
  intros Hf. unfold MediaHandler.get_media_info, os_path_exists.
  rewrite Hf, bool_decide_eq_false_2 by by intros [??]. done.
Qed.

(** So is an image that cannot be decoded. *)
Lemma get_media_info_image_error self filepath w c e :
  MediaHandler.is_video_file filepath = false →
  fs w !! filepath = Some c →
  Image_open c = Raised e →
  ∃ info,
    (MediaHandler.get_media_info self filepath w).1 = Returned info ∧
    info !! "error" = Some (VStr (str_of_exn e)).
Proof.
  intros Hv Hf He. unfold MediaHandler.get_media_info, os_path_exists, os_path_getsize.
  rewrite Hf, bool_decide_eq_true_2 by eauto. simpl.
  unfold MediaHandler.get_media_info_try. rewrite Hv, Hf, He. simpl.
  eexists. split; [done|]. apply lookup_insert_eq.
Qed.

(** A video whose capture does not open yields the record made before
    the [try], unchanged: no dimensions and no error. *)
Lemma get_media_info_unopened_video self filepath w c :
  MediaHandler.is_video_file filepath = true →
  fs w !! filepath = Some c →
  VideoCapture c = None →
  ∃ info,
    (MediaHandler.get_media_info self filepath w).1 = Returned info ∧
    info !! "error" = None ∧ info !! "width" = None ∧
    info !! "type" = Some (VStr "video").
Proof.
  intros Hv Hf Hcap. unfold MediaHandler.get_media_info, os_path_exists, os_path_getsize.
  rewrite Hf, bool_decide_eq_true_2 by eauto. simpl.
  unfold MediaHandler.get_media_info_try. rewrite Hv, Hf. simpl. rewrite Hcap.
  eexists. split; [done|]. by vm_compute.
Qed.

End Inspector.

(** C8, at a video file that exists and that the decoder cannot open:
    [get_media_info] returns a record (it never raises, see
    [get_media_info_returns]), but the record has no error field. *)
Theorem get_media_info_unopened_video_has_no_error :
  let w := Demo.world [("/d/clip.mp4", "not a video")] in
  let info : gmap string pyval :=
    {[ "filepath" := VStr "/d/clip.mp4"; "filename" := VStr "clip.mp4";
       "size" := VInt 11; "type" := VStr "video"; "supported" := VBool true ]} in
  (MediaHandler.get_media_info MediaHandler.init "/d/clip.mp4" w).1 = Returned info ∧
  info !! "error" = None.
Proof. intros w info. split; vm_compute; reflexivity. Qed.

(** ** The selection state of the headless viewer *)

Section CLI.
Context `{Codec}.

Import CLIMediaViewer.

Lemma file_number_elem_of self num filepath :
  file_number self num = Some filepath → filepath ∈ media_files self.
Proof.
  unfold file_number. case_match; [|done]. apply list_elem_of_lookup_2.
Qed.

Lemma select_files_fold_invariant numbers self cnt out :
  selection_invariant (media_files self) (selected_files self) →
  let '(self', _, _) :=
    foldl (λ '(self, selected_count, out) num,
             match file_number self num with
             | Some filepath =>
                 (set_selected_files ({[filepath]} ∪ selected_files self) self,
                  S selected_count, out)
             | None => (self, selected_count,
                        out ++ ["Invalid file number: " +:+ pretty num])
             end)
          (self, cnt, out) numbers in
  media_files self' = media_files self ∧
  selection_invariant (media_files self') (selected_files self').
Proof.
  revert self cnt out. induction numbers as [|num numbers IH]; intros self cnt out Hinv.
  { done. }
  simpl. destruct (file_number self num) as [filepath|] eqn:Hnum.
  - specialize (IH (set_selected_files ({[filepath]} ∪ selected_files self) self)
                   (S cnt) out).
    simpl in IH. apply IH. destruct Hinv as [Hnd Hsub]. split; [done|].
    intros f [->%elem_of_singleton|Hf]%elem_of_union; [|by apply Hsub].
    by eapply file_number_elem_of.
  - by apply IH.
Qed.

Lemma select_files_invariant self numbers :
  selection_invariant (media_files self) (selected_files self) →
  selection_invariant (media_files (select_files self numbers).1)
                      (selected_files (select_files self numbers).1).
Proof.
  intros Hinv. unfold select_files.
  pose proof (select_files_fold_invariant numbers self O [] Hinv) as Hfold.
  destruct (foldl _ _ _) as [[self' cnt] out]. simpl. tauto.
Qed.

Lemma deselect_files_fold_invariant numbers self cnt out :
  selection_invariant (media_files self) (selected_files self) →
  let '(self', _, _) :=
    foldl (λ '(self, deselected_count, out) num,
             match file_number self num with
             | Some filepath =>
                 if bool_decide (filepath ∈ selected_files self)
                 then (set_selected_files (selected_files self ∖ {[filepath]}) self,
                       S deselected_count, out)
                 else (self, deselected_count, out)
             | None => (self, deselected_count,
                        out ++ ["Invalid file number: " +:+ pretty num])
             end)
          (self, cnt, out) numbers in
  selection_invariant (media_files self') (selected_files self').
Proof.
  revert self cnt out. induction numbers as [|num numbers IH]; intros self cnt out Hinv.
  { done. }
  simpl. destruct (file_number self num) as [filepath|] eqn:Hnum; [|by apply IH].
  case_bool_decide; [|by apply IH].
  specialize (IH (set_selected_files (selected_files self ∖ {[filepath]}) self)
                 (S cnt) out).
  apply IH. destruct Hinv as [Hnd Hsub]. split; [done|]. simpl.
  intros f [Hf _]%elem_of_difference. by apply Hsub.
Qed.

Lemma deselect_files_invariant self numbers :
  selection_invariant (media_files self) (selected_files self) →
  selection_invariant (media_files (deselect_files self numbers).1)
                      (selected_files (deselect_files self numbers).1).
Proof.
  intros Hinv. unfold deselect_files.
  pose proof (deselect_files_fold_invariant numbers self O [] Hinv) as Hfold.
  by destruct (foldl _ _ _) as [[self' cnt] out].
Qed.

Lemma keep_selected_invariant self :
  selection_invariant (media_files self) (selected_files self) →
  selection_invariant (media_files (keep_selected self).1)
                      (selected_files (keep_selected self).1).
Proof.
  intros [Hnd Hsub]. unfold keep_selected. case_bool_decide; [done|]. simpl.
  split; [by apply NoDup_filter|]. intros f Hf. by apply elem_of_empty in Hf.
Qed.

Lemma filter_all {A} (P : A → Prop) `{∀ x, Decision (P x)} (l : list A) :
  Forall P l → filter P l = l.
Proof.
  induction 1 as [|x l Hx Hl IH]; [done|].
  by rewrite filter_cons_True, IH.
Qed.

Lemma filter_ext_elem {A} (P Q : A → Prop) `{∀ x, Decision (P x)}
    `{∀ x, Decision (Q x)} (l : list A) :
  (∀ x, x ∈ l → P x ↔ Q x) → filter P l = filter Q l.
Proof.
  induction l as [|x l IH]; intros Hext; [done|].
  rewrite !filter_cons.
  rewrite IH by (intros y Hy; apply Hext; by right).
  destruct (decide (P x)) as [HP|HP], (decide (Q x)) as [HQ|HQ]; try done;
    exfalso; apply (Hext x) in HP || apply (Hext x) in HQ; try done; by left.
Qed.

(** [l.remove(x)] on a list without duplicates. *)
Lemma list_remove_NoDup x l :
  NoDup l → x ∈ l → list_remove x l = Some (filter (λ y, y ≠ x) l).
Proof.
  induction l as [|y l IH]; intros Hnd Hx; [by apply elem_of_nil in Hx|].
  apply NoDup_cons in Hnd as [Hy Hnd]. simpl.
  destruct (decide (x = y)) as [->|Hne].
  - rewrite filter_cons_False by naive_solver. f_equal.
    symmetry. apply filter_all, Forall_forall. intros z Hz ->. done.
  - rewrite filter_cons_True by naive_solver.
    apply elem_of_cons in Hx as [?|Hx]; [done|]. by rewrite IH.
Qed.

Lemma os_remove_removable w f :
  removable w f = true → os_remove w f = (Returned (), set_fs (delete f) w).
Proof.
  unfold removable, os_remove.
  intros [[c Hc]%bool_decide_eq_true Hro%negb_true_iff]%andb_true_iff.
  by rewrite Hc, Hro.
Qed.

Lemma os_remove_not_removable w f :
  removable w f = false → ∃ e, os_remove w f = (Raised e, w).
Proof.
  unfold removable, os_remove. intros Hr.
  destruct (fs w !! f) as [c|] eqn:Hc; [|eauto].
  rewrite bool_decide_eq_true_2 in Hr by eauto. simpl in Hr.
  apply negb_false_iff in Hr. rewrite Hr. eauto.
Qed.

Lemma removable_after_delete w f g :
  g ≠ f → removable (set_fs (delete f) w) g = removable w g.
Proof. intros Hne. unfold removable. simpl. by rewrite lookup_delete_ne. Qed.

(** The loop of [delete_selected]: the files that [os.remove] accepts
    are counted, and leave the list, the selection and the disk; the
    others stay where they are. *)
Lemma delete_loop order : ∀ self w cnt out,
  NoDup order →
  NoDup (media_files self) →
  (∀ f, f ∈ order → f ∈ selected_files self) →
  (∀ f, f ∈ selected_files self → f ∈ media_files self) →
  let deleted := filter (λ f, removable w f = true) order in
  ∃ self' w' out',
    foldl (λ st filepath, delete_one filepath st) (self, w, cnt, out) order
      = (self', w', (cnt + length deleted)%nat, out') ∧
    media_files self' = filter (λ f, f ∉ deleted) (media_files self) ∧
    selected_files self' = selected_files self ∖ list_to_set deleted ∧
    (∀ p, fs w' !! p = if bool_decide (p ∈ deleted) then None else fs w !! p) ∧
    readonly w' = readonly w.
Proof.
  induction order as [|f rest IH]; intros self w cnt out Hnd Hndl Hsel Hsub deleted.
  { exists self, w, out. subst deleted. simpl. rewrite Nat.add_0_r.
    split; [done|]. split.
    { symmetry. apply filter_all, Forall_forall. intros ?? []%elem_of_nil. }
    split; [set_solver|]. done. }
  apply NoDup_cons in Hnd as [Hf Hnd]. simpl.
  assert (f ∈ selected_files self) as Hfsel by (apply Hsel; by left).
  destruct (removable w f) eqn:Hrem.
  - rewrite (os_remove_removable _ _ Hrem).
    rewrite (list_remove_NoDup f (media_files self)) by auto. simpl.
    rewrite bool_decide_eq_true_2 by done.
    set (self1 := set_selected_files _ _). set (w1 := set_fs _ w).
    destruct (IH self1 w1 (S cnt) (out ++ ["Deleted: " +:+ Py.basename f]))
      as (self' & w' & out' & Hfold & Hfiles & Hselected & Hfs & Hro); simpl.
    { done. }
    { by apply NoDup_filter. }
    { intros g Hg. apply elem_of_difference. split; [apply Hsel; by right|].
      intros ->%elem_of_singleton. done. }
    { intros g [Hg Hne]%elem_of_difference. apply list_elem_of_filter.
      split; [set_solver|by apply Hsub]. }
    assert (filter (λ g, removable w1 g = true) rest
            = filter (λ g, removable w g = true) rest) as Hsame.
    { apply filter_ext_elem. intros g Hg. unfold w1.
      rewrite removable_after_delete; [done|]. by intros ->. }
    rewrite Hsame in Hfold, Hfiles, Hselected, Hfs.
    subst deleted. rewrite filter_cons_True by done.
    set (rest_deleted := filter (λ g, removable w g = true) rest) in *.
    exists self', w', out'. split; [|split; [|split; [|split]]].
    + rewrite Hfold. simpl. do 3 f_equal. lia.
    + rewrite Hfiles. simpl. rewrite list_filter_filter.
      apply list_filter_iff. intros g. rewrite elem_of_cons. naive_solver.
    + rewrite Hselected. simpl. set_solver.
    + intros p. rewrite Hfs. simpl.
      destruct (decide (p = f)) as [->|Hne].
      * rewrite (bool_decide_eq_true_2 (f ∈ f :: rest_deleted)) by by left.
        case_bool_decide; [done|]. apply lookup_delete_eq.
      * rewrite lookup_delete_ne by done.
        rewrite (bool_decide_ext (p ∈ f :: rest_deleted) (p ∈ rest_deleted)); [done|].
        rewrite elem_of_cons. naive_solver.
    + by rewrite Hro.
  - destruct (os_remove_not_removable _ _ Hrem) as [e ->].
    destruct (IH self w cnt
                (out ++ ["Error deleting " +:+ Py.basename f +:+ ": " +:+ str_of_exn e]))
      as (self' & w' & out' & Hfold & Hfiles & Hselected & Hfs & Hro); try done.
    { intros g Hg. apply Hsel. by right. }
    subst deleted. rewrite filter_cons_False by (by rewrite Hrem).
    exists self', w', out'. done.
Qed.

Lemma delete_selected_invariant self response order w :
  order ≡ₚ elements (selected_files self) →
  selection_invariant (media_files self) (selected_files self) →
  selection_invariant (media_files (delete_selected self response order w).1.1)
                      (selected_files (delete_selected self response order w).1.1).
Proof.
  intros Horder [Hnd Hsub]. unfold delete_selected.
  case_bool_decide; [done|]. case_bool_decide; simpl; [|done].
  destruct (delete_loop order self w O
              (("You are about to DELETE " +:+ pretty (size (selected_files self))
                +:+ " files:") ::
               ((λ filepath, "  - " +:+ Py.basename filepath) <$> order)))
    as (self' & w' & out' & -> & Hfiles & Hselected & _); try done.
  { rewrite Horder. apply NoDup_elements. }
  { intros f. rewrite Horder. apply elem_of_elements. }
  simpl. split.
  - rewrite Hfiles. by apply NoDup_filter.
  - intros f. rewrite Hselected, Hfiles.
    intros [Hf Hnot]%elem_of_difference. apply list_elem_of_filter.
    split; [|by apply Hsub]. by rewrite elem_of_list_to_set in Hnot.
Qed.

(** Every turn of the command loop keeps the invariant. *)
Lemma run_command_invariant c self w :
  match c with
  | CmdRemove _ order => order ≡ₚ elements (selected_files self)
  | _ => True
  end →
  selection_invariant (media_files self) (selected_files self) →
  selection_invariant (media_files (run_command c self w).1)
                      (selected_files (run_command c self w).1).
Proof.
  intros Hc Hinv. destruct c; simpl; try done.
  - by apply select_files_invariant.
  - by apply deselect_files_invariant.
  - destruct Hinv as [Hnd _]. split; [done|].
    intros f. by rewrite elem_of_list_to_set.
  - destruct Hinv as [Hnd _]. split; [done|]. intros f Hf. by apply elem_of_empty in Hf.
  - by apply keep_selected_invariant.
  - pose proof (delete_selected_invariant self response order w Hc Hinv) as Hd.
    by destruct (delete_selected self response order w) as [[self' w'] out].
Qed.

End CLI.



Lemma populate_grid_media_files `{Codec} (self : MediaBridgeViewer.t) :
  MediaBridgeViewer.media_files (MediaBridgeViewer._populate_grid self)
  = MediaBridgeViewer.media_files self.
Proof.
  unfold MediaBridgeViewer._populate_grid.
  by destruct (MediaBridgeViewer.media_files self) eqn:E.
Qed.

Lemma populate_grid_selected_files `{Codec} (self : MediaBridgeViewer.t) :
  MediaBridgeViewer.selected_files (MediaBridgeViewer._populate_grid self)
  = MediaBridgeViewer.selected_files self.
Proof.
  unfold MediaBridgeViewer._populate_grid.
  by destruct (MediaBridgeViewer.media_files self) eqn:E.
Qed.

(** C10, with the part of the selection that is in the file list.  In
    both viewers, keep-only-selected with a selection that is not empty
    replaces the file list by its selected files, in their original
    order, and empties the selection: the new list holds the files of
    the old list that were selected, all the files that were selected
    when the list contained them all.  With an empty selection the
    viewer is left as it is. *)
Theorem keep_selected_keeps_exactly_the_selection `{Codec}
    (cli : CLIMediaViewer.t) (gui : MediaBridgeViewer.t) :
  let cli' := (CLIMediaViewer.keep_selected cli).1 in
  let gui' := MediaBridgeViewer._keep_selected gui in
  (if decide (CLIMediaViewer.selected_files cli = ∅) then cli' = cli
   else
     CLIMediaViewer.media_files cli'
       = filter (λ f, f ∈ CLIMediaViewer.selected_files cli)
                (CLIMediaViewer.media_files cli) ∧
     sublist (CLIMediaViewer.media_files cli') (CLIMediaViewer.media_files cli) ∧
     (∀ f, f ∈ CLIMediaViewer.media_files cli' ↔
           f ∈ CLIMediaViewer.selected_files cli ∧
           f ∈ CLIMediaViewer.media_files cli) ∧
     ((∀ f, f ∈ CLIMediaViewer.selected_files cli →
            f ∈ CLIMediaViewer.media_files cli) →
      ∀ f, f ∈ CLIMediaViewer.media_files cli' ↔
           f ∈ CLIMediaViewer.selected_files cli) ∧
     CLIMediaViewer.selected_files cli' = ∅) ∧
  (if decide (MediaBridgeViewer.selected_files gui = ∅) then gui' = gui
   else
     MediaBridgeViewer.media_files gui'
       = filter (λ f, f ∈ MediaBridgeViewer.selected_files gui)
                (MediaBridgeViewer.media_files gui) ∧
     sublist (MediaBridgeViewer.media_files gui') (MediaBridgeViewer.media_files gui) ∧
     (∀ f, f ∈ MediaBridgeViewer.media_files gui' ↔
           f ∈ MediaBridgeViewer.selected_files gui ∧
           f ∈ MediaBridgeViewer.media_files gui) ∧
     ((∀ f, f ∈ MediaBridgeViewer.selected_files gui →
            f ∈ MediaBridgeViewer.media_files gui) →
      ∀ f, f ∈ MediaBridgeViewer.media_files gui' ↔
           f ∈ MediaBridgeViewer.selected_files gui) ∧
     MediaBridgeViewer.selected_files gui' = ∅).
Proof.
  intros cli' gui'. split.
  - subst cli'. unfold CLIMediaViewer.keep_selected.
    destruct (decide (CLIMediaViewer.selected_files cli = ∅)) as [He|Hne].
    + by rewrite bool_decide_eq_true_2.
    + rewrite bool_decide_eq_false_2 by done. simpl.
      split; [done|]. split; [apply sublist_filter|].
      split; [|split; [|done]].
      * intros f. by rewrite list_elem_of_filter.
      * intros Hsub f. rewrite list_elem_of_filter. naive_solver.
  - subst gui'. unfold MediaBridgeViewer._keep_selected.
    destruct (decide (MediaBridgeViewer.selected_files gui = ∅)) as [He|Hne].
    + by rewrite bool_decide_eq_true_2.
    + rewrite bool_decide_eq_false_2 by done.
      rewrite populate_grid_media_files, populate_grid_selected_files. simpl.
      split; [done|]. split; [apply sublist_filter|].
      split; [|split; [|done]].
      * intros f. by rewrite list_elem_of_filter.
      * intros Hsub f. rewrite list_elem_of_filter. naive_solver.
Qed.

Lemma keep_selected_witness :
  let cli := demo_cli ["/d/a.jpg"; "/d/b.png"; "/d/c.mp4"] ["/d/c.mp4"; "/d/a.jpg"] in
  let gui := demo_gui ["/d/a.jpg"; "/d/b.png"; "/d/c.mp4"] ["/d/c.mp4"; "/d/a.jpg"] in
  CLIMediaViewer.media_files (CLIMediaViewer.keep_selected cli).1
    = ["/d/a.jpg"; "/d/c.mp4"] ∧
  (∀ f, f ∈ CLIMediaViewer.media_files (CLIMediaViewer.keep_selected cli).1 ↔
        f ∈ CLIMediaViewer.selected_files cli) ∧
  (∀ f, f ∈ MediaBridgeViewer.media_files (MediaBridgeViewer._keep_selected gui) ↔
        f ∈ MediaBridgeViewer.selected_files gui).
Proof.
  intros cli gui.
  split; [vm_compute; reflexivity|].
  pose proof (keep_selected_keeps_exactly_the_selection (H := Demo.codec) cli gui)
    as Hthm.
  destruct Hthm as [Hc Hg].
  destruct (decide (CLIMediaViewer.selected_files cli = ∅)) as [He|_];
    [exfalso; revert He; compute_done|].
  destruct (decide (MediaBridgeViewer.selected_files gui = ∅)) as [He|_];
    [exfalso; revert He; compute_done|].
  destruct Hc as (_ & _ & _ & Hc & _). destruct Hg as (_ & _ & _ & Hg & _).
  split; [apply Hc|apply Hg].
  - intros f. unfold cli, demo_cli. simpl. set_solver.
  - intros f. unfold gui, demo_gui. simpl. set_solver.
Defined.

(** ** Loading a directory and the selection *)

(** In the window, [load_directory] empties the selection before the
    worker replaces the file list. *)
Lemma gui_load_directory_clears_selection `{Codec}
    (self : MediaBridgeViewer.t) (directory : string) :
  MediaBridgeViewer.selected_files (MediaBridgeViewer.load_directory self directory true)
    = ∅.
Proof. done. Qed.

(** In the headless viewer it leaves the selection as it is. *)
Lemma cli_load_directory_selection `{Codec}
    (self : CLIMediaViewer.t) (directory : string) (recursive : bool)
    (listing : option (list entry)) :
  CLIMediaViewer.selected_files
    (CLIMediaViewer.load_directory self directory recursive listing).1.2
  = CLIMediaViewer.selected_files self.
Proof.
  unfold CLIMediaViewer.load_directory. destruct listing as [es|]; [|done].
  simpl. by destruct (MediaHandler.get_files_in_directory _ _ _).
Qed.

(** The first load of [main] establishes the invariant of the command
    loop, and the loop keeps it. *)
Lemma cli_load_directory_invariant `{Codec}
    (directory : string) (recursive : bool) (es : list entry) :
  wf_tree es = true →
  let self :=
    (CLIMediaViewer.load_directory CLIMediaViewer.init directory recursive
       (Some es)).1.2 in
  selection_invariant (CLIMediaViewer.media_files self)
                      (CLIMediaViewer.selected_files self).
Proof.
  intros Hwf self.
  assert (CLIMediaViewer.media_files self
          = MediaHandler.get_files_in_directory directory (Some es) recursive
          ∧ CLIMediaViewer.selected_files self = ∅) as [-> ->].
  { unfold self, CLIMediaViewer.load_directory. simpl.
    by destruct (MediaHandler.get_files_in_directory _ _ _). }
  split.
  - unfold MediaHandler.get_files_in_directory, Py.sorted.
    rewrite merge_sort_Permutation. by apply collect_files_NoDup.
  - intros f Hf. by apply elem_of_empty in Hf.
Qed.

Lemma cli_reachable_invariant `{Codec} (self : CLIMediaViewer.t) :
  cli_reachable self →
  selection_invariant (CLIMediaViewer.media_files self)
                      (CLIMediaViewer.selected_files self).
Proof.
  induction 1 as [directory recursive es Hwf _|c self w _ IH Hc].
  - by apply cli_load_directory_invariant.
  - by apply run_command_invariant.
Qed.

(** In the window, the file list is replaced by the worker that
    [load_directory] starts, after the selection was emptied: a
    select-all handled in between selects the files of the old list,
    which the worker then replaces. *)
Example gui_select_all_while_loading :
  let v1 :=
    MediaBridgeViewer.load_directory_and_wait (H := Demo.codec) MediaBridgeViewer.init
      "/d" (Some [EFile "a.jpg" true]) in
  let v2 := MediaBridgeViewer.load_directory v1 "/e" true in
  let v3 := MediaBridgeViewer._select_all v2 in
  let v4 := MediaBridgeViewer.load_files v3 "/e" (Some [EFile "b.png" true]) in
  MediaBridgeViewer.selected_files v2 = ∅ ∧
  MediaBridgeViewer.media_files v4 = ["/e/b.png"] ∧
  MediaBridgeViewer.selected_files v4 = {[ "/d/a.jpg" ]}.
Proof. intros v1 v2 v3 v4. repeat split; vm_compute; reflexivity. Qed.

(** C2, at a second [load_directory] on a headless viewer with a
    selection: the call succeeds and replaces the file list, and the
    file that was selected is still selected although it is no longer
    in the list. *)
Theorem cli_load_directory_keeps_stale_selection :
  let v0 := CLIMediaViewer.init (H := Demo.codec) in
  let st1 := CLIMediaViewer.load_directory v0 "/d" false (Some [EFile "a.jpg" true]) in
  let v2 := (CLIMediaViewer.select_files st1.1.2 [1]).1 in
  let st3 := CLIMediaViewer.load_directory v2 "/e" false (Some [EFile "b.png" true]) in
  st1.1.1 = true ∧ st3.1.1 = true ∧
  CLIMediaViewer.media_files v2 = ["/d/a.jpg"] ∧
  CLIMediaViewer.selected_files v2 = {[ "/d/a.jpg" ]} ∧
  CLIMediaViewer.media_files st3.1.2 = ["/e/b.png"] ∧
  CLIMediaViewer.selected_files st3.1.2 = {[ "/d/a.jpg" ]} ∧
  ¬ (∀ f, f ∈ CLIMediaViewer.selected_files st3.1.2 →
          f ∈ CLIMediaViewer.media_files st3.1.2).
Proof.
  intros v0 st1 v2 st3.
  assert (CLIMediaViewer.media_files st3.1.2 = ["/e/b.png"]) as Hfiles
    by (vm_compute; reflexivity).
  assert (CLIMediaViewer.selected_files st3.1.2 = {[ "/d/a.jpg" ]}) as Hsel
    by (vm_compute; reflexivity).
  repeat split; try (vm_compute; reflexivity).
  rewrite Hfiles, Hsel. clear. intros Hall.
  assert ("/d/a.jpg" ∈ ["/e/b.png"]) as Hin by (apply Hall; set_solver).
  by apply list_elem_of_singleton in Hin.
Qed.


(** C10, on viewers with a selected file out of their list: the headless
    viewer after a second [load_directory], and the window after a
    select-all handled while a directory was loading.  The selection is
    not empty, and keep-only-selected leaves an empty list, not the file
    that was selected. *)
Theorem keep_selected_drops_unlisted_selection :
  let c0 := CLIMediaViewer.init (H := Demo.codec) in
  let st1 := CLIMediaViewer.load_directory c0 "/d" false (Some [EFile "a.jpg" true]) in
  let c2 := (CLIMediaViewer.select_files st1.1.2 [1]).1 in
  let cli :=
    (CLIMediaViewer.load_directory c2 "/e" false (Some [EFile "b.png" true])).1.2 in
  let v1 :=
    MediaBridgeViewer.load_directory_and_wait (H := Demo.codec) MediaBridgeViewer.init
      "/d" (Some [EFile "a.jpg" true]) in
  let v2 := MediaBridgeViewer.load_directory v1 "/e" true in
  let v3 := MediaBridgeViewer._select_all v2 in
  let gui := MediaBridgeViewer.load_files v3 "/e" (Some [EFile "b.png" true]) in
  (CLIMediaViewer.media_files cli = ["/e/b.png"] ∧
   CLIMediaViewer.selected_files cli = {[ "/d/a.jpg" ]} ∧
   CLIMediaViewer.media_files (CLIMediaViewer.keep_selected cli).1 = [] ∧
   CLIMediaViewer.selected_files (CLIMediaViewer.keep_selected cli).1 = ∅ ∧
   (CLIMediaViewer.keep_selected cli).2 = ["Kept 0 files, hidden 1 files."]) ∧
  (MediaBridgeViewer.media_files gui = ["/e/b.png"] ∧
   MediaBridgeViewer.selected_files gui = {[ "/d/a.jpg" ]} ∧
   MediaBridgeViewer.media_files (MediaBridgeViewer._keep_selected gui) = [] ∧
   MediaBridgeViewer.selected_files (MediaBridgeViewer._keep_selected gui) = ∅).
Proof. intros c0 st1 c2 cli v1 v2 v3 gui. repeat split; vm_compute; reflexivity. Qed.

(** ** Binary64 arithmetic: the seek target of the video thumbnail *)

Section Digits.

Lemma digits2_pos_bounds p :
  2 ^ (Z.pos (digits2_pos p) - 1) <= Z.pos p < 2 ^ Z.pos (digits2_pos p).
Proof.
  induction p as [p IH|p IH|]; simpl digits2_pos.
  - rewrite Pos2Z.inj_succ, (Pos2Z.inj_xI p).
    replace (Z.succ (Z.pos (digits2_pos p)) - 1) with (Z.succ (Z.pos (digits2_pos p) - 1)) by lia.
    rewrite !Z.pow_succ_r by lia. lia.
  - rewrite Pos2Z.inj_succ, (Pos2Z.inj_xO p).
    replace (Z.succ (Z.pos (digits2_pos p)) - 1) with (Z.succ (Z.pos (digits2_pos p) - 1)) by lia.
    rewrite !Z.pow_succ_r by lia. lia.
  - simpl. lia.
Qed.

Lemma digits2_pos_unique p k :
  2 ^ (k - 1) <= Z.pos p < 2 ^ k → Z.pos (digits2_pos p) = k.
Proof.
  intros [Hlo Hhi]. pose proof (digits2_pos_bounds p) as [Hlo' Hhi'].
  assert (0 < k) as Hk.
  { destruct (Z.lt_trichotomy 0 k) as [?|[<-|Hneg]]; [done|simpl in Hhi; lia|].
    rewrite Z.pow_neg_r in Hhi by lia. lia. }
  assert (Z.pos (digits2_pos p) - 1 < k) as H1.
  { apply (Z.pow_lt_mono_r_iff 2); lia. }
  assert (k - 1 < Z.pos (digits2_pos p)) as H2.
  { apply (Z.pow_lt_mono_r_iff 2); lia. }
  lia.
Qed.

End Digits.

Section Shift.

Lemma iter_pos_nat {A} (f : A → A) n x :
  iter_pos f n x = Nat.iter (Pos.to_nat n) f x.
Proof.
  revert x. induction n as [n IH|n IH|]; intros x.
  - change (iter_pos f n~1 x) with (iter_pos f n (iter_pos f n (f x))).
    rewrite !IH, Pos2Nat.inj_xI, Nat.iter_succ_r.
    replace (2 * Pos.to_nat n)%nat with (Pos.to_nat n + Pos.to_nat n)%nat by lia.
    by rewrite Nat.iter_add.
  - change (iter_pos f n~0 x) with (iter_pos f n (iter_pos f n x)).
    rewrite !IH, Pos2Nat.inj_xO.
    replace (2 * Pos.to_nat n)%nat with (Pos.to_nat n + Pos.to_nat n)%nat by lia.
    by rewrite Nat.iter_add.
  - done.
Qed.

Lemma shr_1_nonneg m r s :
  0 <= m →
  shr_1 {| shr_m := m; shr_r := r; shr_s := s |}
  = {| shr_m := m / 2; shr_r := Z.odd m; shr_s := r || s |}.
Proof.
  intros Hm. rewrite <- Z.div2_div.
  destruct m as [|[p|p|]|p]; try done; lia.
Qed.

Lemma shr_1_iter m k :
  0 <= m → (1 <= k)%nat →
  Nat.iter k shr_1 {| shr_m := m; shr_r := false; shr_s := false |} = shifted m k.
Proof.
  intros Hm Hk. induction k as [|k IH]; [lia|].
  destruct k as [|k].
  { change (Nat.iter 1 shr_1 ?r) with (shr_1 r).
    rewrite shr_1_nonneg by done. unfold shifted. simpl.
    by rewrite Z.div_1_r, Z.mod_1_r. }
  rewrite Nat.iter_succ, IH by lia. unfold shifted.
  rewrite shr_1_nonneg by (apply Z.div_pos; lia).
  set (j := Z.of_nat (S k)).
  replace (Z.of_nat (S (S k))) with (j + 1) by lia.
  replace (j + 1 - 1) with j by lia.
  assert (1 <= j) as Hj by lia.
  f_equal.
  - rewrite Z.div_div by lia. by rewrite Z.pow_add_r by lia.
  - assert (2 ^ j = 2 ^ (j - 1) * 2) as Hpow.
    { replace j with (Z.succ (j - 1)) at 1 by lia.
      rewrite Z.pow_succ_r by lia. lia. }
    rewrite Hpow, Z.rem_mul_r by lia.
    assert (0 <= m mod 2 ^ (j - 1)) by (apply Z.mod_pos_bound; lia).
    assert (0 < 2 ^ (j - 1)) by lia.
    rewrite Zmod_odd.
    destruct (Z.odd (m / 2 ^ (j - 1))); simpl.
    + symmetry. apply negb_true_iff, Z.eqb_neq. lia.
    + f_equal. f_equal. lia.
Qed.
End Shift.

Section Round.

Local Abbreviation prec := 53.
Local Abbreviation emax := 1024.

Lemma fexp_normal e : -1074 <= e - 53 → fexp prec emax e = e - 53.
Proof. unfold fexp, emin. lia. Qed.

(** An exact mantissa of [53 + n] digits loses [n] bits. *)
Lemma shr_fexp_shift m e n :
  0 < n → Zdigits2 (Z.pos m) = 53 + n → -1074 <= e + n →
  shr_fexp prec emax (Z.pos m) e loc_Exact = (shifted (Z.pos m) (Z.to_nat n), e + n).
Proof.
  intros Hn Hd He. unfold shr_fexp. rewrite Hd, fexp_normal by lia.
  replace (53 + n + e - 53 - e) with n by lia.
  destruct n as [|p|p]; try lia. unfold shr. simpl shr_record_of_loc.
  rewrite iter_pos_nat, shr_1_iter by lia. by rewrite Z2Nat.inj_pos.
Qed.

Lemma shr_fexp_noshift m e :
  Zdigits2 (Z.pos m) = 53 → -1074 <= e →
  shr_fexp prec emax (Z.pos m) e loc_Exact
  = ({| shr_m := Z.pos m; shr_r := false; shr_s := false |}, e).
Proof.
  intros Hd He. unfold shr_fexp. rewrite Hd, fexp_normal by lia.
  replace (53 + e - 53 - e) with 0 by lia. done.
Qed.

Lemma round_nearest_even_shifted m k :
  let m1 := shr_m (shifted m k) in
  let m2 := round_nearest_even m1 (loc_of_shr_record (shifted m k)) in
  m2 = m1 ∨ (m2 = m1 + 1 ∧ shr_r (shifted m k) = true).
Proof.
  unfold shifted. simpl.
  destruct (Z.odd _), (negb _); simpl; auto.
  destruct (Z.even _); auto.
Qed.

(** Rounding an exact mantissa of more than 53 digits whose value is
    below [2^53]: the result is finite, and its integer part is the
    integer part of the mantissa kept, or of its successor when the
    first bit dropped is set. *)
Lemma binary_round_aux_too_long s m e n :
  0 < n → Zdigits2 (Z.pos m) = 53 + n → -1074 <= e + n → e + n < 0 →
  ∃ m3 e3 m2,
    binary_round_aux prec emax s (Z.pos m) e loc_Exact = S754_finite s m3 e3 ∧
    Z.shiftl (Z.pos m3) e3 = m2 / 2 ^ (- (e + n)) ∧
    (m2 = Z.pos m / 2 ^ n ∨
     (m2 = Z.pos m / 2 ^ n + 1 ∧ Z.odd (Z.pos m / 2 ^ (n - 1)) = true)).
Proof.
  intros Hn Hd He Hneg. unfold binary_round_aux.
  rewrite (shr_fexp_shift m e n) by done.
  pose proof (round_nearest_even_shifted (Z.pos m) (Z.to_nat n)) as Hround.
  simpl in Hround.
  set (m2 := round_nearest_even _ _) in *.
  rewrite Z2Nat.id in Hround by lia.
  set (m1 := Z.pos m / 2 ^ n) in *.
  assert (2 ^ 52 <= m1 < 2 ^ 53) as Hm1.
  { pose proof (digits2_pos_bounds m) as Hb. simpl in Hd. rewrite Hd in Hb.
    replace (53 + n - 1) with (52 + n) in Hb by lia.
    rewrite !Z.pow_add_r in Hb by lia. unfold m1.
    assert (0 < 2 ^ n) by lia. split.
    - apply Z.div_le_lower_bound; lia.
    - apply Z.div_lt_upper_bound; lia. }
  assert (2 ^ 52 <= m2 <= 2 ^ 53) as Hm2 by lia.
  destruct m2 as [|p2|p2] eqn:Ep2; try lia.
  destruct (Z.eq_dec (Z.pos p2) (2 ^ 53)) as [Heq|Hlt].
  - rewrite (shr_fexp_shift p2 (e + n) 1); try lia.
    2:{ simpl. apply (digits2_pos_unique p2 54). rewrite Heq. simpl. lia. }
    unfold shifted. rewrite Heq. simpl shr_m.
    change (2 ^ 53 / 2 ^ Z.of_nat (Z.to_nat 1)) with (Z.pos (2 ^ 52)%positive).
    cbv iota beta.
    replace (e + n + 1 <=? 1024 - 53) with true by (symmetry; apply Z.leb_le; lia).
    eexists _, _, (2 ^ 53). split; [done|]. split.
    + rewrite Z.shiftl_div_pow2 by lia.
      replace (2 ^ 53) with (2 ^ 1 * Z.pos (2 ^ 52)%positive) by done.
      replace (- (e + n)) with (1 + - (e + n + 1)) by lia.
      rewrite Z.pow_add_r by lia.
      by rewrite Z.div_mul_cancel_l by lia.
    + rewrite <- Heq. exact Hround.
  - rewrite (shr_fexp_noshift p2 (e + n)); try lia.
    2:{ simpl. apply (digits2_pos_unique p2 53). lia. }
    simpl shr_m. cbv iota beta.
    replace (e + n <=? 1024 - 53) with true by (symmetry; apply Z.leb_le; lia).
    eexists _, _, (Z.pos p2). split; [done|]. split; [|exact Hround].
    by rewrite Z.shiftl_div_pow2 by lia.
Qed.

End Round.

Section FloatOfInt.

Lemma binary_round_aux_canonical s m e :
  Zdigits2 (Z.pos m) = 53 → -1074 <= e <= 971 →
  binary_round_aux 53 1024 s (Z.pos m) e loc_Exact = S754_finite s m e.
Proof.
  intros Hd He. unfold binary_round_aux.
  rewrite shr_fexp_noshift by (done || lia). simpl.
  rewrite shr_fexp_noshift by (done || lia). simpl.
  by replace (e <=? 1024 - 53) with true by (symmetry; apply Z.leb_le; lia).
Qed.

Lemma pos_iter_xO p k : Z.pos (Pos.iter xO p k) = Z.pos p * 2 ^ Z.pos k.
Proof.
  induction k as [|k IH] using Pos.peano_ind.
  - simpl. lia.
  - rewrite Pos.iter_succ, Pos2Z.inj_succ, Z.pow_succ_r by lia.
    rewrite (Pos2Z.inj_xO (Pos.iter xO p k)), IH. lia.
Qed.

(** [float(n)] is exact for an integer of at most 53 bits: a mantissa of
    exactly 53 digits and the exponent that goes with it. *)
Lemma binary_round_int s p :
  Z.pos (digits2_pos p) <= 53 →
  ∃ mx ex,
    binary_round 53 1024 s p 0 = S754_finite s mx ex ∧
    Zdigits2 (Z.pos mx) = 53 ∧ -52 <= ex <= 0 ∧
    Z.pos mx = Z.pos p * 2 ^ (- ex).
Proof.
  intros Hd. unfold binary_round.
  rewrite Z.add_0_r, fexp_normal by lia.
  pose proof (digits2_pos_bounds p) as Hb.
  set (d := Z.pos (digits2_pos p)) in *.
  unfold shl_align. rewrite Z.sub_0_r.
  destruct (d - 53) as [|k|k] eqn:Ek; try lia.
  - exists p, 0. rewrite binary_round_aux_canonical by (simpl; lia).
    split; [done|]. split; [simpl; lia|]. split; [lia|]. simpl. lia.
  - assert (Z.pos (Pos.iter xO p k) = Z.pos p * 2 ^ (53 - d)) as Hm.
    { rewrite pos_iter_xO. f_equal. f_equal. lia. }
    assert (Zdigits2 (Z.pos (Pos.iter xO p k)) = 53) as Hdig.
    { simpl. apply digits2_pos_unique. rewrite Hm.
      assert (2 ^ 53 = 2 ^ d * 2 ^ (53 - d)) as ->
        by (rewrite <- Z.pow_add_r by lia; f_equal; lia).
      assert (2 ^ (d + (53 - d) - 1) = 2 ^ (d - 1) * 2 ^ (53 - d)) as Hlow
        by (rewrite <- Z.pow_add_r by lia; f_equal; lia).
      replace (d + (53 - d) - 1) with (53 - 1) in Hlow by lia. rewrite Hlow.
      assert (0 < 2 ^ (53 - d)) by (apply Z.pow_pos_nonneg; lia). nia. }
    exists (Pos.iter xO p k), (Z.neg k).
    rewrite binary_round_aux_canonical by (done || lia).
    split; [done|]. split; [done|]. split; [lia|].
    rewrite Hm. f_equal. f_equal. lia.
Qed.

End FloatOfInt.

Section Tenth.

Local Abbreviation T := 7205759403792794.

(** The integer part of [fc * 0.1], computed exactly, is [fc / 10]:
    [10 * T = 2^56 + 4]. *)
Lemma tenth_exact fc :
  0 <= fc < 2 ^ 52 →
  ∃ F, fc * T = (fc / 10) * 2 ^ 56 + F ∧ 0 <= F ∧ F + fc < 2 ^ 56.
Proof.
  intros Hfc. exists (4 * (fc / 10) + (fc mod 10) * T).
  pose proof (Z.div_mod fc 10 ltac:(lia)) as Hdm.
  pose proof (Z.mod_pos_bound fc 10 ltac:(lia)) as Hr.
  assert (0 <= fc / 10) by (apply Z.div_pos; lia).
  change (2 ^ 52) with 4503599627370496 in Hfc.
  change (2 ^ 56) with 72057594037927936.
  split; [lia|]. split; [lia|]. lia.
Qed.

(** Rounding to nearest does not carry into the integer part. *)
Lemma tenth_rounded fc a A B m2 :
  0 < fc < 2 ^ 52 → 0 < a → 0 < A → 0 < B →
  2 * A * B = 2 ^ 56 * a →
  A <= fc * a →
  (m2 = fc * a * T / (2 * A) ∨
   (m2 = fc * a * T / (2 * A) + 1 ∧ Z.odd (fc * a * T / A) = true)) →
  m2 / B = fc / 10.
Proof.
  intros Hfc Ha HA HB HAB Hlow Hm2.
  destruct (tenth_exact fc ltac:(lia)) as (F & HF & HF0 & HFfc).
  set (k := fc / 10) in *. set (M := fc * a * T) in *.
  assert (0 <= k) as Hk by (apply Z.div_pos; lia).
  assert (M = k * (2 * A * B) + a * F) as HM.
  { unfold M. rewrite HAB. replace (fc * a * T) with (a * (fc * T)) by ring.
    rewrite HF. ring. }
  assert (0 <= a * F < 2 * A * B) as HaF by (rewrite HAB; nia).
  set (m1 := M / (2 * A)) in *.
  assert (m1 / B = k) as Hm1.
  { unfold m1. rewrite Z.div_div by lia.
    symmetry. apply (Z.div_unique _ _ k (a * F)); [lia|]. rewrite HM. ring. }
  assert (k * B <= m1 < (k + 1) * B) as Hm1b.
  { pose proof (Z.div_mod m1 B ltac:(lia)) as Hdm.
    pose proof (Z.mod_pos_bound m1 B HB) as Hr. rewrite Hm1 in Hdm. nia. }
  destruct Hm2 as [->|[-> Hodd]]; [done|].
  symmetry. apply (Z.div_unique_pos _ _ k (m1 + 1 - k * B)); [|ring].
  split; [lia|].
  destruct (Z.lt_ge_cases (m1 + 1) ((k + 1) * B)) as [?|Hbad]; [lia|].
  exfalso.
  set (X := M / A) in *.
  assert (m1 = X / 2) as HX.
  { unfold m1, X. rewrite Z.div_div by lia. f_equal. ring. }
  assert (X = 2 * m1 + 1) as HX'.
  { pose proof (Z.div_mod X 2 ltac:(lia)) as Hdm. rewrite Zmod_odd, Hodd in Hdm. lia. }
  assert (A * X <= M) as HAX by (apply Z.mul_div_le; lia).
  assert (m1 = (k + 1) * B - 1) as Hm1eq by lia.
  assert (2 ^ 56 * a * (k + 1) - A <= M) as Hge.
  { rewrite <- HAB. rewrite HX', Hm1eq in HAX. nia. }
  assert (a * (F + fc) >= a * 2 ^ 56) as Hcontra.
  { rewrite HM, HAB in Hge. nia. }
  assert (F + fc >= 2 ^ 56) by nia. lia.
Qed.

End Tenth.

Section TargetFrame.

Local Abbreviation T := 7205759403792794.

(** The product of a 53-digit mantissa by [0.1]. *)
Lemma mul_tenth s mx ex :
  Zdigits2 (Z.pos mx) = 53 → -52 <= ex <= 0 →
  ∃ m3 e3 m2 n,
    Float.mul (S754_finite s mx ex) Float.tenth = S754_finite s m3 e3 ∧
    52 <= n <= 53 ∧
    Z.shiftl (Z.pos m3) e3 = m2 / 2 ^ (56 - ex - n) ∧
    (m2 = Z.pos mx * T / 2 ^ n ∨
     (m2 = Z.pos mx * T / 2 ^ n + 1 ∧ Z.odd (Z.pos mx * T / 2 ^ (n - 1)) = true)).
Proof.
  intros Hd Hex. unfold Float.mul, Float.tenth, SFmul. rewrite xorb_false_r.
  set (M := (mx * 7205759403792794)%positive).
  assert (Z.pos M = Z.pos mx * T) as HM by done.
  pose proof (digits2_pos_bounds mx) as Hmx. simpl in Hd. rewrite Hd in Hmx.
  pose proof (digits2_pos_bounds M) as HMb.
  set (D := Z.pos (digits2_pos M)) in *.
  assert (2 ^ 104 <= Z.pos M < 2 ^ 106) as Hrange.
  { rewrite HM. change (2 ^ (53 - 1)) with 4503599627370496 in Hmx.
    change (2 ^ 53) with 9007199254740992 in Hmx.
    change (2 ^ 104) with 20282409603651670423947251286016.
    change (2 ^ 106) with 81129638414606681695789005144064. lia. }
  assert (105 <= D <= 106) as HD.
  { split.
    - assert (104 < D); [|lia]. apply (Z.pow_lt_mono_r_iff 2); lia.
    - assert (D - 1 < 106); [|lia]. apply (Z.pow_lt_mono_r_iff 2); lia. }
  destruct (binary_round_aux_too_long s M (ex + -56) (D - 53))
    as (m3 & e3 & m2 & Hres & Hshift & Hm2); try lia.
  { simpl. fold D. lia. }
  exists m3, e3, m2, (D - 53). split; [exact Hres|]. split; [lia|].
  split.
  - rewrite Hshift. f_equal. f_equal. lia.
  - by rewrite <- HM.
Qed.

(** [int(float(n) * 0.1)] for a positive [n] below [2^52]. *)
Lemma int_mul_tenth s p :
  Z.pos p < 2 ^ 52 →
  ∃ x m e,
    binary_round 53 1024 s p 0 = x ∧
    Float.mul x Float.tenth = S754_finite s m e ∧
    Z.shiftl (Z.pos m) e = Z.pos p / 10.
Proof.
  intros Hp.
  assert (Z.pos (digits2_pos p) <= 52) as Hd.
  { pose proof (digits2_pos_bounds p) as Hb.
    assert (Z.pos (digits2_pos p) - 1 < 52); [|lia].
    apply (Z.pow_lt_mono_r_iff 2); lia. }
  destruct (binary_round_int s p ltac:(lia)) as (mx & ex & Hround & Hdig & Hex & Hmx).
  destruct (mul_tenth s mx ex Hdig Hex) as (m3 & e3 & m2 & n & Hmul & Hn & Hshift & Hm2).
  exists (S754_finite s mx ex), m3, e3. split; [done|]. split; [done|].
  rewrite Hshift.
  assert (0 < 2 ^ (- ex)) as Ha by (apply Z.pow_pos_nonneg; lia).
  assert (0 < 2 ^ (n - 1)) as HA by (apply Z.pow_pos_nonneg; lia).
  assert (0 < 2 ^ (56 - ex - n)) as HB by (apply Z.pow_pos_nonneg; lia).
  assert (2 ^ n = 2 * 2 ^ (n - 1)) as Hn2.
  { rewrite <- Z.pow_succ_r by lia. f_equal. lia. }
  apply (tenth_rounded (Z.pos p) (2 ^ (- ex)) (2 ^ (n - 1))); try lia.
  - rewrite <- Hn2, <- !Z.pow_add_r by lia. f_equal. lia.
  - rewrite <- Hmx.
    pose proof (digits2_pos_bounds mx) as Hb. simpl in Hdig. rewrite Hdig in Hb.
    assert (2 ^ (n - 1) <= 2 ^ (53 - 1)); [|lia].
    apply Z.pow_le_mono_r; lia.
  - rewrite <- Hmx, <- Hn2. exact Hm2.
Qed.

(** The seek target on every frame count of less than 52 bits. *)
Lemma target_frame_exact frame_count :
  - 2 ^ 52 < frame_count < 2 ^ 52 →
  MediaHandler.target_frame frame_count = Returned (Z.max 1 (frame_count / 10)).
Proof.
  intros Hfc. unfold MediaHandler.target_frame, Float.of_int, binary_normalize.
  change Float.prec with 53. change Float.emax with 1024.
  destruct frame_count as [|p|p].
  - done.
  - destruct (int_mul_tenth false p ltac:(lia)) as (x & m & e & Hx & Hmul & Hshift).
    rewrite Hx. destruct x; try discriminate Hmul.
    rewrite Hmul. simpl. by rewrite Hshift.
  - destruct (int_mul_tenth true p ltac:(lia)) as (x & m & e & Hx & Hmul & Hshift).
    assert (Z.neg p / 10 < 0) as Hneg by (apply Z.div_lt_upper_bound; lia).
    assert (0 <= Z.pos p / 10) as Hpos by (apply Z.div_pos; lia).
    rewrite Hx. destruct x; try discriminate Hmul.
    rewrite Hmul. simpl Float.to_int. unfold cond_Zopp. rewrite Hshift.
    f_equal. lia.
Qed.

End TargetFrame.

Section Seek.
Context `{Codec}.

(** The only event of a video thumbnail computation is its seek, and the
    frame it seeks is at least 1. *)
Lemma _create_video_thumbnail_log self filepath w :
  let w' := (MediaHandler._create_video_thumbnail self filepath w).2 in
  log w' = log w ∨ ∃ target, log w' = log w ++ [Seek filepath target] ∧ 1 <= target.
Proof.
  unfold MediaHandler._create_video_thumbnail, MediaHandler.target_frame. simpl.
  repeat case_match; simplify_eq/=; auto; right; eexists; (split; [done|lia]).
Qed.

Lemma _create_video_thumbnail_seek self filepath w cap frame_count target :
  fs w !! filepath ≫= VideoCapture = Some cap →
  Float.to_int (cap_frame_count cap) = Returned frame_count →
  MediaHandler.target_frame frame_count = Returned target →
  log (MediaHandler._create_video_thumbnail self filepath w).2
    = log w ++ [Seek filepath target].
Proof.
  intros Hcap Hfc Htarget. unfold MediaHandler._create_video_thumbnail.
  simpl. rewrite Hcap, Hfc, Htarget.
  repeat case_match; simplify_eq/=; done.
Qed.

End Seek.

(** C9.  For every video file that opens, with a frame count of less
    than 52 bits (negative counts, which OpenCV reports for some
    streams, included), the video thumbnail computation seeks exactly
    once, at frame [max(1, floor(frame_count / 10))], which the binary64
    product [frame_count * 0.1] truncates to; that frame is at least 1,
    and it is 1 for every video of fewer than 10 frames.  Whatever the
    frame count, no seek is made below frame 1. *)
Theorem video_thumbnail_seeks_tenth_at_least_one `{Codec}
    (self : MediaHandler.t) (filepath : string) (w : World)
    (cap : capture frame) (frame_count : Z) :
  fs w !! filepath ≫= VideoCapture = Some cap →
  Float.to_int (cap_frame_count cap) = Returned frame_count →
  - 2 ^ 52 < frame_count < 2 ^ 52 →
  let w' := (MediaHandler._create_video_thumbnail self filepath w).2 in
  let target := Z.max 1 (frame_count / 10) in
  log w' = log w ++ [Seek filepath target] ∧
  1 <= target ∧
  (frame_count < 10 → target = 1) ∧
  ∀ (self0 : MediaHandler.t) (filepath0 : string) (w0 : World) (e : event),
    e ∈ log (MediaHandler._create_video_thumbnail self0 filepath0 w0).2 →
    e ∈ log w0 ∨ ∃ t, e = Seek filepath0 t ∧ 1 <= t.
Proof.
  intros Hcap Hfc Hrange w' target. split; [|split; [|split]].
  - apply (_create_video_thumbnail_seek self filepath w cap frame_count); [done..|].
    by apply target_frame_exact.
  - unfold target. lia.
  - intros Hsmall. unfold target.
    assert (frame_count / 10 <= 0); [|lia].
    assert (frame_count / 10 < 1); [|lia].
    apply Z.div_lt_upper_bound; lia.
  - intros self0 filepath0 w0 e He.
    destruct (_create_video_thumbnail_log self0 filepath0 w0) as [Hlog|(t & Hlog & Ht)];
      simpl in Hlog; rewrite Hlog in He; [by left|].
    apply elem_of_app in He as [He|He%list_elem_of_singleton]; [by left|].
    right. by exists t.
Qed.

Lemma video_thumbnail_seek_witness :
  let w := Demo.world [("/d/clip.mp4", "VID-three-frames")] in
  let w' :=
    (MediaHandler._create_video_thumbnail (H := Demo.codec) MediaHandler.init
       "/d/clip.mp4" w).2 in
  (fs w !! "/d/clip.mp4" ≫= @VideoCapture Demo.codec
   = Some (Demo.capture_of "VID-three-frames")) ∧
  Float.to_int (cap_frame_count (Demo.capture_of "VID-three-frames")) = Returned 3 ∧
  log w' = [Seek "/d/clip.mp4" 1].
Proof.
  intros w w'.
  assert (fs w !! "/d/clip.mp4" ≫= @VideoCapture Demo.codec
          = Some (Demo.capture_of "VID-three-frames")) as Hcap
    by (vm_compute; reflexivity).
  assert (Float.to_int (cap_frame_count (Demo.capture_of "VID-three-frames"))
          = Returned 3) as Hfc by (vm_compute; reflexivity).
  split; [exact Hcap|]. split; [exact Hfc|].
  exact (proj1 (video_thumbnail_seeks_tenth_at_least_one (H := Demo.codec)
                  MediaHandler.init "/d/clip.mp4" w _ 3 Hcap Hfc ltac:(lia))).
Defined.
(** ** The arguments of the commands: [parse_numbers] *)

Lemma is_digit_not_space c : Py.is_digit c = true → Py.isspace_c c = false.
Proof.
  unfold Py.is_digit, Py.isspace_c. cbv zeta. generalize (N_of_ascii c). intros n Hn.
  apply andb_true_iff in Hn as [H1%N.leb_le H2%N.leb_le].
  apply orb_false_iff; split.
  - apply andb_false_iff. right. apply N.leb_gt. lia.
  - apply N.eqb_neq. lia.
Qed.

Lemma is_digit_not_minus c : Py.is_digit c = true → c ≠ "-"%char.
Proof. intros Hc ->. discriminate Hc. Qed.

Lemma all_digits_lstrip s : Py.all_digits s = true → Py.lstrip_c s = s.
Proof.
  destruct s as [|c s]; [done|]. simpl. intros [Hc _]%andb_true_iff.
  by rewrite (is_digit_not_space c Hc).
Qed.

Lemma all_digits_rstrip s : Py.all_digits s = true → Py.rstrip_c s = s.
Proof.
  induction s as [|c s IH]; [done|]. simpl. intros [Hc Hs]%andb_true_iff.
  rewrite (IH Hs). destruct s; [|done]. by rewrite (is_digit_not_space c Hc).
Qed.

Lemma all_digits_strip s : Py.all_digits s = true → Py.rstrip_c (Py.lstrip_c s) = s.
Proof.
  intros Hs. rewrite (all_digits_lstrip s Hs). by apply all_digits_rstrip.
Qed.

Lemma digit_value_nonneg c : Py.is_digit c = true → 0 ≤ Py.digit_value c.
Proof.
  unfold Py.is_digit, Py.digit_value. cbv zeta.
  intros [H1%N.leb_le _]%andb_true_iff. lia.
Qed.

(** On a string of digits, [int_digits] counts every character. *)
Lemma int_digits_all_digits s : ∀ after_digit acc ndigits,
  Py.all_digits s = true → 0 ≤ acc → (s ≠ EmptyString ∨ after_digit = true) →
  ∃ v, Py.int_digits s after_digit acc ndigits = Some (v, (ndigits + String.length s)%nat)
       ∧ 0 ≤ v.
Proof.
  induction s as [|c s IH]; intros after_digit acc ndigits Hs Hacc Hne.
  - destruct Hne as [Hne| ->]; [done|]. exists acc. simpl. by rewrite Nat.add_0_r.
  - simpl in Hs. apply andb_true_iff in Hs as [Hc Hs]. simpl. rewrite Hc.
    destruct (IH true (10 * acc + Py.digit_value c) (S ndigits) Hs) as (v & Hv & Hpos).
    + pose proof (digit_value_nonneg c Hc). lia.
    + by right.
    + exists v. split; [|done]. rewrite Hv. do 2 f_equal. lia.
Qed.

Lemma isdigit_all_digits s :
  Py.isdigit s = true ↔ Py.all_digits s = true ∧ s ≠ EmptyString.
Proof. destruct s; simpl; [|naive_solver]. split; [done|]. by intros [_ ?]. Qed.

(** [int] on a string of digits: the limit on the number of digits is the
    only way to fail. *)
Lemma int_isdigit max_str_digits s :
  Py.isdigit s = true →
  if ((0 <? max_str_digits) && (max_str_digits <? String.length s))%nat
  then ∃ e, Py.int max_str_digits s = Raised e
  else ∃ v, Py.int max_str_digits s = Returned v ∧ 0 ≤ v.
Proof.
  intros [Hs Hne]%isdigit_all_digits. unfold Py.int.
  rewrite (all_digits_strip s Hs). cbv zeta.
  destruct (int_digits_all_digits s false 0 0%nat Hs) as (v & Hv & Hpos);
    [done|by left|].
  assert (Hbody : (match s with
                   | String "+" r => (false, r)
                   | String "-" r => (true, r)
                   | _ => (false, s)
                   end) = (false, s)).
  { destruct s as [|c r]; [done|]. simpl in Hs. apply andb_true_iff in Hs as [Hc _].
    destruct c as [[] [] [] [] [] [] [] []]; try done. }
  rewrite Hbody, Hv. simpl.
  destruct ((0 <? max_str_digits)%nat && (max_str_digits <? String.length s)%nat);
    eauto.
Qed.

(** A piece made of digits is never converted to a negative number. *)
Lemma int_all_digits_nonneg max_str_digits s v :
  Py.all_digits s = true → Py.int max_str_digits s = Returned v → 0 ≤ v.
Proof.
  intros Hs Hv. destruct s as [|c r].
  - by vm_compute in Hv.
  - pose proof (int_isdigit max_str_digits (String c r) Hs) as Hi.
    case_match; [destruct Hi as [e He]; congruence|].
    destruct Hi as (v' & Hv' & ?). congruence.
Qed.

Lemma split_all_digits s :
  Py.all_digits (Py.remove_char "-" s) = true →
  Forall (λ p, Py.all_digits p = true) (Py.split "-" s).
Proof.
  induction s as [|a s IH]; simpl.
  - by repeat constructor.
  - destruct (decide (a = "-"%char)) as [->|Ha]; intros Hs.
    + constructor; [done|]. by apply IH.
    + simpl in Hs. apply andb_true_iff in Hs as [Ha' Hs]. specialize (IH Hs).
      destruct (Py.split "-" s) as [|p ps]; [by repeat constructor; simpl; rewrite Ha'|].
      apply Forall_cons in IH as [Hp Hps]. constructor; [|done]. simpl. by rewrite Ha', Hp.
Qed.

Lemma isdigit_contains_minus s : Py.isdigit s = true → Py.contains "-" s = false.
Proof.
  intros [Hs _]%isdigit_all_digits. induction s as [|a s IH]; [done|]. simpl in *.
  apply andb_true_iff in Hs as [Ha Hs]. rewrite (IH Hs), orb_false_r.
  apply bool_decide_eq_false. by apply is_digit_not_minus.
Qed.

Lemma split_digits_minus a rest :
  Py.all_digits a = true →
  Py.split "-" (a +:+ String "-" rest) = a :: Py.split "-" rest.
Proof.
  induction a as [|c a IH]; [done|]. simpl. intros [Hc Ha]%andb_true_iff.
  rewrite (IH Ha). destruct (decide (c = "-"%char)) as [->|]; done.
Qed.

Lemma split_digits b : Py.all_digits b = true → Py.split "-" b = [b].
Proof.
  induction b as [|c b IH]; [done|]. simpl. intros [Hc Hb]%andb_true_iff.
  rewrite (IH Hb). destruct (decide (c = "-"%char)) as [->|]; done.
Qed.

Lemma contains_app_minus a rest : Py.contains "-" (a +:+ String "-" rest) = true.
Proof.
  induction a as [|c a IH]; simpl.
  - done.
  - by rewrite IH, orb_true_r.
Qed.

Lemma remove_char_digits a : Py.all_digits a = true → Py.remove_char "-" a = a.
Proof.
  induction a as [|c a IH]; [done|]. simpl. intros [Hc Ha]%andb_true_iff.
  rewrite (IH Ha). destruct (decide (c = "-"%char)) as [->|]; done.
Qed.

Lemma remove_char_app a b :
  Py.remove_char "-" (a +:+ b) = Py.remove_char "-" a +:+ Py.remove_char "-" b.
Proof.
  induction a as [|c a IH]; [done|]. simpl. rewrite IH. by destruct (decide _).
Qed.

Lemma all_digits_app a b :
  Py.all_digits a = true → Py.all_digits b = true → Py.all_digits (a +:+ b) = true.
Proof.
  induction a as [|c a IH]; [done|]. simpl. intros [Hc Ha]%andb_true_iff Hb.
  by rewrite Hc, IH.
Qed.

(** A string cut in one piece has no separator, and one cut in two had
    one. *)
Lemma split_not_nil c s : Py.split c s ≠ [].
Proof. destruct s as [|a s]; simpl; [done|]. repeat case_match; done. Qed.

Lemma split_one c s b : Py.split c s = [b] → s = b.
Proof.
  revert b. induction s as [|a s IH]; intros b; simpl.
  - by intros [= <-].
  - destruct (decide (a = c)) as [->|Ha].
    + intros [= _ Hs]. by apply split_not_nil in Hs.
    + destruct (Py.split c s) as [|p ps] eqn:Hs; [by apply split_not_nil in Hs|].
      intros [= <- ->]. by rewrite (IH p).
Qed.

Lemma split_two c s a b : Py.split c s = [a; b] → s = a +:+ String c b.
Proof.
  revert a. induction s as [|d s IH]; intros a; simpl; [done|].
  destruct (decide (d = c)) as [->|Hd].
  - intros [= <- Hs]. by rewrite (split_one _ _ _ Hs).
  - destruct (Py.split c s) as [|p ps] eqn:Hs; [done|].
    intros [= <- ->]. by rewrite (IH p).
Qed.

Lemma int_empty max_str_digits e : Py.int max_str_digits EmptyString ≠ Returned e.
Proof. done. Qed.

Section Parse.
Context `{Codec}.
Import CLIMediaViewer.

(** The arguments with their positions, from position [k] on. *)
Local Abbreviation indexed k args := (imap (λ i (arg : string), ((k + i)%nat, arg)) args).

Lemma indexed_cons k arg args :
  indexed k (arg :: args) = (k, arg) :: indexed (S k) args.
Proof.
  rewrite imap_cons. f_equal; [f_equal; lia|].
  apply imap_ext. intros i x _. simpl. f_equal. lia.
Qed.

Lemma parse_numbers_indexed max_str_digits mem args :
  parse_numbers max_str_digits mem args =
  foldl (parse_step max_str_digits mem) (Returned ([], [])) (indexed 0 args).
Proof. done. Qed.

(** The bounds of a range are two plain numbers around one hyphen. *)
Lemma parse_range_returns max_str_digits arg x y :
  Py.contains "-" arg && Py.isdigit (Py.remove_char "-" arg) = true ∧
  parse_range max_str_digits arg = Returned (x, y) ↔
  ∃ a b, arg = a +:+ "-" +:+ b ∧ Py.isdigit a = true ∧ Py.isdigit b = true ∧
         Py.int max_str_digits a = Returned x ∧ Py.int max_str_digits b = Returned y.
Proof.
  split.
  - intros [[_ [Hd _]%isdigit_all_digits]%andb_true_iff Hr].
    apply split_all_digits in Hd. unfold parse_range in Hr.
    destruct (Py.split "-" arg) as [|a [|b [|? ?]]] eqn:Hs; try done.
    destruct (Py.int max_str_digits a) as [x'|] eqn:Hx; [|done].
    destruct (Py.int max_str_digits b) as [y'|] eqn:Hy; [|done].
    simplify_eq. apply Forall_cons in Hd as [Ha [Hb _]%Forall_cons].
    exists a, b. split; [by apply split_two|].
    split; [|split; [|done]]; apply isdigit_all_digits; split; try done.
    + intros ->. by apply int_empty in Hx.
    + intros ->. by apply int_empty in Hy.
  - intros (a & b & -> & [Ha Hane]%isdigit_all_digits &
            [Hb Hbne]%isdigit_all_digits & Hx & Hy).
    change (a +:+ "-" +:+ b) with (a +:+ String "-" b).
    rewrite contains_app_minus, remove_char_app. cbn [Py.remove_char].
    rewrite decide_True by done.
    rewrite (remove_char_digits a Ha), (remove_char_digits b Hb).
    split.
    + apply isdigit_all_digits. split; [by apply all_digits_app|]. by destruct a.
    + unfold parse_range.
      by rewrite (split_digits_minus a b Ha), (split_digits b Hb), Hx, Hy.
Qed.

Lemma parse_range_nonneg max_str_digits arg x y :
  Py.isdigit (Py.remove_char "-" arg) = true →
  parse_range max_str_digits arg = Returned (x, y) → 0 ≤ x ∧ 0 ≤ y.
Proof.
  intros [Hd _]%isdigit_all_digits Hr. apply split_all_digits in Hd.
  unfold parse_range in Hr.
  destruct (Py.split "-" arg) as [|a [|b [|? ?]]] eqn:Hs; try done.
  destruct (Py.int max_str_digits a) as [x'|] eqn:Hx; [|done].
  destruct (Py.int max_str_digits b) as [y'|] eqn:Hy; [|done].
  simplify_eq. apply Forall_cons in Hd as [Ha [Hb _]%Forall_cons].
  split; [exact (int_all_digits_nonneg _ _ _ Ha Hx)|exact (int_all_digits_nonneg _ _ _ Hb Hy)].
Qed.

(** What [extend] does with the range of the argument at position [i]. *)
Lemma extend_range_raises mem i numbers x y :
  (∃ e, extend_range mem i numbers x y = Raised e) ↔
  Z.pos (maxsize mem) < y + 1 - x ∨ (0 < y + 1 - x ∧ fits mem i = false).
Proof.
  unfold extend_range. cbv zeta.
  destruct (Z.ltb_spec (Z.pos (maxsize mem)) (Z.max 0 (y + 1 - x))) as [Hbig|Hsmall].
  { split; [|by eauto]. intros _. left. lia. }
  destruct (Z.ltb_spec 0 (Z.max 0 (y + 1 - x))) as [Hpos|Hnone];
    destruct (fits mem i); cbn [andb negb].
  - split; [by intros [e ?]|]. intros [?|[_ ?]]; [lia|done].
  - split; [|by eauto]. intros _. right. split; [lia|done].
  - split; [by intros [e ?]|]. intros [?|[? _]]; lia.
  - split; [by intros [e ?]|]. intros [?|[? _]]; lia.
Qed.

Lemma extend_range_returns mem i numbers x y numbers' :
  extend_range mem i numbers x y = Returned numbers' →
  numbers' = numbers ++ seqZ x (y + 1 - x).
Proof. unfold extend_range. cbv zeta. repeat case_match; congruence. Qed.

Lemma parse_fold_raised max_str_digits mem iargs e :
  foldl (parse_step max_str_digits mem) (Raised e) iargs = Raised e.
Proof. induction iargs as [|[i arg] iargs IH]; simpl; auto. Qed.

Lemma parse_fold_nonneg max_str_digits mem iargs : ∀ numbers out numbers' out',
  Forall (λ n, 0 ≤ n) numbers →
  foldl (parse_step max_str_digits mem) (Returned (numbers, out)) iargs
    = Returned (numbers', out') →
  Forall (λ n, 0 ≤ n) numbers'.
Proof.
  induction iargs as [|[i arg] iargs IH]; intros numbers out numbers' out' Hn Hf.
  - simpl in Hf. by simplify_eq.
  - simpl in Hf.
    destruct (Py.contains "-" arg && Py.isdigit (Py.remove_char "-" arg)) eqn:Hrange.
    + apply andb_true_iff in Hrange as [_ Hd].
      destruct (parse_range max_str_digits arg) as [[x y]|e] eqn:Hr.
      * destruct (extend_range mem i numbers x y) as [numbers1|e] eqn:He.
        -- eapply IH; [|exact Hf]. apply extend_range_returns in He as ->.
           apply Forall_app; split; [done|].
           destruct (parse_range_nonneg _ _ _ _ Hd Hr) as [Hx _].
           apply Forall_forall. intros n Hin%elem_of_seqZ. lia.
        -- by rewrite parse_fold_raised in Hf.
      * by eapply IH.
    + destruct (Py.isdigit arg) eqn:Hd.
      * destruct (Py.int max_str_digits arg) as [n|e] eqn:Hi.
        -- eapply IH; [|exact Hf]. apply Forall_app; split; [done|].
           apply isdigit_all_digits in Hd as [Hd _].
           repeat constructor. by eapply int_all_digits_nonneg.
        -- by rewrite parse_fold_raised in Hf.
      * by eapply IH.
Qed.

(** X1: a file number produced by [parse_numbers] is never negative,
    whatever the (ASCII) arguments: a sign is never passed to [int]. *)
Theorem parse_numbers_nonnegative max_str_digits mem args numbers out :
  Forall (λ arg, Py.isascii arg = true) args →
  parse_numbers max_str_digits mem args = Returned (numbers, out) →
  Forall (λ n, 0 ≤ n) numbers.
Proof. intros _. by apply parse_fold_nonneg. Qed.

Lemma parse_step_raises max_str_digits mem numbers out i arg :
  (∃ e, parse_step max_str_digits mem (Returned (numbers, out)) (i, arg) = Raised e) ↔
  ((Py.isdigit arg = true ∧ (0 < max_str_digits < String.length arg)%nat) ∨
   (∃ a b x y, arg = a +:+ "-" +:+ b ∧ Py.isdigit a = true ∧ Py.isdigit b = true ∧
               Py.int max_str_digits a = Returned x ∧
               Py.int max_str_digits b = Returned y ∧
               (Z.pos (maxsize mem) < y + 1 - x ∨
                (0 < y + 1 - x ∧ fits mem i = false)))).
Proof.
  unfold parse_step.
  destruct (Py.contains "-" arg && Py.isdigit (Py.remove_char "-" arg)) eqn:Hrange.
  - destruct (parse_range max_str_digits arg) as [[x y]|e0] eqn:Hr.
    + pose proof (extend_range_raises mem i numbers x y) as Hext.
      destruct (proj1 (parse_range_returns max_str_digits arg x y) (conj Hrange Hr))
        as (a & b & Harg & Ha & Hb & Hx & Hy).
      split.
      * intros [e He]. right. exists a, b, x, y. repeat (split; [done|]).
        apply Hext. destruct (extend_range mem i numbers x y); [done|by eauto].
      * intros [[Hd%isdigit_contains_minus _]|(a' & b' & x' & y' & Hrest)].
        { apply andb_true_iff in Hrange as [? _]. congruence. }
        destruct Hrest as (Harg' & Ha' & Hb' & Hx' & Hy' & Hlen).
        assert (parse_range max_str_digits arg = Returned (x', y')) as Hr'.
        { apply parse_range_returns. exists a', b'. done. }
        rewrite Hr in Hr'. simplify_eq.
        apply Hext in Hlen as [e ->]. by eauto.
    + split; [by intros [e ?]|].
      intros [[Hd%isdigit_contains_minus _]|(a & b & x & y & Hrest)].
      { apply andb_true_iff in Hrange as [? _]. congruence. }
      destruct Hrest as (Harg & Ha & Hb & Hx & Hy & _).
      assert (parse_range max_str_digits arg = Returned (x, y)) as Hr'.
      { apply parse_range_returns. exists a, b. done. }
      congruence.
  - assert (¬ ∃ a b x y, arg = a +:+ "-" +:+ b ∧ Py.isdigit a = true ∧
              Py.isdigit b = true ∧ Py.int max_str_digits a = Returned x ∧
              Py.int max_str_digits b = Returned y ∧
              (Z.pos (maxsize mem) < y + 1 - x ∨
               (0 < y + 1 - x ∧ fits mem i = false))) as Hnorange.
    { intros (a & b & x & y & Harg & Ha & Hb & Hx & Hy & _).
      assert (Py.contains "-" arg && Py.isdigit (Py.remove_char "-" arg) = true) as Ht.
      { eapply (parse_range_returns max_str_digits arg x y). exists a, b. done. }
      congruence. }
    destruct (Py.isdigit arg) eqn:Hd.
    + pose proof (int_isdigit max_str_digits arg Hd) as Hi.
      destruct ((0 <? max_str_digits)%nat && (max_str_digits <? String.length arg)%nat)
        eqn:Hlim.
      * destruct Hi as [e ->]. split; [|by eauto]. intros _. left. split; [done|].
        apply andb_true_iff in Hlim as [?%Nat.ltb_lt ?%Nat.ltb_lt]. lia.
      * destruct Hi as (v & -> & _). split; [by intros [e ?]|].
        intros [[_ [H1 H2]]|?]; [|done].
        apply Nat.ltb_lt in H1, H2. rewrite H1, H2 in Hlim. done.
    + split; [by intros [e ?]|]. intros [[? _]|?]; done.
Qed.

Lemma parse_fold_raises max_str_digits mem args : ∀ k numbers out,
  (∃ e, foldl (parse_step max_str_digits mem) (Returned (numbers, out)) (indexed k args)
        = Raised e) ↔
  ∃ i arg, args !! i = Some arg ∧ ((Py.isdigit arg = true ∧ (0 < max_str_digits < String.length arg)%nat) ∨
   (∃ a b x y, arg = a +:+ "-" +:+ b ∧ Py.isdigit a = true ∧ Py.isdigit b = true ∧
               Py.int max_str_digits a = Returned x ∧
               Py.int max_str_digits b = Returned y ∧
               (Z.pos (maxsize mem) < y + 1 - x ∨
                (0 < y + 1 - x ∧ fits mem (k + i)%nat = false)))).
Proof.
  induction args as [|arg args IH]; intros k numbers out.
  - simpl. split; [by intros [e ?]|]. by intros (i & arg & ? & _).
  - rewrite indexed_cons. cbn [foldl].
    pose proof (parse_step_raises max_str_digits mem numbers out k arg) as Hstep.
    destruct (parse_step max_str_digits mem (Returned (numbers, out)) (k, arg))
      as [[numbers' out']|e] eqn:Hs.
    + rewrite IH. split.
      * intros (i & arg' & Hi & Hstop). exists (S i), arg'. split; [done|].
        by replace (k + S i)%nat with (S k + i)%nat by lia.
      * intros ([|i] & arg' & Hi & Hstop).
        -- simpl in Hi. simplify_eq. rewrite Nat.add_0_r in Hstop.
           apply Hstep in Hstop as [e ?]. done.
        -- exists i, arg'. split; [done|].
           by replace (S k + i)%nat with (k + S i)%nat by lia.
    + rewrite parse_fold_raised. split; [|by eauto]. intros _.
      exists 0%nat, arg. split; [done|]. rewrite Nat.add_0_r. apply Hstep. by eauto.
Qed.

(** X2: on ASCII arguments [parse_numbers] raises exactly when one of
    them stops the parsing: a plain number with more digits than the
    interpreter converts (the [int] outside the [try]), or a range of
    two plain numbers that is longer than [sys.maxsize] or than the
    memory at hand holds (the [extend], which raises no [ValueError]). *)
Theorem parse_numbers_raises_iff max_str_digits mem args :
  Forall (λ arg, Py.isascii arg = true) args →
  (∃ e, parse_numbers max_str_digits mem args = Raised e) ↔
  ∃ i arg, args !! i = Some arg ∧
    ((Py.isdigit arg = true ∧ (0 < max_str_digits < String.length arg)%nat) ∨
     (∃ a b x y, arg = a +:+ "-" +:+ b ∧ Py.isdigit a = true ∧ Py.isdigit b = true ∧
                 Py.int max_str_digits a = Returned x ∧
                 Py.int max_str_digits b = Returned y ∧
                 (Z.pos (maxsize mem) < y + 1 - x ∨
                  (0 < y + 1 - x ∧ fits mem i = false)))).
Proof.
  intros _. rewrite parse_numbers_indexed. apply (parse_fold_raises _ _ args 0%nat).
Qed.

(** X3: an argument [a-b] made of two plain numbers stands for the
    integers from [a] to [b], both included, in increasing order, when
    there are at most [sys.maxsize] of them and the memory holds them;
    when [b < a] it stands for none, and nothing is printed. *)
Theorem parse_numbers_range max_str_digits mem a b x y :
  Py.isdigit a = true → Py.isdigit b = true →
  Py.int max_str_digits a = Returned x → Py.int max_str_digits b = Returned y →
  y + 1 - x ≤ Z.pos (maxsize mem) →
  (x ≤ y → fits mem 0 = true) →
  parse_numbers max_str_digits mem [a +:+ "-" +:+ b]
    = Returned (seqZ x (y + 1 - x), []) ∧
  (∀ n, n ∈ seqZ x (y + 1 - x) ↔ x ≤ n ≤ y) ∧
  (y < x → seqZ x (y + 1 - x) = []).
Proof.
  intros Ha Hb Hx Hy Hlen Hfits.
  split; [|split].
  - destruct (proj2 (parse_range_returns max_str_digits (a +:+ "-" +:+ b) x y))
      as [Hrange Hr]; [by exists a, b|].
    unfold parse_numbers. cbn [imap foldl]. unfold parse_step.
    rewrite Hrange, Hr.
    destruct (extend_range mem 0 [] x y) as [numbers|e] eqn:He.
    + by apply extend_range_returns in He as ->.
    + assert (Z.pos (maxsize mem) < y + 1 - x ∨ (0 < y + 1 - x ∧ fits mem 0 = false))
        as [?|[Hpos Hno]] by (apply (extend_range_raises mem 0%nat [] x y); eauto); [lia|].
      rewrite Hfits in Hno by lia. done.
  - intros n. rewrite elem_of_seqZ. lia.
  - intros Hlt. unfold seqZ. replace (Z.to_nat (y + 1 - x)) with 0%nat by lia. done.
Qed.

End Parse.

Lemma parse_numbers_nonnegative_witness :
  CLIMediaViewer.parse_numbers 4300 Demo.memory ["7"; "3-5"; "x"; "-2"; "5-1"]
    = Returned ([7; 3; 4; 5], ["Invalid number: x"; "Invalid range: -2"]) ∧
  Forall (λ n, 0 ≤ n) [7; 3; 4; 5].
Proof.
  assert (CLIMediaViewer.parse_numbers 4300 Demo.memory ["7"; "3-5"; "x"; "-2"; "5-1"]
            = Returned ([7; 3; 4; 5], ["Invalid number: x"; "Invalid range: -2"]))
    as Hrun by (vm_compute; reflexivity).
  split; [exact Hrun|].
  apply (parse_numbers_nonnegative 4300 Demo.memory ["7"; "3-5"; "x"; "-2"; "5-1"]
           [7; 3; 4; 5] ["Invalid number: x"; "Invalid range: -2"]);
    [repeat constructor|exact Hrun].
Defined.

(** A range of twenty digits is more than a list takes: [extend] raises
    an [OverflowError] that nothing in [parse_numbers] catches. *)
Lemma parse_numbers_raises_iff_witness :
  CLIMediaViewer.parse_numbers 4300 Demo.memory ["1"; "1-99999999999999999999"]
    = Raised (OverflowError "Python int too large to convert to C ssize_t") ∧
  ((∃ e, CLIMediaViewer.parse_numbers 4300 Demo.memory ["1"; "1-99999999999999999999"]
         = Raised e) ↔
   ∃ i arg, ["1"; "1-99999999999999999999"] !! i = Some arg ∧
     ((Py.isdigit arg = true ∧ (0 < 4300 < String.length arg)%nat) ∨
      (∃ a b x y, arg = a +:+ "-" +:+ b ∧ Py.isdigit a = true ∧ Py.isdigit b = true ∧
                  Py.int 4300 a = Returned x ∧ Py.int 4300 b = Returned y ∧
                  (Z.pos (CLIMediaViewer.maxsize Demo.memory) < y + 1 - x ∨
                   (0 < y + 1 - x ∧ CLIMediaViewer.fits Demo.memory i = false))))).
Proof.
  split; [vm_compute; reflexivity|].
  apply parse_numbers_raises_iff.
  repeat constructor; vm_compute; reflexivity.
Defined.

Lemma parse_numbers_range_witness :
  CLIMediaViewer.parse_numbers 4300 Demo.memory ["3" +:+ "-" +:+ "5"]
    = Returned (seqZ 3 (5 + 1 - 3), []) ∧
  (∀ n, n ∈ seqZ 3 (5 + 1 - 3) ↔ 3 ≤ n ≤ 5) ∧
  (5 < 3 → seqZ 3 (5 + 1 - 3) = []).
Proof. by apply parse_numbers_range. Defined.
(** ** Selecting and deselecting by number *)

Section Select.
Context `{Codec}.
Import CLIMediaViewer.

Local Abbreviation select_body :=
  (λ '(self, selected_count, out) num,
     match file_number self num with
     | Some filepath =>
         (set_selected_files ({[filepath]} ∪ selected_files self) self,
          S selected_count, out)
     | None => (self, selected_count, out ++ ["Invalid file number: " +:+ pretty num])
     end).

Local Abbreviation deselect_body :=
  (λ '(self, deselected_count, out) num,
     match file_number self num with
     | Some filepath =>
         if bool_decide (filepath ∈ selected_files self)
         then (set_selected_files (selected_files self ∖ {[filepath]}) self,
               S deselected_count, out)
         else (self, deselected_count, out)
     | None => (self, deselected_count, out ++ ["Invalid file number: " +:+ pretty num])
     end).

(** The lines printed for the numbers that name no file. *)
Local Abbreviation invalid_lines self numbers :=
  ((λ num : Z, "Invalid file number: " +:+ pretty num) <$>
     filter (λ num, file_number self num = None) numbers).

Lemma select_fold numbers : ∀ self cnt out,
  ∃ self',
    foldl select_body (self, cnt, out) numbers =
      (self', (cnt + length (omap (file_number self) numbers))%nat,
       out ++ invalid_lines self numbers) ∧
    media_files self' = media_files self ∧
    media_handler self' = media_handler self ∧
    current_directory self' = current_directory self ∧
    selected_files self' =
      selected_files self ∪ list_to_set (omap (file_number self) numbers).
Proof.
  induction numbers as [|num numbers IH]; intros self cnt out.
  - exists self. simpl. rewrite Nat.add_0_r, app_nil_r. repeat split. set_solver.
  - cbn [foldl]. destruct (file_number self num) as [f|] eqn:Hf.
    + destruct (IH (set_selected_files ({[f]} ∪ selected_files self) self) (S cnt) out)
        as (self' & Hfold & Hm & Hh & Hd & Hs).
      exists self'. rewrite Hfold.
      change (file_number (set_selected_files ({[f]} ∪ selected_files self) self))
        with (file_number self) in *.
      cbn [omap list_omap]. rewrite Hf. rewrite filter_cons_False by (by rewrite Hf).
      cbn [length]. split; [do 2 f_equal; lia|]. repeat split; try done.
      rewrite Hs. cbn [selected_files set_selected_files list_to_set]. set_solver.
    + destruct (IH self cnt (out ++ ["Invalid file number: " +:+ pretty num]))
        as (self' & Hfold & Hm & Hh & Hd & Hs).
      exists self'. rewrite Hfold. cbn [omap list_omap]. rewrite Hf.
      rewrite filter_cons_True by done. cbn [fmap list_fmap].
      rewrite <- app_assoc. done.
Qed.

Lemma deselect_fold numbers : ∀ self cnt out,
  ∃ self' cnt',
    foldl deselect_body (self, cnt, out) numbers =
      (self', cnt', out ++ invalid_lines self numbers) ∧
    media_files self' = media_files self ∧
    media_handler self' = media_handler self ∧
    current_directory self' = current_directory self ∧
    selected_files self' =
      selected_files self ∖ list_to_set (omap (file_number self) numbers) ∧
    (cnt' + size (selected_files self') = cnt + size (selected_files self))%nat.
Proof.
  induction numbers as [|num numbers IH]; intros self cnt out.
  - exists self, cnt. simpl. rewrite app_nil_r. repeat split. set_solver.
  - cbn [foldl]. destruct (file_number self num) as [f|] eqn:Hf.
    + destruct (bool_decide (f ∈ selected_files self)) eqn:Hin.
      * apply bool_decide_eq_true in Hin.
        destruct (IH (set_selected_files (selected_files self ∖ {[f]}) self) (S cnt) out)
          as (self' & cnt' & Hfold & Hm & Hh & Hd & Hs & Hc).
        exists self', cnt'. rewrite Hfold.
        change (file_number (set_selected_files (selected_files self ∖ {[f]}) self))
          with (file_number self) in *.
        cbn [omap list_omap]. rewrite Hf. rewrite filter_cons_False by (by rewrite Hf).
        repeat split; try done.
        -- rewrite Hs. cbn [selected_files set_selected_files list_to_set]. set_solver.
        -- rewrite Hc. cbn [selected_files set_selected_files].
           rewrite size_difference by set_solver. rewrite size_singleton.
           assert (size (selected_files self) ≠ 0%nat); [|lia].
           intros Hz%size_empty_inv. set_solver.
      * apply bool_decide_eq_false in Hin.
        destruct (IH self cnt out) as (self' & cnt' & Hfold & Hm & Hh & Hd & Hs & Hc).
        exists self', cnt'. rewrite Hfold.
        cbn [omap list_omap]. rewrite Hf. rewrite filter_cons_False by (by rewrite Hf).
        repeat split; try done.
        rewrite Hs. cbn [list_to_set]. set_solver.
    + destruct (IH self cnt (out ++ ["Invalid file number: " +:+ pretty num]))
        as (self' & cnt' & Hfold & Hm & Hh & Hd & Hs & Hc).
      exists self', cnt'. rewrite Hfold. cbn [omap list_omap]. rewrite Hf.
      rewrite filter_cons_True by done. cbn [fmap list_fmap].
      rewrite <- app_assoc. done.
Qed.

Lemma elem_of_omap_file_number self (numbers : list Z) f :
  f ∈ omap (file_number self) numbers ↔
  ∃ num, num ∈ numbers ∧ 1 ≤ num ≤ Z.of_nat (length (media_files self)) ∧
         media_files self !! Z.to_nat (num - 1) = Some f.
Proof.
  rewrite list_elem_of_omap. unfold file_number. split.
  - intros (num & Hin & Hf). exists num. split; [done|].
    destruct ((1 <=? num) && (num <=? Z.of_nat (length (media_files self)))) eqn:Hb;
      [|done].
    apply andb_true_iff in Hb as [?%Z.leb_le ?%Z.leb_le]. split; [lia|done].
  - intros (num & Hin & [H1 H2] & Hf). exists num. split; [done|].
    apply Z.leb_le in H1, H2. by rewrite H1, H2.
Qed.

(** X4: [select_files] adds to the selection exactly the files named by
    the numbers between 1 and the length of the list, and changes
    nothing else; the count it reports is the number of such numbers,
    repeated or already selected ones included. *)
Theorem select_files_adds_numbered_files self numbers :
  let self' := (select_files self numbers).1 in
  let valid := length (omap (file_number self) numbers) in
  media_files self' = media_files self ∧
  (∀ f, f ∈ selected_files self' ↔
        f ∈ selected_files self ∨
        ∃ num, num ∈ numbers ∧ 1 ≤ num ≤ Z.of_nat (length (media_files self)) ∧
               media_files self !! Z.to_nat (num - 1) = Some f) ∧
  (select_files self numbers).2 =
    invalid_lines self numbers ++
    (if (0 <? valid)%nat then ["Selected " +:+ pretty valid +:+ " files."] else []).
Proof.
  intros self' valid. subst self' valid. unfold select_files.
  destruct (select_fold numbers self 0%nat []) as (self' & -> & Hm & _ & _ & Hs).
  cbn [fst snd]. split; [done|]. split.
  - intros f. rewrite Hs, elem_of_union, elem_of_list_to_set.
    by rewrite elem_of_omap_file_number.
  - cbn [Nat.add app]. by case_match; rewrite ?app_nil_r.
Qed.

(** X5: [deselect_files] removes from the selection exactly the files
    named by the valid numbers, and the count it reports is the number
    of files that left the selection. *)
Theorem deselect_files_removes_numbered_files self numbers :
  let self' := (deselect_files self numbers).1 in
  let removed := (size (selected_files self) - size (selected_files self'))%nat in
  media_files self' = media_files self ∧
  (∀ f, f ∈ selected_files self' ↔
        f ∈ selected_files self ∧
        ¬ ∃ num, num ∈ numbers ∧ 1 ≤ num ≤ Z.of_nat (length (media_files self)) ∧
                 media_files self !! Z.to_nat (num - 1) = Some f) ∧
  (deselect_files self numbers).2 =
    invalid_lines self numbers ++
    (if (0 <? removed)%nat then ["Deselected " +:+ pretty removed +:+ " files."] else []).
Proof.
  intros self' removed. subst self' removed. unfold deselect_files.
  destruct (deselect_fold numbers self 0%nat [])
    as (self' & cnt' & -> & Hm & _ & _ & Hs & Hc).
  cbn [fst snd]. split; [done|]. split.
  - intros f. rewrite Hs, elem_of_difference, elem_of_list_to_set.
    by rewrite elem_of_omap_file_number.
  - replace (size (selected_files self) - size (selected_files self'))%nat with cnt'
      by lia.
    cbn [app]. by case_match; rewrite ?app_nil_r.
Qed.

(** X6: selecting files that were not selected and deselecting them
    again, by the same numbers, gives the selection back. *)
Theorem select_then_deselect_restores self numbers :
  Forall (λ f, f ∉ selected_files self) (omap (file_number self) numbers) →
  let self' := (deselect_files (select_files self numbers).1 numbers).1 in
  selected_files self' = selected_files self ∧ media_files self' = media_files self.
Proof.
  intros Hnew self'. subst self'. unfold select_files, deselect_files.
  destruct (select_fold numbers self 0%nat []) as (self1 & -> & Hm1 & _ & _ & Hs1).
  cbn [fst].
  destruct (deselect_fold numbers self1 0%nat []) as (self2 & cnt & -> & Hm2 & _ & _ & Hs2 & _).
  cbn [fst]. split; [|congruence].
  assert (Hfn : omap (file_number self1) numbers = omap (file_number self) numbers).
  { unfold file_number. by rewrite Hm1. }
  rewrite Hs2, Hs1, Hfn.
  assert (selected_files self ## list_to_set (omap (file_number self) numbers)).
  { intros f Hf1 Hf2%elem_of_list_to_set.
    by apply (proj1 (Forall_forall _ _) Hnew f). }
  set_solver.
Qed.

End Select.

Lemma select_then_deselect_restores_witness :
  let self := demo_cli ["/d/a.jpg"; "/d/b.png"; "/d/c.mp4"] ["/d/a.jpg"] in
  let self' :=
    (CLIMediaViewer.deselect_files
       (CLIMediaViewer.select_files self [2; 9; 3; 2]).1 [2; 9; 3; 2]).1 in
  CLIMediaViewer.selected_files self' = CLIMediaViewer.selected_files self ∧
  CLIMediaViewer.media_files self' = CLIMediaViewer.media_files self.
Proof.
  apply (select_then_deselect_restores
           (demo_cli ["/d/a.jpg"; "/d/b.png"; "/d/c.mp4"] ["/d/a.jpg"]) [2; 9; 3; 2]).
  vm_compute. repeat constructor; by vm_compute.
Defined.
(** ** The command loop of the headless viewer *)

Section Loop.
Context `{Codec}.
Import CLIMediaViewer.

(** What one turn, or any number of turns, may do to the viewer and the
    files on disk. *)
Local Abbreviation evolves self w self' w' :=
  (media_files self' `sublist_of` media_files self ∧
   ∀ p, fs w' !! p = fs w !! p ∨
        (fs w' !! p = None ∧ p ∈ media_files self ∧ p ∉ media_files self')).

Lemma evolves_refl self w : evolves self w self w.
Proof. split; [done|]. by left. Qed.

Lemma evolves_same_files self w self' w' :
  media_files self' = media_files self → fs w' = fs w → evolves self w self' w'.
Proof. intros -> ->. apply evolves_refl. Qed.

Lemma evolves_trans self w self1 w1 self2 w2 :
  evolves self w self1 w1 → evolves self1 w1 self2 w2 → evolves self w self2 w2.
Proof.
  intros [Hs1 Hf1] [Hs2 Hf2]. split; [by etrans|].
  intros p. destruct (Hf2 p) as [->|(Hn & Hin & Hnot)].
  - destruct (Hf1 p) as [->|(Hn & Hin & Hnot)]; [by left|].
    right. repeat split; [done..|]. intros Hp. apply Hnot.
    by eapply elem_of_sublist.
  - right. repeat split; [done| |done]. by eapply elem_of_sublist.
Qed.

Lemma display_files_from_fs self files : ∀ w,
  fs (display_files_from self files w).2 = fs w.
Proof.
  induction files as [|f files IH]; intros w; [done|]. simpl.
  pose proof (get_media_info_fs (media_handler self) f w) as [Hfs _].
  destruct (MediaHandler.get_media_info (media_handler self) f w) as [[info|e] w1];
    simpl in *; [|done].
  case_match; simpl; [done|]. by rewrite IH.
Qed.

Lemma show_file_info_fs self number w : fs (show_file_info self number w) = fs w.
Proof.
  unfold show_file_info. case_match; [|done].
  by apply get_media_info_fs.
Qed.

Lemma open_file_fs self number w : fs (open_file self number w) = fs w.
Proof. unfold open_file. by case_match. Qed.

Lemma delete_selected_evolves self response order w :
  order ≡ₚ elements (selected_files self) →
  selection_invariant (media_files self) (selected_files self) →
  evolves self w (delete_selected self response order w).1.1
                 (delete_selected self response order w).1.2.
Proof.
  intros Horder [Hnd Hsub]. unfold delete_selected.
  case_bool_decide; [apply evolves_refl|].
  case_bool_decide; simpl; [|apply evolves_refl].
  destruct (delete_loop order self w O
              (("You are about to DELETE " +:+ pretty (size (selected_files self))
                +:+ " files:") ::
               ((λ filepath, "  - " +:+ Py.basename filepath) <$> order)))
    as (self' & w' & out' & -> & Hfiles & Hselected & Hfs & _); try done.
  { rewrite Horder. apply NoDup_elements. }
  { intros f. rewrite Horder. apply elem_of_elements. }
  simpl. split.
  - rewrite Hfiles. apply sublist_filter.
  - intros p. rewrite Hfs, Hfiles. case_bool_decide as Hp; [|by left].
    right. split; [done|]. split.
    + apply Hsub. apply list_elem_of_filter in Hp as [_ Hp].
      rewrite Horder in Hp. by apply elem_of_elements.
    + intros [Hnot _]%list_elem_of_filter. done.
Qed.

Lemma select_files_media_files self numbers :
  media_files (select_files self numbers).1 = media_files self.
Proof.
  unfold select_files.
  by destruct (select_fold numbers self 0%nat []) as (self' & -> & Hm & _).
Qed.

Lemma deselect_files_media_files self numbers :
  media_files (deselect_files self numbers).1 = media_files self.
Proof.
  unfold deselect_files.
  by destruct (deselect_fold numbers self 0%nat []) as (self' & cnt & -> & Hm & _).
Qed.

(** One turn of the loop: the invariant is kept, the list can only lose
    files, the disk can only lose files of the list, and at most one
    more line is read. *)
Lemma turn_step max_str_digits mem enumerate line stdin self w self' w' stdin' :
  (∀ s, enumerate s ≡ₚ elements s) →
  selection_invariant (media_files self) (selected_files self) →
  turn max_str_digits mem enumerate line stdin self w = Some (self', w', stdin') →
  selection_invariant (media_files self') (selected_files self') ∧
  evolves self w self' w' ∧
  (stdin' = stdin ∨ stdin' = tail stdin).
Proof.
  intros Henum Hinv. unfold turn.
  destruct (decode line) eqn:Hd; intros Ht; simplify_eq;
    try (split; [done|]; split; [apply evolves_refl|by left]).
  - split; [done|]. split; [|by left].
    apply evolves_same_files; [done|]. apply display_files_from_fs.
  - destruct (parse_numbers max_str_digits mem args) as [[numbers out]|e]; simplify_eq;
      [|split; [done|]; split; [apply evolves_refl|by left]].
    split; [by apply select_files_invariant|]. split; [|by left].
    apply evolves_same_files; [apply select_files_media_files|done].
  - destruct (parse_numbers max_str_digits mem args) as [[numbers out]|e]; simplify_eq;
      [|split; [done|]; split; [apply evolves_refl|by left]].
    split; [by apply deselect_files_invariant|]. split; [|by left].
    apply evolves_same_files; [apply deselect_files_media_files|done].
  - destruct Hinv as [Hnd _]. split; [|split; [by apply evolves_same_files|by left]].
    split; [done|]. simpl. intros f. by rewrite elem_of_list_to_set.
  - destruct Hinv as [Hnd _]. split; [|split; [by apply evolves_same_files|by left]].
    split; [done|]. simpl. intros f Hf. by apply elem_of_empty in Hf.
  - split; [by apply keep_selected_invariant|]. split; [|by left].
    split; [|by left]. unfold keep_selected. case_bool_decide; [done|]. simpl.
    apply sublist_filter.
  - case_bool_decide; simplify_eq; [split; [done|]; split; [apply evolves_refl|by left]|].
    destruct stdin as [|answer stdin]; simplify_eq;
      [split; [done|]; split; [apply evolves_refl|by left]|].
    pose proof (delete_selected_invariant self (Py.lower (Py.strip answer))
                  (enumerate (selected_files self)) w (Henum _) Hinv) as Hi.
    pose proof (delete_selected_evolves self (Py.lower (Py.strip answer))
                  (enumerate (selected_files self)) w (Henum _) Hinv) as He.
    destruct (delete_selected self (Py.lower (Py.strip answer))
                (enumerate (selected_files self)) w) as [[self1 w1] out].
    simplify_eq. simpl in *. split; [done|]. split; [done|]. by right.
  - destruct (Py.int max_str_digits arg) as [number|e]; simplify_eq;
      [|split; [done|]; split; [apply evolves_refl|by left]].
    split; [done|]. split; [|by left].
    apply evolves_same_files; [done|]. apply show_file_info_fs.
  - destruct (Py.int max_str_digits arg) as [number|e]; simplify_eq;
      [|split; [done|]; split; [apply evolves_refl|by left]].
    split; [done|]. split; [|by left].
    apply evolves_same_files; [done|]. apply open_file_fs.
Qed.

Lemma turn_quit max_str_digits mem enumerate line stdin self w :
  turn max_str_digits mem enumerate line stdin self w = None ↔ decode line = ReqQuit.
Proof.
  unfold turn. destruct (decode line); split; try done; repeat case_match; done.
Qed.

Lemma turn_reads_one max_str_digits mem enumerate line stdin self w self' w' stdin' :
  decode line ≠ ReqRemove →
  turn max_str_digits mem enumerate line stdin self w = Some (self', w', stdin') →
  stdin' = stdin.
Proof.
  unfold turn. intros Hr Ht.
  destruct (decode line); try done; repeat case_match; by simplify_eq.
Qed.

(** X7: short of an interrupt, the loop ends only by reading a quit
    command.  When no line of the input is one, it goes on for ever,
    also after the end of the input: the [EOFError] of [input] is caught
    like any other exception. *)
Theorem run_interactive_never_returns_without_quit
    max_str_digits mem enumerate stdin self w :
  Forall (λ line, Py.isascii line = true ∧ decode line ≠ ReqQuit) stdin →
  ∀ fuel, run_interactive fuel max_str_digits mem enumerate stdin self w = None.
Proof.
  intros Hq fuel. revert stdin self w Hq.
  induction fuel as [|fuel IH]; intros stdin self w Hq; [done|]. simpl.
  destruct stdin as [|line stdin]; [by apply IH|].
  apply Forall_cons in Hq as [[_ Hline] Hq].
  destruct (turn max_str_digits mem enumerate line stdin self w)
    as [[[self' w'] stdin']|] eqn:Ht.
  - apply IH. unfold turn in Ht.
    destruct (decode line); try done; repeat case_match; simplify_eq; try done.
    by apply Forall_cons in Hq as [_ Hq].
  - by apply turn_quit in Ht.
Qed.

(** X8: the loop ends when it reads a quit command, and leaves the rest
    of the input unread, provided no remove command came before (its
    confirmation consumes a line of its own). *)
Theorem run_interactive_stops_at_quit
    max_str_digits mem enumerate before line after self w :
  Forall (λ line, Py.isascii line = true ∧
                  decode line ≠ ReqQuit ∧ decode line ≠ ReqRemove) before →
  Py.isascii line = true → decode line = ReqQuit →
  ∃ self' w', ∀ fuel, (length before < fuel)%nat →
    run_interactive fuel max_str_digits mem enumerate (before ++ line :: after) self w
      = Some (self', w', after).
Proof.
  intros Hb _ Hq. revert self w.
  induction before as [|cmd before IH]; intros self w.
  - exists self, w. intros [|fuel] Hf; [simpl in Hf; lia|]. simpl.
    by rewrite (proj2 (turn_quit max_str_digits mem enumerate line after self w) Hq).
  - apply Forall_cons in Hb as [(_ & Hnq & Hnr) Hb].
    destruct (turn max_str_digits mem enumerate cmd (before ++ line :: after) self w)
      as [[[self1 w1] stdin1]|] eqn:Ht; [|by apply turn_quit in Ht].
    pose proof (turn_reads_one _ _ _ _ _ _ _ _ _ _ Hnr Ht) as ->.
    destruct (IH Hb self1 w1) as (self' & w' & Hrun).
    exists self', w'. intros [|fuel] Hf; [simpl in Hf; lia|].
    cbn [app run_interactive]. rewrite Ht. apply Hrun. simpl in Hf. lia.
Qed.

(** X9: when the loop ends, the selected files are files of the list,
    the list is what is left of the list the loop started with, in the
    same order, and the only files that disappeared from the disk are
    files of that list, which are no longer listed. *)
Theorem run_interactive_shrinks_list_and_disk
    max_str_digits mem enumerate fuel stdin self w self' w' stdin' :
  (∀ s, enumerate s ≡ₚ elements s) →
  Forall (λ line, Py.isascii line = true) stdin →
  selection_invariant (media_files self) (selected_files self) →
  run_interactive fuel max_str_digits mem enumerate stdin self w = Some (self', w', stdin') →
  selection_invariant (media_files self') (selected_files self') ∧
  media_files self' `sublist_of` media_files self ∧
  ∀ p, fs w' !! p = fs w !! p ∨
       (fs w' !! p = None ∧ p ∈ media_files self ∧ p ∉ media_files self').
Proof.
  intros Henum _. revert stdin self w.
  induction fuel as [|fuel IH]; intros stdin self w Hinv Hrun; [done|].
  simpl in Hrun. destruct stdin as [|line stdin]; [by eapply IH|].
  destruct (turn max_str_digits mem enumerate line stdin self w)
    as [[[self1 w1] stdin1]|] eqn:Ht.
  - destruct (turn_step _ _ _ _ _ _ _ _ _ _ Henum Hinv Ht) as (Hinv1 & Hev1 & _).
    destruct (IH _ _ _ Hinv1 Hrun) as (Hinv' & Hev').
    split; [done|]. by eapply evolves_trans.
  - simplify_eq. split; [done|]. apply evolves_refl.
Qed.

End Loop.

Lemma run_interactive_never_returns_without_quit_witness :
  CLIMediaViewer.run_interactive 1000 4300 Demo.memory elements ["s 1"; "list"; "bye"]
    (demo_cli ["/d/a.jpg"; "/d/b.png"] [])
    (Demo.world [("/d/a.jpg", "IMG-a"); ("/d/b.png", "IMG-b")]) = None.
Proof.
  apply (run_interactive_never_returns_without_quit (H := Demo.codec)).
  repeat constructor; by vm_compute.
Defined.

Lemma run_interactive_stops_at_quit_witness :
  ∃ self' w', ∀ fuel, (length ["s 1"; "list"] < fuel)%nat →
    CLIMediaViewer.run_interactive fuel 4300 Demo.memory elements
      (["s 1"; "list"] ++ " Quit " :: ["a"])
      (demo_cli ["/d/a.jpg"; "/d/b.png"] [])
      (Demo.world [("/d/a.jpg", "IMG-a"); ("/d/b.png", "IMG-b")])
    = Some (self', w', ["a"]).
Proof.
  apply (run_interactive_stops_at_quit (H := Demo.codec)).
  - repeat constructor; by vm_compute.
  - vm_compute. reflexivity.
  - vm_compute. reflexivity.
Defined.

Lemma run_interactive_shrinks_list_and_disk_witness :
  let self := demo_cli ["/d/a.jpg"; "/d/b.png"; "/d/c.mp4"] [] in
  let w := demo_world_locked
             [("/d/a.jpg", "IMG-a"); ("/d/b.png", "IMG-b"); ("/d/c.mp4", "VID-c")]
             ["/d/b.png"] in
  match CLIMediaViewer.run_interactive 10 4300 Demo.memory elements
          ["s 1-2"; "r"; "yes"; "k"; "q"] self w with
  | Some (self', w', _) =>
      CLIMediaViewer.media_files self' = ["/d/b.png"] ∧
      selection_invariant (CLIMediaViewer.media_files self')
                          (CLIMediaViewer.selected_files self') ∧
      CLIMediaViewer.media_files self' `sublist_of` CLIMediaViewer.media_files self ∧
      ∀ p, fs w' !! p = fs w !! p ∨
           (fs w' !! p = None ∧ p ∈ CLIMediaViewer.media_files self ∧
            p ∉ CLIMediaViewer.media_files self')
  | None => False
  end.
Proof.
  intros self w.
  assert (selection_invariant (CLIMediaViewer.media_files self)
                              (CLIMediaViewer.selected_files self)) as Hinv.
  { split; [compute_done|]. intros f. unfold self, demo_cli. simpl. set_solver. }
  assert (Forall (λ line, Py.isascii line = true) ["s 1-2"; "r"; "yes"; "k"; "q"])
    as Hascii by (repeat constructor).
  pose proof (λ self' w' stdin',
                run_interactive_shrinks_list_and_disk (H := Demo.codec)
                  4300 Demo.memory elements 10 ["s 1-2"; "r"; "yes"; "k"; "q"] self w
                  self' w' stdin' (λ s, reflexivity _) Hascii Hinv) as Hthm.
  assert ((λ r, CLIMediaViewer.media_files r.1.1) <$>
            CLIMediaViewer.run_interactive 10 4300 Demo.memory elements
              ["s 1-2"; "r"; "yes"; "k"; "q"] self w = Some ["/d/b.png"]) as Hfiles
    by (vm_compute; reflexivity).
  destruct (CLIMediaViewer.run_interactive 10 4300 Demo.memory elements
              ["s 1-2"; "r"; "yes"; "k"; "q"] self w)
    as [[[self' w'] stdin']|]; [|discriminate Hfiles].
  split; [by injection Hfiles|]. by apply (Hthm self' w' stdin').
Defined.
(** ** Failed thumbnails and the preloading worker *)

Section Preload.
Context `{Codec}.
Import MediaHandler.

(** Whether the computation of a thumbnail gives one depends on the
    file and on the size asked for, not on the cache or on what was
    computed before. *)
Lemma create_thumbnail_fails_again self1 self2 f w1 w2 :
  cache self1 !! f = None → cache self2 !! f = None →
  thumbnail_size self1 = thumbnail_size self2 → fs w1 = fs w2 →
  (create_thumbnail self1 f w1).1.1 = None →
  (create_thumbnail self2 f w2).1.1 = None.
Proof.
  intros Hc1 Hc2 Hsize Hfs. unfold create_thumbnail. rewrite Hc1, Hc2.
  unfold _create_video_thumbnail, _create_image_thumbnail. simpl.
  rewrite Hfs, Hsize.
  destruct (is_video_file f).
  - destruct (fs w2 !! f ≫= VideoCapture) as [cap|]; [|done].
    destruct (Float.to_int (cap_frame_count cap)) as [fc|]; [|done].
    destruct (target_frame fc) as [target|]; [|done].
    destruct (cap_read_at cap target) as [fr|]; [|done].
    destruct (frame_thumbnail fr (thumbnail_size self2)); done.
  - destruct (fs w2 !! f) as [c|]; [|done].
    destruct (Image_open c) as [img|]; [|done].
    destruct (image_thumbnail img (thumbnail_size self2)); done.
Qed.

Lemma create_thumbnail_size self f w :
  thumbnail_size (create_thumbnail self f w).1.2 = thumbnail_size self.
Proof.
  destruct (cache self !! f) as [t|] eqn:Hc.
  - by rewrite (create_thumbnail_hit _ _ _ _ Hc).
  - destruct (create_thumbnail_miss self f w Hc) as (r & w' & _ & ->).
    by destruct r as [[t|]|e].
Qed.

Lemma create_thumbnail_failure self f w :
  (create_thumbnail self f w).1.1 = None →
  (create_thumbnail self f w).1.2 = self ∧ cache self !! f = None ∧
  fs (create_thumbnail self f w).2 = fs w ∧
  decoder_calls (create_thumbnail self f w).2 = S (decoder_calls w).
Proof.
  destruct (cache self !! f) as [t|] eqn:Hc.
  - by rewrite (create_thumbnail_hit _ _ _ _ Hc).
  - destruct (create_thumbnail_miss self f w Hc) as (r & w' & (Hfs & _ & Hd & _) & ->).
    by destruct r as [[t|]|e].
Qed.

(** X10: a thumbnail that could not be made is not remembered: the
    handler is unchanged, and the next request for the same file invokes
    the decoder again and, the files being the same, fails again. *)
Theorem create_thumbnail_failure_is_retried self f w :
  (create_thumbnail self f w).1.1 = None →
  let st := create_thumbnail self f w in
  let st' := create_thumbnail st.1.2 f st.2 in
  st.1.2 = self ∧ cache self !! f = None ∧
  decoder_calls st.2 = S (decoder_calls w) ∧
  st'.1.1 = None ∧ st'.1.2 = self ∧
  decoder_calls st'.2 = S (S (decoder_calls w)).
Proof.
  intros Hfail st st'.
  destruct (create_thumbnail_failure self f w Hfail) as (Hself & Hc & Hfs & Hd).
  fold st in Hself, Hfs, Hd.
  assert (st'.1.1 = None) as Hfail'.
  { unfold st'. rewrite Hself.
    by apply (create_thumbnail_fails_again self self f w st.2). }
  destruct (create_thumbnail_failure st.1.2 f st.2 Hfail') as (Hself' & _ & _ & Hd').
  fold st' in Hself', Hd'. repeat split; try done; congruence.
Qed.

Lemma length_filter_impl {A} (P Q : A → Prop) `{∀ x, Decision (P x)}
    `{∀ x, Decision (Q x)} (l : list A) :
  (∀ x, P x → Q x) → (length (filter P l) ≤ length (filter Q l))%nat.
Proof.
  intros HPQ. induction l as [|x l IH]; [done|].
  destruct (decide (P x)) as [HP|HP].
  - rewrite filter_cons_True, (filter_cons_True Q) by auto. simpl. lia.
  - rewrite filter_cons_False by done.
    destruct (decide (Q x)); [rewrite filter_cons_True by done; simpl; lia|].
    by rewrite filter_cons_False.
Qed.

Lemma worker_cons self i total f fps stop w :
  worker self i total (f :: fps) stop w =
  if stop i then (self, w, [])
  else
    let r := worker (worker_entry self f w).1 (S i) total fps stop (worker_entry self f w).2 in
    (r.1.1, r.1.2, (S i, total, f) :: r.2).
Proof.
  cbn [worker]. destruct (stop i); [done|].
  destruct (worker_entry self f w) as [self1 w1]. simpl.
  by destruct (worker self1 (S i) total fps stop w1) as [[??]?].
Qed.

Lemma worker_entry_effects self f w :
  thumbnail_size (worker_entry self f w).1 = thumbnail_size self ∧
  fs (worker_entry self f w).2 = fs w ∧
  (∀ g t, cache self !! g = Some t → cache (worker_entry self f w).1 !! g = Some t) ∧
  (decoder_calls w ≤ decoder_calls (worker_entry self f w).2)%nat ∧
  (decoder_calls (worker_entry self f w).2 ≤
     decoder_calls w + match cache self !! f with Some _ => 0 | None => 1 end)%nat ∧
  (is_Some (cache (worker_entry self f w).1 !! f) ∨
   (create_thumbnail (worker_entry self f w).1 f (worker_entry self f w).2).1.1 = None).
Proof.
  unfold worker_entry. destruct (cache self !! f) as [t|] eqn:Hc.
  - simpl. rewrite Hc. repeat split; eauto with lia.
  - pose proof (create_thumbnail_size self f w) as Hsize.
    pose proof (create_thumbnail_fs self f w) as [Hfs _].
    pose proof (λ g t, create_thumbnail_keeps self f w g t) as Hkeep.
    pose proof (create_thumbnail_failure self f w) as Hfail.
    pose proof (create_thumbnail_stored self f w) as Hstored.
    destruct (create_thumbnail_miss self f w Hc) as (r & w1 & (_ & _ & Hd & _) & Heq).
    assert (decoder_calls (create_thumbnail self f w).2 = S (decoder_calls w)) as Hd'.
    { rewrite Heq. by destruct r as [[?|]|?]. }
    destruct (create_thumbnail self f w) as [[r' self'] w'] eqn:Hct. simpl in *.
    repeat split; try done; try lia.
    destruct r' as [t|].
    + left. exists t. by eapply Hstored.
    + right. destruct (Hfail eq_refl) as (-> & _ & Hfs' & _).
      apply (create_thumbnail_fails_again self self f w w'); try done.
      by rewrite Hct.
Qed.

Lemma worker_effects fps : ∀ self i total stop w,
  let r := worker self i total fps stop w in
  thumbnail_size r.1.1 = thumbnail_size self ∧
  fs r.1.2 = fs w ∧
  (∀ g t, cache self !! g = Some t → cache r.1.1 !! g = Some t) ∧
  (decoder_calls w ≤ decoder_calls r.1.2)%nat ∧
  (decoder_calls r.1.2 ≤
     decoder_calls w + length (filter (λ f, cache self !! f = None) fps))%nat.
Proof.
  induction fps as [|f fps IH]; intros self i total stop w.
  { simpl. repeat split; auto with lia. }
  rewrite worker_cons. destruct (stop i).
  { simpl. repeat split; auto with lia. }
  destruct (worker_entry_effects self f w) as (Hsize & Hfs & Hkeep & Hge & Hle & _).
  specialize (IH (worker_entry self f w).1 (S i) total stop (worker_entry self f w).2).
  destruct IH as (Hsize' & Hfs' & Hkeep' & Hge' & Hle').
  cbn zeta. cbn [fst snd]. repeat split.
  - congruence.
  - congruence.
  - auto.
  - lia.
  - etrans; [exact Hle'|].
    pose proof (length_filter_impl
                  (λ g, cache (worker_entry self f w).1 !! g = None)
                  (λ g, cache self !! g = None) fps) as Hmono.
    assert (length (filter (λ g, cache (worker_entry self f w).1 !! g = None) fps)
            ≤ length (filter (λ g, cache self !! g = None) fps))%nat as Hl.
    { apply Hmono. intros g Hg. destruct (cache self !! g) as [t|] eqn:Hcg; [|done].
      by rewrite (Hkeep g t Hcg) in Hg. }
    destruct (cache self !! f) eqn:Hcf.
    + rewrite filter_cons_False by (by rewrite Hcf). lia.
    + rewrite filter_cons_True by done. simpl. lia.
Qed.

(** X11: the worker only adds to the cache and only reads the files: an
    entry present before is present after, with the same object; no file
    changes; and the decoder is invoked at most once for each entry of
    the list that was not cached at the start. *)
Theorem preload_thumbnails_only_adds self filepaths stop w :
  let st := preload_thumbnails self filepaths stop w in
  (∀ f t, cache self !! f = Some t → cache st.1.1 !! f = Some t) ∧
  fs st.1.2 = fs w ∧
  (decoder_calls w ≤ decoder_calls st.1.2 ≤
     decoder_calls w + length (filter (λ f, cache self !! f = None) filepaths))%nat.
Proof.
  intros st.
  destruct (worker_effects filepaths self 0%nat (length filepaths) stop w)
    as (_ & Hfs & Hkeep & Hge & Hle).
  by repeat split.
Qed.

Lemma worker_complete fps : ∀ self i total stop w,
  (∀ j, stop j = false) →
  let r := worker self i total fps stop w in
  ∀ f, f ∈ fps →
    is_Some (cache r.1.1 !! f) ∨ (create_thumbnail r.1.1 f r.1.2).1.1 = None.
Proof.
  induction fps as [|f0 fps IH]; intros self i total stop w Hstop r f Hf.
  { by apply elem_of_nil in Hf. }
  subst r. rewrite worker_cons, Hstop. cbn zeta. cbn [fst snd].
  destruct (worker_entry_effects self f0 w) as (Hsize & Hfs & Hkeep & _ & _ & Hdone).
  pose proof (worker_effects fps (worker_entry self f0 w).1 (S i) total stop (worker_entry self f0 w).2)
    as (Hsize' & Hfs' & Hkeep' & _).
  apply elem_of_cons in Hf as [->|Hf]; [|by apply IH].
  destruct Hdone as [[t Ht]|Hfail]; [left; eauto|].
  set (r := worker _ (S i) total fps stop _) in *.
  destruct (cache r.1.1 !! f0) as [t|] eqn:Hc; [left; eauto|right].
  destruct (cache (worker_entry self f0 w).1 !! f0) as [t|] eqn:Hc1.
  { by rewrite (Hkeep' f0 t Hc1) in Hc. }
  by apply (create_thumbnail_fails_again (worker_entry self f0 w).1 r.1.1 f0
              (worker_entry self f0 w).2 r.1.2).
Qed.

(** X12: when the worker is not stopped, every file of the list either
    has its thumbnail in the cache at the end or is a file for which no
    thumbnail can be made. *)
Theorem preload_thumbnails_complete self filepaths stop w f :
  (∀ i, stop i = false) → f ∈ filepaths →
  let st := preload_thumbnails self filepaths stop w in
  is_Some (cache st.1.1 !! f) ∨ (create_thumbnail st.1.1 f st.1.2).1.1 = None.
Proof. intros Hstop Hf. by apply worker_complete. Qed.

Lemma worker_calls fps : ∀ self i total stop w m,
  (m ≤ length fps)%nat →
  (∀ j, (j < m)%nat → stop (i + j)%nat = false) →
  ((m < length fps)%nat → stop (i + m)%nat = true) →
  (worker self i total fps stop w).2 =
    imap (λ j f, (S (i + j), total, f)) (take m fps) ∧
  ∀ total', (worker self i total fps stop w).1 =
            (worker self i total' (take m fps) (λ _, false) w).1.
Proof.
  induction fps as [|f fps IH]; intros self i total stop w m Hm Hgo Hstop.
  { simpl in Hm. assert (m = 0%nat) as -> by lia. done. }
  rewrite worker_cons. destruct m as [|m].
  { rewrite Nat.add_0_r in Hstop. rewrite Hstop by (simpl; lia). done. }
  assert (stop i = false) as Hi.
  { rewrite <- (Nat.add_0_r i). apply Hgo. lia. }
  rewrite Hi. cbn [take]. cbn zeta. cbn [fst snd].
  destruct (IH (worker_entry self f w).1 (S i) total stop (worker_entry self f w).2 m)
    as [Hcalls Hstate].
  { simpl in Hm. lia. }
  { intros j Hj. replace (S i + j)%nat with (i + S j)%nat by lia. apply Hgo. lia. }
  { intros Hlt. replace (S i + m)%nat with (i + S m)%nat by lia. apply Hstop.
    simpl. lia. }
  split.
  - rewrite Hcalls, imap_cons, Nat.add_0_r. f_equal.
    apply imap_ext. intros j g _. simpl. do 2 f_equal. lia.
  - intros total'. rewrite worker_cons. cbv beta iota zeta. cbn [fst snd].
    by rewrite (Hstate total').
Qed.

(** X13: the progress reports.  When the stop flag is first seen set at
    entry [m] (or never, with [m] the length of the list), the callback
    has been called once for each of the first [m] files, in order, with
    the counts [1] to [m] and the length of the whole list as total; and
    the cache and the world are those of a complete run on these [m]
    files. *)
Theorem preload_thumbnails_progress self filepaths stop w m :
  (m ≤ length filepaths)%nat →
  (∀ j, (j < m)%nat → stop j = false) →
  ((m < length filepaths)%nat → stop m = true) →
  let st := preload_thumbnails self filepaths stop w in
  st.2 = imap (λ j f, (S j, length filepaths, f)) (take m filepaths) ∧
  st.1 = (preload_thumbnails self (take m filepaths) (λ _, false) w).1.
Proof.
  intros Hm Hgo Hstop st.
  destruct (worker_calls filepaths self 0%nat (length filepaths) stop w m Hm Hgo Hstop)
    as [Hcalls Hstate].
  split; [done|]. apply Hstate.
Qed.

End Preload.

Lemma create_thumbnail_failure_is_retried_witness :
  let self : MediaHandler.t (H := Demo.codec) := MediaHandler.init in
  let w := Demo.world [("/d/x.jpg", "broken")] in
  let st := MediaHandler.create_thumbnail self "/d/x.jpg" w in
  let st' := MediaHandler.create_thumbnail st.1.2 "/d/x.jpg" st.2 in
  st.1.2 = self ∧ MediaHandler.cache self !! "/d/x.jpg" = None ∧
  decoder_calls st.2 = S (decoder_calls w) ∧
  st'.1.1 = None ∧ st'.1.2 = self ∧
  decoder_calls st'.2 = S (S (decoder_calls w)).
Proof.
  apply (create_thumbnail_failure_is_retried (H := Demo.codec) MediaHandler.init
           "/d/x.jpg" (Demo.world [("/d/x.jpg", "broken")])).
  vm_compute. reflexivity.
Defined.

Lemma preload_thumbnails_complete_witness :
  let st :=
    MediaHandler.preload_thumbnails (H := Demo.codec) MediaHandler.init
      ["/d/a.jpg"; "/d/x.jpg"; "/d/c.mp4"] (λ _, false)
      (Demo.world [("/d/a.jpg", "IMG-a"); ("/d/x.jpg", "broken"); ("/d/c.mp4", "VID-c")]) in
  is_Some (MediaHandler.cache st.1.1 !! "/d/x.jpg") ∨
  (MediaHandler.create_thumbnail st.1.1 "/d/x.jpg" st.1.2).1.1 = None.
Proof.
  apply (preload_thumbnails_complete (H := Demo.codec)).
  - reflexivity.
  - set_solver.
Defined.

Lemma preload_thumbnails_progress_witness :
  let files := ["/d/a.jpg"; "/d/x.jpg"; "/d/c.mp4"] in
  let w := Demo.world [("/d/a.jpg", "IMG-a"); ("/d/x.jpg", "broken");
                       ("/d/c.mp4", "VID-c")] in
  let st := MediaHandler.preload_thumbnails (H := Demo.codec) MediaHandler.init
              files (λ j, (2 <=? j)%nat) w in
  st.2 = imap (λ j f, (S j, length files, f)) (take 2 files) ∧
  st.1 = (MediaHandler.preload_thumbnails MediaHandler.init (take 2 files)
            (λ _, false) w).1.
Proof.
  apply (preload_thumbnails_progress (H := Demo.codec)).
  - simpl. lia.
  - intros j Hj. apply Nat.leb_gt. lia.
  - reflexivity.
Defined.
(** ** The remote listing *)

Lemma rstrip_idempotent s : Py.rstrip (Py.rstrip s) = Py.rstrip s.
Proof.
  induction s as [|c s IH]; [done|]. cbn [Py.rstrip].
  destruct (Py.rstrip s) as [|c' r] eqn:Hr.
  - destruct (Py.isspace c) eqn:Hc; [done|]. simpl. by rewrite Hc.
  - cbn [Py.rstrip]. cbn [Py.rstrip] in IH. by rewrite IH.
Qed.

Lemma rstrip_head c s :
  Py.isspace c = false → ∃ r, Py.rstrip (String c s) = String c r.
Proof.
  intros Hc. cbn [Py.rstrip]. destruct (Py.rstrip s); [rewrite Hc|]; eauto.
Qed.

Lemma lstrip_head s :
  Py.lstrip s = EmptyString ∨
  ∃ c r, Py.lstrip s = String c r ∧ Py.isspace c = false.
Proof.
  induction s as [|c s IH]; [by left|]. simpl.
  destruct (Py.isspace c) eqn:Hc; [done|]. right. eauto.
Qed.

Lemma strip_idempotent s : Py.strip (Py.strip s) = Py.strip s.
Proof.
  unfold Py.strip. destruct (lstrip_head s) as [->|(c & r & -> & Hc)]; [done|].
  destruct (rstrip_head c r Hc) as [r' Hr']. rewrite Hr'. simpl. rewrite Hc.
  by rewrite <- Hr', rstrip_idempotent.
Qed.

Lemma contains_lstrip c s :
  Py.contains c s = false → Py.contains c (Py.lstrip s) = false.
Proof.
  induction s as [|a s IH]; [done|]. simpl.
  intros [Ha Hs]%orb_false_iff. destruct (Py.isspace a); [by apply IH|].
  simpl. by rewrite Ha, Hs.
Qed.

Lemma contains_rstrip c s :
  Py.contains c s = false → Py.contains c (Py.rstrip s) = false.
Proof.
  induction s as [|a s IH]; [done|]. simpl.
  intros [Ha Hs]%orb_false_iff. specialize (IH Hs).
  destruct (Py.rstrip s) as [|a' r].
  - destruct (Py.isspace a); [done|]. simpl. by rewrite Ha.
  - simpl in *. by rewrite Ha, IH.
Qed.

Lemma contains_strip c s :
  Py.contains c s = false → Py.contains c (Py.strip s) = false.
Proof. intros Hs. by apply contains_rstrip, contains_lstrip. Qed.

(** The pieces [split] cuts do not contain the separator. *)
Lemma split_pieces c s : Forall (λ p, Py.contains c p = false) (Py.split c s).
Proof.
  induction s as [|a s IH]; simpl.
  - by repeat constructor.
  - destruct (decide (a = c)) as [->|Ha]; [by constructor|].
    destruct (Py.split c s) as [|p ps].
    + repeat constructor. simpl. by rewrite bool_decide_eq_false_2.
    + apply Forall_cons in IH as [Hp Hps]. constructor; [|done].
      simpl. by rewrite bool_decide_eq_false_2, Hp.
Qed.

Lemma split_line c p rest :
  Py.contains c p = false →
  Py.split c (p +:+ String c rest) = p :: Py.split c rest.
Proof.
  induction p as [|a p IH]; simpl.
  - intros _. by rewrite decide_True.
  - intros [Ha%bool_decide_eq_false Hp]%orb_false_iff.
    rewrite decide_False by done. by rewrite (IH Hp).
Qed.

Lemma split_unlines paths :
  Forall (λ p, Py.contains "010" p = false) paths →
  Py.split "010" (unlines paths) = paths ++ [EmptyString].
Proof.
  induction 1 as [|p paths Hp _ IH]; [done|]. simpl.
  by rewrite (split_line _ _ _ Hp), IH.
Qed.

(** Without a carriage return, nothing changes when the text is read
    with universal newlines. *)
Lemma universal_newlines_id s :
  Py.contains "013" s = false → Py.universal_newlines s = s.
Proof.
  induction s as [|c s IH]; [done|]. cbn [Py.contains].
  intros [Hc%bool_decide_eq_false Hs]%orb_false_iff.
  cbn [Py.universal_newlines]. rewrite (IH Hs).
  destruct c as [[] [] [] [] [] [] [] []]; done.
Qed.

Lemma contains_unlines c paths :
  c ≠ "010"%char →
  Forall (λ p, Py.contains c p = false) paths →
  Py.contains c (unlines paths) = false.
Proof.
  intros Hc. induction 1 as [|p paths Hp _ IH]; [done|]. simpl.
  induction p as [|a p IHp]; simpl in *.
  - rewrite IH, orb_false_r. by apply bool_decide_eq_false_2.
  - apply orb_false_iff in Hp as [-> Hp]. by apply IHp.
Qed.

Lemma universal_newlines_unlines paths :
  Forall (λ p, Py.contains "013" p = false) paths →
  Py.universal_newlines (unlines paths) = unlines paths.
Proof. intros Hp. by apply universal_newlines_id, contains_unlines. Qed.

Section Listing.
Context `{Codec}.
Import RemoteMediaHandler.

(** X14: whatever ASCII text the remote command answers, every path of
    the remote listing is a non-empty line of the answer without
    surrounding whitespace, and a failed command gives the empty
    listing. *)
Theorem remote_listing_entries_are_stripped_lines
    self directory recursive (run : string → option string) :
  (∀ result, run (find_cmd directory recursive) = Some result →
             Py.isascii result = true) →
  Forall (λ f, f ≠ EmptyString ∧ Py.strip f = f ∧ Py.contains "010" f = false ∧
               ∃ result line, run (find_cmd directory recursive) = Some result ∧
                              line ∈ Py.split "010" result ∧ f = Py.strip line)
         (get_files_in_directory self directory recursive run) ∧
  (run (find_cmd directory recursive) = None →
   get_files_in_directory self directory recursive run = []).
Proof.
  intros _. unfold get_files_in_directory.
  destruct (run (find_cmd directory recursive)) as [result|]; [|by split].
  split; [|done]. destruct result as [|a result]; [by constructor|].
  apply Forall_forall. intros f (line & -> & [Hline Hin]%list_elem_of_filter)%list_elem_of_fmap.
  split; [done|]. split; [apply strip_idempotent|]. split; [|by eauto].
  apply contains_strip.
  by apply (proj1 (Forall_forall _ _) (split_pieces "010" (String a result))).
Qed.

(** X15: when [ssh] runs the command and ends with status 0, the
    listing reads back the paths the command printed, one per line, in
    the order it printed them, as long as no path is empty, contains a
    newline or a carriage return, or has whitespace at either end. *)
Theorem remote_listing_round_trip
    self directory recursive (run : list string → run_outcome) paths stderr :
  Forall (λ p, Py.isascii p = true ∧ p ≠ EmptyString ∧ Py.strip p = p ∧
               Py.contains "010" p = false ∧ Py.contains "013" p = false) paths →
  run (ssh_cmd self (find_cmd directory recursive))
    = Completed 0 (unlines paths) stderr →
  get_files_in_directory self directory recursive
    (λ command, _run_ssh_command self command run) = paths.
Proof.
  intros Hpaths Hrun. unfold get_files_in_directory, _run_ssh_command.
  rewrite Hrun. rewrite bool_decide_eq_true_2 by done.
  rewrite universal_newlines_unlines.
  2: { eapply Forall_impl; [exact Hpaths|]. by intros p (_ & _ & _ & _ & ?). }
  apply Forall_and in Hpaths as [Hascii Hpaths].
  assert (Forall (λ p, Py.isascii p = true ∧ p ≠ EmptyString ∧ Py.strip p = p ∧
                       Py.contains "010" p = false) paths) as Hpaths'.
  { apply Forall_and. split; [done|].
    eapply Forall_impl; [exact Hpaths|]. by intros p (? & ? & ? & _). }
  clear Hpaths Hascii Hrun. rename Hpaths' into Hpaths.
  destruct (unlines paths) as [|a result] eqn:Hu.
  { destruct paths as [|p paths]; [done|]. simpl in Hu.
    apply Forall_cons in Hpaths as [(_ & Hp & _) _]. by destruct p. }
  rewrite <- Hu, split_unlines.
  2: { eapply Forall_impl; [exact Hpaths|]. by intros p (_ & _ & _ & ?). }
  rewrite filter_app, fmap_app.
  rewrite (filter_cons_False _ EmptyString) by (intros Hne; by apply Hne).
  rewrite filter_nil, fmap_nil, app_nil_r. clear Hu.
  induction Hpaths as [|p paths (_ & Hne & Hs & _) _ IH]; [done|].
  rewrite filter_cons_True by (by rewrite Hs). rewrite fmap_cons, Hs. by f_equal.
Qed.

End Listing.

Lemma remote_listing_entries_are_stripped_lines_witness :
  let run := λ _ : string, Some (" /srv/clips/a.jpg " +:+ String "010" "/srv/clips/b.mp4") in
  RemoteMediaHandler.get_files_in_directory demo_remote "/srv/clips" false run
    = ["/srv/clips/a.jpg"; "/srv/clips/b.mp4"] ∧
  Forall (λ f, f ≠ EmptyString ∧ Py.strip f = f ∧ Py.contains "010" f = false ∧
               ∃ result line,
                 run (RemoteMediaHandler.find_cmd "/srv/clips" false) = Some result ∧
                 line ∈ Py.split "010" result ∧ f = Py.strip line)
         (RemoteMediaHandler.get_files_in_directory demo_remote "/srv/clips" false run).
Proof.
  intros run. split; [vm_compute; reflexivity|].
  apply (remote_listing_entries_are_stripped_lines (H := Demo.codec)
           demo_remote "/srv/clips" false run).
  intros result [= <-]. vm_compute. reflexivity.
Defined.

Lemma remote_listing_round_trip_witness :
  let run := λ _ : list string,
    RemoteMediaHandler.Completed 0
      (unlines ["/srv/clips/a.jpg"; "/srv/clips/b c.mp4"]) "" in
  RemoteMediaHandler.get_files_in_directory demo_remote "/srv/clips" false
    (λ command, RemoteMediaHandler._run_ssh_command demo_remote command run)
  = ["/srv/clips/a.jpg"; "/srv/clips/b c.mp4"].
Proof.
  intros run.
  apply (remote_listing_round_trip (H := Demo.codec)
           demo_remote "/srv/clips" false run
           ["/srv/clips/a.jpg"; "/srv/clips/b c.mp4"] "").
  - repeat constructor; by vm_compute.
  - reflexivity.
Defined.
(** ** The remote window and the remote cache *)

Lemma no_slash_rfind b : no_slash b = true → Py.rfind "/" b = -1.
Proof.
  induction b as [|a b IH]; [done|]. simpl.
  intros [Ha%negb_true_iff%bool_decide_eq_false Hb]%andb_true_iff.
  rewrite (IH Hb). simpl. by rewrite decide_False.
Qed.

Lemma rfind_app_no_slash d b :
  no_slash b = true → Py.rfind "/" (d +:+ b) = Py.rfind "/" d.
Proof.
  intros Hb. induction d as [|a d IH]; [by apply no_slash_rfind|].
  rewrite app_cons. simpl. by rewrite IH.
Qed.

Lemma rfind_endswith d :
  Py.endswith "/" d = true → Py.rfind "/" d = Z.of_nat (String.length d) - 1.
Proof.
  induction d as [|a d IH]; [done|]. destruct d as [|a' d].
  - simpl. intros ->%bool_decide_eq_true. done.
  - intros Hd. specialize (IH Hd). cbn [Py.rfind] in *. rewrite IH.
    cbn [String.length] in *.
    destruct (Z.leb_spec 0 (Z.of_nat (S (String.length d)) - 1)); lia.
Qed.

Lemma drop_app_length d b : Py.drop (String.length d) (d +:+ b) = b.
Proof. induction d as [|a d IH]; [by destruct b|]. by rewrite app_cons. Qed.

(** The base name of a name put below a directory is the name. *)
Lemma basename_prefix_no_slash top b :
  no_slash b = true → Py.basename (dir_prefix top +:+ b) = b.
Proof.
  intros Hb. unfold Py.basename. rewrite (rfind_app_no_slash _ _ Hb).
  assert (dir_prefix top = EmptyString ∨ Py.endswith "/" (dir_prefix top) = true)
    as [->|Hd].
  { unfold dir_prefix. destruct (bool_decide (top = "")) eqn:Ht; simpl.
    - left. by apply bool_decide_eq_true in Ht.
    - destruct (Py.endswith "/" top) eqn:He; [by right|]. right.
      by rewrite endswith_app. }
  - by destruct b.
  - rewrite (rfind_endswith _ Hd).
    replace (Z.to_nat (Z.of_nat (String.length (dir_prefix top)) - 1 + 1))
      with (String.length (dir_prefix top)) by lia.
    apply drop_app_length.
Qed.

Section RemoteMore.
Context `{Codec}.

(** X16: loading a directory with a non-empty name in the remote window
    never returns: [load_directory] ends with [_refresh_view], which
    calls [load_directory] again, and so on until the stack is
    exhausted, whatever the remote commands answer and whether they are
    run at all. *)
Theorem remote_load_directory_never_returns
    depth run level handler (self : MediaBridgeViewer.t) directory :
  directory ≠ EmptyString →
  RemoteLoad.load_directory depth run level handler self directory
    = RemoteLoad.RecursionError.
Proof.
  intros Hne. revert level self.
  induction depth as [|depth IH]; intros level self; [done|].
  cbn [RemoteLoad.load_directory]. cbn [MediaBridgeViewer.current_directory
    MediaBridgeViewer.set_current_directory MediaBridgeViewer.set_media_files].
  rewrite bool_decide_eq_false_2 by done. apply IH.
Qed.

Import RemoteMediaHandler.

(** X17: the remote handler transfers the file before it looks into the
    cache.  With a thumbnail cached for the scratch path, a transfer
    that fails still gives no thumbnail; one that succeeds gives the
    cached object without any decoding, and the copy just written is
    removed again. *)
Theorem remote_create_thumbnail_transfers_before_cache
    self filepath t c left_behind w :
  let local_path := local_path_of self filepath in
  MediaHandler.cache (base self) !! local_path = Some t →
  local_path ∉ readonly w →
  (create_thumbnail self filepath (ScpFailed left_behind) w).1.1 = Returned None ∧
  let st := create_thumbnail self filepath (ScpOk c) w in
  st.1.1 = Returned (Some t) ∧ st.1.2 = self ∧
  decoder_calls st.2 = decoder_calls w ∧
  fs st.2 = delete local_path (fs w).
Proof.
  intros local_path Hc Hro. split.
  - unfold create_thumbnail. by destruct left_behind.
  - intros st. subst st. unfold create_thumbnail. fold local_path. simpl.
    rewrite (create_thumbnail_hit _ _ _ _ Hc).
    destruct (remove_temp_file_removes local_path (set_fs <[local_path:=c]> w) c)
      as (w2 & Hrm & Hfs2); [apply lookup_insert_eq|done|].
    rewrite Hrm. simpl. split; [done|]. split; [by destruct self|].
    split; [|by rewrite Hfs2; simpl; rewrite delete_insert_eq].
    unfold remove_temp_file, os_remove in Hrm. simpl in Hrm.
    repeat case_match; by simplify_eq.
Qed.

Lemma get_media_info_identifies self p c w :
  fs w !! p = Some c →
  ∃ info, (MediaHandler.get_media_info self p w).1 = Returned info ∧
          info !! "filepath" = Some (VStr p) ∧
          info !! "filename" = Some (VStr (Py.basename p)) ∧
          info !! "size" = Some (VInt (content_size c)).
Proof.
  intros Hc. unfold MediaHandler.get_media_info, os_path_exists, os_path_getsize.
  rewrite Hc, bool_decide_eq_true_2 by eauto. simpl.
  destruct (MediaHandler.get_media_info_try p _ w) as [info1 oe] eqn:Htry.
  assert (info1 !! "filepath" = Some (VStr p) ∧
          info1 !! "filename" = Some (VStr (Py.basename p)) ∧
          info1 !! "size" = Some (VInt (content_size c))) as (? & ? & ?).
  { unfold MediaHandler.get_media_info_try, MediaHandler.video_info in Htry.
    repeat case_match; simplify_eq/=; done. }
  destruct oe as [e|]; eexists; (split; [done|]);
    rewrite ?lookup_insert_ne by done; done.
Qed.

(** X18: the record the remote handler returns for a transferred file
    describes the local copy: its [filepath] is the scratch path, where
    no file exists any more when the call returns. *)
Theorem remote_get_media_info_describes_the_copy self filepath c w :
  let local_path := local_path_of self filepath in
  local_path ∉ readonly w →
  ∃ info w',
    get_media_info self filepath (ScpOk c) w = (Returned info, w') ∧
    info !! "filepath" = Some (VStr local_path) ∧
    info !! "filename" = Some (VStr (Py.basename filepath)) ∧
    info !! "size" = Some (VInt (content_size c)) ∧
    os_path_exists w' local_path = false.
Proof.
  intros local_path Hro. unfold get_media_info. fold local_path. simpl.
  pose proof (get_media_info_fs (base self) local_path
                (set_fs <[local_path:=c]> w)) as [Hfs Hro'].
  destruct (get_media_info_identifies (base self) local_path c
              (set_fs <[local_path:=c]> w)) as (info & Hinfo & Hp & Hn & Hs).
  { apply lookup_insert_eq. }
  assert (Py.basename local_path = Py.basename filepath) as Hbase.
  { unfold local_path, local_path_of.
    rewrite join_relative by apply no_slash_startswith, basename_no_slash.
    apply basename_prefix_no_slash, basename_no_slash. }
  rewrite Hbase in Hn.
  destruct (MediaHandler.get_media_info _ _ _) as [r w1]. simpl in *. subst r.
  destruct (remove_temp_file_removes local_path w1 c) as (w2 & -> & Hfs2).
  - rewrite Hfs. apply lookup_insert_eq.
  - by rewrite Hro'.
  - exists info, w2. repeat split; try done.
    unfold os_path_exists. rewrite Hfs2, lookup_delete_eq.
    apply bool_decide_eq_false_2. by intros [? ?].
Qed.

End RemoteMore.

Lemma remote_load_directory_never_returns_witness :
  RemoteLoad.load_directory 1000
    (λ level _, if (level <? 990)%nat
                then RemoteMediaHandler.Completed 0 (unlines ["/srv/clips/a.jpg"]) ""
                else RemoteMediaHandler.RunError)
    0 demo_remote (demo_gui [] []) "/srv/clips"
  = RemoteLoad.RecursionError.
Proof.
  apply (remote_load_directory_never_returns (H := Demo.codec)). discriminate.
Defined.

Lemma remote_create_thumbnail_transfers_before_cache_witness :
  let self :=
    RemoteMediaHandler.set_base
      (MediaHandler.set_cache
         {[ "/tmp/media_bridge_k3/a.jpg" := Demo.photo_image 0 "IMG-old" ]}
         MediaHandler.init) demo_remote in
  let w := Demo.world [] in
  (RemoteMediaHandler.create_thumbnail self "/srv/x/a.jpg" (scp_failed None) w).1.1
    = Returned None ∧
  let st := RemoteMediaHandler.create_thumbnail self "/srv/x/a.jpg" (scp_ok "IMG-new") w in
  st.1.1 = Returned (Some (Demo.photo_image 0 "IMG-old")) ∧ st.1.2 = self ∧
  decoder_calls st.2 = decoder_calls w ∧
  fs st.2 = delete (RemoteMediaHandler.local_path_of self "/srv/x/a.jpg") (fs w).
Proof.
  intros self w.
  apply (remote_create_thumbnail_transfers_before_cache (H := Demo.codec)
           self "/srv/x/a.jpg" (Demo.photo_image 0 "IMG-old") "IMG-new" None w).
  - vm_compute. reflexivity.
  - vm_compute. set_solver.
Defined.

Lemma remote_get_media_info_describes_the_copy_witness :
  ∃ info w',
    RemoteMediaHandler.get_media_info demo_remote "/srv/x/a.jpg" (scp_ok "IMG-a")
      (Demo.world []) = (Returned info, w') ∧
    info !! "filepath" =
      Some (VStr (RemoteMediaHandler.local_path_of demo_remote "/srv/x/a.jpg")) ∧
    info !! "filename" = Some (VStr (Py.basename "/srv/x/a.jpg")) ∧
    info !! "size" = Some (VInt (@content_size Demo.codec "IMG-a")) ∧
    os_path_exists w' (RemoteMediaHandler.local_path_of demo_remote "/srv/x/a.jpg")
      = false.
Proof.
  apply (remote_get_media_info_describes_the_copy (H := Demo.codec)
           demo_remote "/srv/x/a.jpg" "IMG-a" (Demo.world [])).
  vm_compute. set_solver.
Defined.
(** ** The window: deleting, the grid, the play badge *)

Section Window.
Context `{Codec}.
Import MediaBridgeViewer.

Local Abbreviation remove_body :=
  (λ '(w, deleted_count) filepath,
     match os_remove w filepath with
     | (Returned _, w) => (w, S deleted_count)
     | (Raised _, w) => (w, deleted_count)
     end).

(** The loop of [_delete_selected]. *)
Lemma gui_delete_loop order : ∀ w cnt,
  NoDup order →
  let deleted := filter (λ f, removable w f = true) order in
  ∃ w', foldl remove_body (w, cnt) order = (w', (cnt + length deleted)%nat) ∧
        (∀ p, fs w' !! p = if bool_decide (p ∈ deleted) then None else fs w !! p) ∧
        readonly w' = readonly w.
Proof.
  induction order as [|f rest IH]; intros w cnt Hnd deleted.
  { exists w. subst deleted. simpl. by rewrite Nat.add_0_r. }
  apply NoDup_cons in Hnd as [Hf Hnd]. cbn [foldl].
  destruct (removable w f) eqn:Hrem.
  - rewrite (os_remove_removable _ _ Hrem).
    destruct (IH (set_fs (delete f) w) (S cnt) Hnd) as (w' & Hfold & Hfs & Hro).
    assert (filter (λ g, removable (set_fs (delete f) w) g = true) rest
            = filter (λ g, removable w g = true) rest) as Hsame.
    { apply filter_ext_elem. intros g Hg.
      rewrite removable_after_delete; [done|]. by intros ->. }
    rewrite Hsame in Hfold, Hfs.
    subst deleted. rewrite filter_cons_True by done.
    set (rest_deleted := filter (λ g, removable w g = true) rest) in *.
    exists w'. split; [|split].
    + rewrite Hfold. simpl. f_equal. lia.
    + intros p. rewrite Hfs. simpl.
      destruct (decide (p = f)) as [->|Hne].
      * rewrite (bool_decide_eq_true_2 (f ∈ f :: _)) by by left.
        case_bool_decide; [done|]. apply lookup_delete_eq.
      * rewrite lookup_delete_ne by done.
        rewrite (bool_decide_ext (p ∈ f :: rest_deleted) (p ∈ rest_deleted)); [done|].
        rewrite elem_of_cons. naive_solver.
    + by rewrite Hro.
  - destruct (os_remove_not_removable _ _ Hrem) as [e ->].
    destruct (IH w cnt Hnd) as (w' & Hfold & Hfs & Hro).
    subst deleted. rewrite filter_cons_False by (by rewrite Hrem).
    exists w'. done.
Qed.

(** X19: a confirmed bulk delete in the window tries every selected
    file, counts the ones [os.remove] accepted, and removes exactly
    these from the disk.  It then reloads the current directory, which
    empties the selection and the grid; when that directory no longer
    exists the viewer is left as it was, deleted files included. *)
Theorem gui_delete_selected_tally self order exists_ w :
  selected_files self ≠ ∅ →
  order ≡ₚ elements (selected_files self) →
  let deleted : gset string :=
    filter (λ f, removable w f = true) (selected_files self) in
  let st := _delete_selected self true order exists_ w in
  st.2 = size deleted ∧
  (∀ p, fs st.1.2 !! p = if bool_decide (p ∈ deleted) then None else fs w !! p) ∧
  (current_directory self ≠ EmptyString → exists_ = true →
   selected_files st.1.1 = ∅ ∧ grid st.1.1 = [] ∧
   media_files st.1.1 = media_files self) ∧
  (exists_ = false → st.1.1 = self).
Proof.
  intros Hne Horder deleted st. subst st. unfold _delete_selected.
  rewrite bool_decide_eq_false_2 by done. simpl.
  destruct (gui_delete_loop order w 0%nat) as (w' & -> & Hfs & _).
  { rewrite Horder. apply NoDup_elements. }
  set (deleted_list := filter (λ f, removable w f = true) order) in *.
  assert (∀ f, f ∈ deleted_list ↔ f ∈ deleted) as Hsame.
  { intros f. unfold deleted_list, deleted.
    rewrite list_elem_of_filter, elem_of_filter, Horder, elem_of_elements. done. }
  assert (length deleted_list = size deleted) as Hlen.
  { assert (list_to_set deleted_list = deleted) as <-.
    { apply set_eq. intros f. by rewrite elem_of_list_to_set. }
    symmetry. apply size_list_to_set.
    apply NoDup_filter. rewrite Horder. apply NoDup_elements. }
  simpl. split; [done|]. split; [|split].
  - intros p. rewrite Hfs.
    by rewrite (bool_decide_ext (p ∈ deleted_list) (p ∈ deleted)).
  - intros Hdir ->. unfold _refresh_view.
    rewrite bool_decide_eq_false_2 by done. done.
  - intros ->. unfold _refresh_view. by case_bool_decide.
Qed.

Lemma refresh_view_grid_columns self exists_ :
  grid_columns (_refresh_view self exists_) = grid_columns self.
Proof.
  unfold _refresh_view, load_directory. case_bool_decide; [done|].
  by destruct exists_.
Qed.

(** X20: whatever is typed into the spin box, [_update_grid_columns]
    leaves a number of columns between 1 and 8, so that the cells the
    grid gives to the entries of the list are defined, lie in these
    columns, fill the rows from left to right, and are all different. *)
Theorem update_grid_columns_keeps_cells_apart
    max_str_digits self columns_var exists_ :
  Py.isascii columns_var = true →
  1 ≤ grid_columns self ≤ 8 →
  let self' := (_update_grid_columns max_str_digits self columns_var exists_).1 in
  1 ≤ grid_columns self' ≤ 8 ∧
  (∀ i, ∃ row col, grid_position self' i = Some (row, col) ∧
                   0 ≤ row ∧ 0 ≤ col < grid_columns self' ∧
                   Z.of_nat i = row * grid_columns self' + col) ∧
  (∀ i j, grid_position self' i = grid_position self' j → i = j).
Proof.
  intros _ Hc self'.
  assert (1 ≤ grid_columns self' ≤ 8) as Hc'.
  { subst self'. unfold _update_grid_columns.
    destruct (Py.int max_str_digits columns_var) as [n|e]; [|done].
    destruct ((1 <=? n) && (n <=? 8)) eqn:Hn; [|done]. simpl.
    rewrite refresh_view_grid_columns. simpl.
    apply andb_true_iff in Hn as [?%Z.leb_le ?%Z.leb_le]. lia. }
  split; [done|]. generalize dependent self'. intros self' Hc'.
  unfold grid_position. rewrite bool_decide_eq_false_2 by lia. split.
  - intros i. eexists _, _. split; [done|].
    pose proof (Z.mod_pos_bound (Z.of_nat i) (grid_columns self')).
    pose proof (Z.div_mod (Z.of_nat i) (grid_columns self')).
    pose proof (Z.div_pos (Z.of_nat i) (grid_columns self')).
    split; [lia|]. split; [lia|]. lia.
  - intros i j [= Hd Hm].
    pose proof (Z.div_mod (Z.of_nat i) (grid_columns self')) as Hi.
    pose proof (Z.div_mod (Z.of_nat j) (grid_columns self')) as Hj.
    apply Nat2Z.inj. rewrite Hi, Hj by lia. by rewrite Hd, Hm.
Qed.

(** X21: the play badge.  The circle [_add_video_indicator] draws is as
    wide as it is high and centred on the image to the pixel; the
    triangle lies in the square the circle is drawn around, 5 pixels
    inside its bounding box; and when the image is at least 13 pixels
    wide and high the whole badge is inside the image. *)
Theorem video_indicator_is_centred w h :
  0 < w → 0 < h →
  let '((x0, y0, x1, y1), triangle) := MediaHandler._add_video_indicator (w, h) in
  x1 - x0 = y1 - y0 ∧
  w - 1 ≤ x0 + x1 ≤ w ∧ h - 1 ≤ y0 + y1 ≤ h ∧
  Forall (λ '(px, py), x0 + 5 ≤ px ≤ x1 - 5 ∧ y0 + 5 ≤ py ≤ y1 - 5) triangle ∧
  (13 ≤ w → 13 ≤ h → 0 ≤ x0 ∧ x1 ≤ w ∧ 0 ≤ y0 ∧ y1 ≤ h).
Proof.
  intros Hw Hh. unfold MediaHandler._add_video_indicator. cbv zeta.
  set (b := Z.min w h / 4).
  assert (0 ≤ b ∧ 4 * b ≤ Z.min w h) as [Hb0 Hb].
  { subst b. pose proof (Z.div_mod (Z.min w h) 4).
    pose proof (Z.mod_pos_bound (Z.min w h) 4). lia. }
  pose proof (Z.div_mod (w - b) 2). pose proof (Z.mod_pos_bound (w - b) 2).
  pose proof (Z.div_mod (h - b) 2). pose proof (Z.mod_pos_bound (h - b) 2).
  pose proof (Z.div_mod b 4). pose proof (Z.mod_pos_bound b 4).
  pose proof (Z.div_mod b 2). pose proof (Z.mod_pos_bound b 2).
  pose proof (Z.div_mod (3 * b) 4). pose proof (Z.mod_pos_bound (3 * b) 4).
  split; [lia|]. split; [lia|]. split; [lia|]. split.
  - repeat constructor; lia.
  - intros Hw13 Hh13. lia.
Qed.

End Window.

Lemma gui_delete_selected_tally_witness :
  let self := demo_gui ["/d/a.jpg"; "/d/b.png"; "/d/c.mp4"] ["/d/a.jpg"; "/d/b.png"] in
  let w := demo_world_locked
             [("/d/a.jpg", "IMG-a"); ("/d/b.png", "IMG-b"); ("/d/c.mp4", "VID-c")]
             ["/d/b.png"] in
  let order := elements (MediaBridgeViewer.selected_files self) in
  let deleted : gset string :=
    filter (λ f, removable w f = true) (MediaBridgeViewer.selected_files self) in
  let st := MediaBridgeViewer._delete_selected self true order true w in
  st.2 = size deleted ∧
  (∀ p, fs st.1.2 !! p = if bool_decide (p ∈ deleted) then None else fs w !! p) ∧
  (MediaBridgeViewer.current_directory self ≠ EmptyString → true = true →
   MediaBridgeViewer.selected_files st.1.1 = ∅ ∧ MediaBridgeViewer.grid st.1.1 = [] ∧
   MediaBridgeViewer.media_files st.1.1 = MediaBridgeViewer.media_files self) ∧
  (true = false → st.1.1 = self).
Proof.
  intros self w order.
  apply (gui_delete_selected_tally (H := Demo.codec) self order true w).
  - compute_done.
  - reflexivity.
Defined.

Lemma update_grid_columns_keeps_cells_apart_witness :
  let self := demo_gui ["/d/a.jpg"; "/d/b.png"; "/d/c.mp4"] [] in
  let self' := (MediaBridgeViewer._update_grid_columns 4300 self "0" true).1 in
  1 ≤ MediaBridgeViewer.grid_columns self' ≤ 8 ∧
  (∀ i, ∃ row col, MediaBridgeViewer.grid_position self' i = Some (row, col) ∧
                   0 ≤ row ∧ 0 ≤ col < MediaBridgeViewer.grid_columns self' ∧
                   Z.of_nat i = row * MediaBridgeViewer.grid_columns self' + col) ∧
  (∀ i j, MediaBridgeViewer.grid_position self' i = MediaBridgeViewer.grid_position self' j
          → i = j).
Proof.
  apply (update_grid_columns_keeps_cells_apart (H := Demo.codec)).
  - reflexivity.
  - simpl. lia.
Defined.

Lemma video_indicator_is_centred_witness :
  let '((x0, y0, x1, y1), triangle) := MediaHandler._add_video_indicator (300, 200) in
  x1 - x0 = y1 - y0 ∧
  300 - 1 ≤ x0 + x1 ≤ 300 ∧ 200 - 1 ≤ y0 + y1 ≤ 200 ∧
  Forall (λ '(px, py), x0 + 5 ≤ px ≤ x1 - 5 ∧ y0 + 5 ≤ py ≤ y1 - 5) triangle ∧
  (13 ≤ 300 → 13 ≤ 200 → 0 ≤ x0 ∧ x1 ≤ 300 ∧ 0 ≤ y0 ∧ y1 ≤ 200).
Proof. apply (video_indicator_is_centred 300 200); lia. Defined.
(** ** Extensions are matched without regard to case *)

Lemma ascii_lower_sep a :
  (Py.ascii_lower a = "/"%char ↔ a = "/"%char) ∧
  (Py.ascii_lower a = "."%char ↔ a = "."%char).
Proof. destruct a as [[] [] [] [] [] [] [] []]; vm_compute; split; split; congruence. Qed.

Lemma ascii_lower_idempotent a : Py.ascii_lower (Py.ascii_lower a) = Py.ascii_lower a.
Proof. destruct a as [[] [] [] [] [] [] [] []]; vm_compute; reflexivity. Qed.

Lemma lower_idempotent s : Py.lower (Py.lower s) = Py.lower s.
Proof.
  induction s as [|a s IH]; [done|]. simpl. by rewrite ascii_lower_idempotent, IH.
Qed.

Lemma rfind_lower c s :
  c = "/"%char ∨ c = "."%char → Py.rfind c (Py.lower s) = Py.rfind c s.
Proof.
  intros Hc. induction s as [|a s IH]; [done|]. simpl. rewrite IH.
  destruct (0 <=? Py.rfind c s); [done|].
  pose proof (ascii_lower_sep a) as [Hs Hd].
  destruct (decide (a = c)) as [Ha|Ha].
  - rewrite decide_True; [done|]. destruct Hc; subst c; tauto.
  - rewrite decide_False; [done|]. destruct Hc; subst c; tauto.
Qed.

Lemma get_lower i s : String.get i (Py.lower s) = Py.ascii_lower <$> String.get i s.
Proof.
  revert i. induction s as [|a s IH]; intros [|i]; simpl; done.
Qed.

Lemma match_dot {A} a (x y : A) :
  match a with "."%char => x | _ => y end = if decide (a = "."%char) then x else y.
Proof. destruct a as [[] [] [] [] [] [] [] []]; by vm_compute. Qed.

Lemma splitext_scan_lower s : ∀ n i,
  Py.splitext_scan (Py.lower s) i n = Py.splitext_scan s i n.
Proof.
  induction n as [|n IH]; intros i; [done|]. simpl. rewrite get_lower.
  destruct (String.get i s) as [a|]; simpl; [|done].
  rewrite !match_dot, IH. pose proof (ascii_lower_sep a) as [_ Hd].
  destruct (decide (a = "."%char)).
  - rewrite decide_True; [done|]. tauto.
  - rewrite decide_False; [done|]. tauto.
Qed.

Lemma take_lower n s : Py.take n (Py.lower s) = Py.lower (Py.take n s).
Proof. revert n. induction s as [|a s IH]; intros [|n]; simpl; try done. by rewrite IH. Qed.

Lemma drop_lower n s : Py.drop n (Py.lower s) = Py.lower (Py.drop n s).
Proof. revert n. induction s as [|a s IH]; intros [|n]; simpl; try done. Qed.

Lemma splitext_lower p :
  Py.splitext (Py.lower p) = (Py.lower (Py.splitext p).1, Py.lower (Py.splitext p).2).
Proof.
  unfold Py.splitext. cbv zeta.
  rewrite !rfind_lower by tauto. rewrite splitext_scan_lower.
  case_match; simpl; [|done]. by rewrite take_lower, drop_lower.
Qed.

Lemma lower_ext p :
  Py.lower (Py.splitext (Py.lower p)).2 = Py.lower (Py.splitext p).2.
Proof. rewrite splitext_lower. simpl. apply lower_idempotent. Qed.

(** X22: two ASCII paths that differ only in the case of their letters
    are classified alike: supported or not, video or image. *)
Theorem formats_ignore_case p q :
  Py.isascii p = true → Py.isascii q = true →
  Py.lower p = Py.lower q →
  MediaHandler.is_supported_file p = MediaHandler.is_supported_file q ∧
  MediaHandler.is_video_file p = MediaHandler.is_video_file q ∧
  MediaHandler.is_image_file p = MediaHandler.is_image_file q.
Proof.
  intros _ _ Hpq.
  unfold MediaHandler.is_supported_file, MediaHandler.is_video_file,
    MediaHandler.is_image_file. cbv zeta.
  by rewrite <- (lower_ext p), <- (lower_ext q), Hpq.
Qed.

Lemma formats_ignore_case_witness :
  MediaHandler.is_supported_file "/d/Clip.MP4" = MediaHandler.is_supported_file "/d/clip.mp4" ∧
  MediaHandler.is_video_file "/d/Clip.MP4" = MediaHandler.is_video_file "/d/clip.mp4" ∧
  MediaHandler.is_image_file "/d/Clip.MP4" = MediaHandler.is_image_file "/d/clip.mp4".
Proof. apply formats_ignore_case; vm_compute; reflexivity. Defined.
(** ** The selection and the grid of the window *)

Section Events.
Context `{Codec}.
Import MediaBridgeViewer.

(** Between events the selected files are files of the list, and the
    grid shows the list. *)
Local Abbreviation settled self :=
  ((∀ f, f ∈ selected_files self → f ∈ media_files self) ∧
   grid self = media_files self).

Lemma load_directory_and_wait_settled self directory listing :
  settled self → settled (load_directory_and_wait self directory listing).
Proof.
  intros Hs. unfold load_directory_and_wait. destruct listing as [es|]; [|done].
  unfold load_files, load_directory, _populate_grid. simpl.
  destruct (MediaHandler.get_files_in_directory directory (Some es) (recursive_var self));
    simpl; split; try done; intros f Hf; by apply elem_of_empty in Hf.
Qed.

Lemma refresh_and_wait_settled self listing :
  settled self → settled (refresh_and_wait self listing).
Proof.
  intros Hs. unfold refresh_and_wait. case_bool_decide; [done|].
  by apply load_directory_and_wait_settled.
Qed.

Lemma keep_selected_settled self : settled self → settled (_keep_selected self).
Proof.
  intros Hs. unfold _keep_selected. case_bool_decide; [done|].
  unfold _populate_grid, _clear_grid. simpl.
  destruct (filter (λ f, f ∈ selected_files self) (media_files self));
    simpl; split; try done; intros f Hf; by apply elem_of_empty in Hf.
Qed.

Lemma gui_handle_settled max_str_digits ev self w self' w' :
  settled self →
  gui_handle max_str_digits ev (self, w) = Some (self', w') →
  settled self'.
Proof.
  intros Hs. pose proof Hs as [Hsel Hgrid].
  destruct ev as [directory listing|filepath selected| | | |confirmed order listing
                 |columns_var listing]; simpl; intros Hh.
  - simplify_eq. by apply load_directory_and_wait_settled.
  - case_bool_decide as Hin; simplify_eq. rewrite Hgrid in Hin.
    unfold _toggle_selection. destruct selected; simpl; split; try done.
    + intros f [->%elem_of_singleton|Hf]%elem_of_union; auto.
    + intros f [Hf _]%elem_of_difference. auto.
  - simplify_eq. simpl. split; [|done]. intros f. by rewrite elem_of_list_to_set.
  - simplify_eq. simpl. split; [|done]. intros f Hf. by apply elem_of_empty in Hf.
  - simplify_eq. by apply keep_selected_settled.
  - destruct (_delete_selected self confirmed order (bool_decide (is_Some listing)) w)
      as [[self1 w1] n] eqn:Hd.
    destruct (negb (bool_decide (selected_files self = ∅)) && confirmed) eqn:Hb;
      simplify_eq; [by apply refresh_and_wait_settled|].
    unfold _delete_selected in Hd.
    destruct (bool_decide (selected_files self = ∅)); simpl in *; [by simplify_eq|].
    destruct confirmed; simpl in *; [done|by simplify_eq].
  - destruct (_update_grid_columns max_str_digits self columns_var
                (bool_decide (is_Some listing))) as [self1 var] eqn:Hu.
    unfold _update_grid_columns in Hu.
    destruct (Py.int max_str_digits columns_var) as [n|e]; [|by simplify_eq].
    destruct ((1 <=? n) && (n <=? 8)); simplify_eq; [|done].
    by apply refresh_and_wait_settled.
Qed.

(** X23: in the window, as long as every load is over before the next
    event is handled, the selected files are always files of the list
    and the grid shows exactly the list, whatever directories are
    loaded, boxes ticked, selections kept or deleted and column counts
    typed. *)
Theorem gui_selection_stays_in_list max_str_digits events w self' w' :
  Forall (λ ev, match ev with
                | GuiColumns columns_var _ => Py.isascii columns_var = true
                | _ => True
                end) events →
  gui_run max_str_digits events (init, w) = Some (self', w') →
  (∀ f, f ∈ selected_files self' → f ∈ media_files self') ∧
  grid self' = media_files self'.
Proof.
  intros _. assert (settled init) as Hinit.
  { split; [|done]. intros f Hf. by apply elem_of_empty in Hf. }
  revert Hinit. generalize init. revert w.
  induction events as [|ev events IH]; intros w self Hs Hrun.
  - simpl in Hrun. by simplify_eq.
  - cbn [gui_run] in Hrun.
    destruct (gui_handle max_str_digits ev (self, w)) as [[self1 w1]|] eqn:Hh; [|done].
    eapply IH; [|exact Hrun]. by eapply gui_handle_settled.
Qed.

End Events.

Lemma gui_selection_stays_in_list_witness :
  match gui_run (H := Demo.codec) 4300
          [GuiLoad "/d" (Some [EFile "a.jpg" true; EFile "b.png" true; EFile "n.txt" true]);
           GuiSelectAll; GuiToggle "/d/a.jpg" false; GuiKeepSelected;
           GuiColumns "3" (Some [EFile "b.png" true]); GuiToggle "/d/b.png" true]
          (MediaBridgeViewer.init,
           Demo.world [("/d/a.jpg", "IMG-a"); ("/d/b.png", "IMG-b"); ("/d/n.txt", "n")])
  with
  | Some (self', _) =>
      MediaBridgeViewer.media_files self' = ["/d/b.png"] ∧
      (∀ f, f ∈ MediaBridgeViewer.selected_files self' →
            f ∈ MediaBridgeViewer.media_files self') ∧
      MediaBridgeViewer.grid self' = MediaBridgeViewer.media_files self'
  | None => False
  end.
Proof.
  pose proof (λ self' w',
          gui_selection_stays_in_list (H := Demo.codec) 4300
          [GuiLoad "/d" (Some [EFile "a.jpg" true; EFile "b.png" true; EFile "n.txt" true]);
           GuiSelectAll; GuiToggle "/d/a.jpg" false; GuiKeepSelected;
           GuiColumns "3" (Some [EFile "b.png" true]); GuiToggle "/d/b.png" true]
          (Demo.world [("/d/a.jpg", "IMG-a"); ("/d/b.png", "IMG-b"); ("/d/n.txt", "n")])
          self' w' ltac:(repeat constructor))
    as Hthm.
  assert ((λ st, MediaBridgeViewer.media_files st.1) <$>
          gui_run (H := Demo.codec) 4300
          [GuiLoad "/d" (Some [EFile "a.jpg" true; EFile "b.png" true; EFile "n.txt" true]);
           GuiSelectAll; GuiToggle "/d/a.jpg" false; GuiKeepSelected;
           GuiColumns "3" (Some [EFile "b.png" true]); GuiToggle "/d/b.png" true]
          (MediaBridgeViewer.init,
           Demo.world [("/d/a.jpg", "IMG-a"); ("/d/b.png", "IMG-b"); ("/d/n.txt", "n")])
          = Some ["/d/b.png"]) as Hfiles by (vm_compute; reflexivity).
  destruct (gui_run _ _ _) as [[self' w']|]; [|discriminate Hfiles].
  split; [by injection Hfiles|]. by apply (Hthm self' w').
Defined.

Section AllKeep.
Context `{Codec}.
Import CLIMediaViewer.

(** X24: in the command loop, selecting all the files and then keeping
    the selected ones leaves the list as it was, with nothing selected. *)
Theorem select_all_then_keep_keeps_the_list
    max_str_digits mem enumerate all keep stdin self w :
  Py.isascii all = true → Py.isascii keep = true →
  decode all = ReqAll → decode keep = ReqKeep →
  ∃ self1 self2,
    turn max_str_digits mem enumerate all stdin self w = Some (self1, w, stdin) ∧
    turn max_str_digits mem enumerate keep stdin self1 w = Some (self2, w, stdin) ∧
    media_files self2 = media_files self ∧ selected_files self2 = ∅.
Proof.
  intros _ _ Hall Hkeep. unfold turn. rewrite Hall, Hkeep.
  eexists _, _. split; [done|]. split; [done|].
  unfold keep_selected. simpl. case_bool_decide as He; simpl.
  - split; [done|]. exact He.
  - split; [|done]. apply filter_all, Forall_forall. intros f Hf.
    by apply elem_of_list_to_set.
Qed.

End AllKeep.

Lemma select_all_then_keep_keeps_the_list_witness :
  ∃ self1 self2,
    CLIMediaViewer.turn 4300 Demo.memory elements " A " [] (demo_cli ["/d/a.jpg"; "/d/b.png"] [])
      (Demo.world []) = Some (self1, Demo.world [], []) ∧
    CLIMediaViewer.turn 4300 Demo.memory elements "keep" [] self1 (Demo.world [])
      = Some (self2, Demo.world [], []) ∧
    CLIMediaViewer.media_files self2
      = CLIMediaViewer.media_files (demo_cli ["/d/a.jpg"; "/d/b.png"] []) ∧
    CLIMediaViewer.selected_files self2 = ∅.
Proof.
  apply (select_all_then_keep_keeps_the_list (H := Demo.codec));
    vm_compute; reflexivity.
Defined.
